(** * Netlist generation of the circuit simulator (project2.py)

    A shallow embedding of [NetlistGenerator] and of the two [CircuitCanvas]
    methods it calls ([get_component_pins], [find_nearest_pin]), followed by
    the properties of the generation pipeline: pin snapping, node
    assignment, the wire graph and its groups, node merging and the
    serializer. *)

From stdpp Require Import gmap strings list fin_maps pretty relations.

Local Open Scope Z_scope.

(** ** Data model *)

(** A [QPoint]: integer pixel coordinates [(x(), y())]. Canvas coordinates
    stay far from the limits of Qt's [int], so they are kept as
    mathematical integers. *)
Definition QPoint : Type := Z * Z.

(** [QPoint.manhattanLength]. *)
Definition manhattanLength (p : QPoint) : Z := Z.abs p.1 + Z.abs p.2.

(** [QPoint.__sub__]. *)
Definition qsub (p q : QPoint) : QPoint := (p.1 - q.1, p.2 - q.2).

(** [QPoint.isNull]; PyQt's [QPoint.__bool__] is [not isNull()], which is
    what [if snap:] tests on a point. *)
Definition isNull (p : QPoint) : bool := bool_decide (p.1 = 0) && bool_decide (p.2 = 0).

(** The type string of an entry of [components]. The seven component
    kinds, and [other] for a string that none of the code's comparisons
    match: of the values the tool buttons pass, ['wire'] and ['delete'],
    which every function below treats alike. *)
Inductive kind : Type :=
  | resistor | battery | capacitor | inductor | voltmeter | ammeter | ground
  | other.

#[global] Instance kind_eq_dec : EqDecision kind.
Proof. solve_decision. Defined.

(** The part of [CircuitCanvas] the generator reads. *)
Record CircuitCanvas : Type := {
  components : list (kind * QPoint);
  lines : list (QPoint * QPoint)
}.

(** [self.grid_size = 20] and [self.snap_threshold = 50], set once in
    [CircuitCanvas.__init__]. *)
Definition grid_size : Z := 20.
Definition snap_threshold : Z := 50.

Module Canvas.

(** [CircuitCanvas.get_component_pins]. *)
Definition get_component_pins (comp : kind) (pos : QPoint) : list QPoint :=
  let '(x, y) := pos in
  match comp with
  | resistor | battery | capacitor | inductor => [(x - 30, y); (x + 30, y)]
  | voltmeter | ammeter => [(x - 40, y); (x + 40, y)]
  | ground => [(x, y)]
  | other => []
  end.

(** The points [find_nearest_pin] visits, in the order it visits them:
    the pins of every component, then both endpoints of every wire. *)
Definition candidates (c : CircuitCanvas) : list QPoint :=
  flat_map (λ cp, get_component_pins cp.1 cp.2) (components c)
  ++ flat_map (λ ab, [ab.1; ab.2]) (lines c).

(** One test of the scan: [if dist < threshold and dist < nearest_dist].
    The accumulator is [(nearest_pin, nearest_dist)]; [None] stands for
    [(None, float('inf'))]. *)
Definition scan_step (point : QPoint) (acc : option (QPoint * Z)) (pin : QPoint)
  : option (QPoint * Z) :=
  let dist := manhattanLength (qsub pin point) in
  if bool_decide (dist < snap_threshold)
     && match acc with
        | None => true
        | Some (_, nearest_dist) => bool_decide (dist < nearest_dist)
        end
  then Some (pin, dist)
  else acc.

Definition scan (point : QPoint) (acc : option (QPoint * Z)) (pins : list QPoint)
  : option (QPoint * Z) :=
  foldl (scan_step point) acc pins.

(** [CircuitCanvas.find_nearest_pin]. *)
Definition find_nearest_pin (c : CircuitCanvas) (point : QPoint) : option QPoint :=
  fst <$> scan point None (candidates c).

End Canvas.

(** ** The generator's tables *)

(** The fields of [NetlistGenerator]. [nodes] is a dict, kept in insertion
    order because [_get_node] returns the first close entry it meets. *)
Record NetlistGenerator : Type := {
  nodes : list (QPoint * Z);
  next_node_num : Z;
  all_pins : list QPoint;
  ground_keys : gset QPoint
}.

(** [NetlistGenerator.__init__]. *)
Definition init : NetlistGenerator :=
  {| nodes := []; next_node_num := 1; all_pins := []; ground_keys := ∅ |}.

(** [d[key] = v] on an insertion-ordered dict. *)
Fixpoint dict_set {K V} `{EqDecision K} (key : K) (v : V) (d : list (K * V))
  : list (K * V) :=
  match d with
  | [] => [(key, v)]
  | (k, w) :: rest =>
      if decide (k = key) then (k, v) :: rest else (k, w) :: dict_set key v rest
  end.

(** The key [_get_node] works with: the snapped point when the snap is
    truthy, else the point itself. *)
Definition canonical_key (c : CircuitCanvas) (point : QPoint) : QPoint :=
  match Canvas.find_nearest_pin c point with
  | Some snap => if isNull snap then point else snap
  | None => point
  end.

(** [abs(x - key[0]) < grid_size and abs(y - key[1]) < grid_size]. *)
Definition close (k key : QPoint) : bool :=
  bool_decide (Z.abs (k.1 - key.1) < grid_size)
  && bool_decide (Z.abs (k.2 - key.2) < grid_size).

(** The [for (x, y), nid in self.nodes.items()] scan: the first close entry. *)
Definition find_close (key : QPoint) (d : list (QPoint * Z)) : option (QPoint * Z) :=
  list_find (λ e, close e.1 key = true) d ≫= λ r, Some r.2.

(** [NetlistGenerator._get_node]: the returned value ([None] is Python's
    [None]) and the generator after the call. *)
Definition _get_node (c : CircuitCanvas) (self : NetlistGenerator)
    (point : QPoint) (is_new_pin : bool) : option Z * NetlistGenerator :=
  let key := canonical_key c point in
  if bool_decide (key ∈ ground_keys self) then (Some 0, self)
  else match find_close key (nodes self) with
       | Some (_, nid) => (Some nid, self)
       | None =>
           if is_new_pin then
             (Some (next_node_num self),
              {| nodes := dict_set key (next_node_num self) (nodes self);
                 next_node_num := next_node_num self + 1;
                 all_pins := all_pins self;
                 ground_keys := ground_keys self |})
           else (None, self)
       end.

(** [NetlistGenerator._collect_all_pins]. *)
Definition collect_step (acc : list QPoint * gset QPoint) (cp : kind * QPoint)
  : list QPoint * gset QPoint :=
  let '(comp, pos) := cp in
  match comp with
  | ground => (acc.1 ++ [pos], {[pos]} ∪ acc.2)
  | _ => (acc.1 ++ Canvas.get_component_pins comp pos, acc.2)
  end.

Definition _collect_all_pins (c : CircuitCanvas) (self : NetlistGenerator)
  : NetlistGenerator :=
  let '(pins, gk) := foldl collect_step ([], ∅) (components c) in
  {| nodes := nodes self;
     next_node_num := next_node_num self;
     all_pins := pins ++ flat_map (λ ab, [ab.1; ab.2]) (lines c);
     ground_keys := gk |}.

(** ** [generate_netlist], phase by phase *)

(** [self.nodes.clear(); self.next_node_num = 1]. *)
Definition reset (self : NetlistGenerator) : NetlistGenerator :=
  {| nodes := [];
     next_node_num := 1;
     all_pins := all_pins self;
     ground_keys := ground_keys self |}.

(** [for p in pins: self._get_node(p, is_new_pin=True)]. *)
Definition assign_all (c : CircuitCanvas) (self : NetlistGenerator)
    (pins : list QPoint) : NetlistGenerator :=
  foldl (λ s p, (_get_node c s p true).2) self pins.

(** The generator once every pin has its raw node: reset, collect, assign. *)
Definition prepare (c : CircuitCanvas) (self : NetlistGenerator) : NetlistGenerator :=
  let s := _collect_all_pins c (reset self) in
  assign_all c s (all_pins s).

(** A lookup-only call, [self._get_node(p)]. *)
Definition lookup_node (c : CircuitCanvas) (self : NetlistGenerator) (p : QPoint)
  : option Z :=
  (_get_node c self p false).1.

(** *** The wire graph

    [wire_adj] is a dict from node to a set of nodes. Its keys are kept in
    insertion order (the groups are discovered in that order). A neighbour
    set is a duplicate-free list; the order in which Python iterates a set
    only changes the order of the members inside one group, and every
    member of a group receives the same final id. *)
Definition set_add (b : Z) (s : list Z) : list Z :=
  if decide (b ∈ s) then s else s ++ [b].

(** [wire_adj.setdefault(a, set()).add(b)]. *)
Fixpoint setdefault_add (a b : Z) (adj : list (Z * list Z)) : list (Z * list Z) :=
  match adj with
  | [] => [(a, [b])]
  | (k, s) :: rest =>
      if decide (k = a) then (k, set_add b s) :: rest
      else (k, s) :: setdefault_add a b rest
  end.

(** The local function [add(a, b)]. *)
Definition add (a b : Z) (adj : list (Z * list Z)) : list (Z * list Z) :=
  setdefault_add b a (setdefault_add a b adj).

Definition wire_step (c : CircuitCanvas) (self : NetlistGenerator)
    (adj : list (Z * list Z)) (ab : QPoint * QPoint) : list (Z * list Z) :=
  match lookup_node c self ab.1, lookup_node c self ab.2 with
  | Some n1, Some n2 => add n1 n2 adj
  | _, _ => adj
  end.

Definition build_wire_adj (c : CircuitCanvas) (self : NetlistGenerator)
  : list (Z * list Z) :=
  foldl (wire_step c self) [] (lines c).

(** [wire_adj[cur]]; every node that reaches the stack is a key of
    [wire_adj] (the graph is a [wire_graph]), so the default is never used. *)
Fixpoint adj_get (cur : Z) (adj : list (Z * list Z)) : option (list Z) :=
  match adj with
  | [] => None
  | (k, s) :: rest => if decide (k = cur) then Some s else adj_get cur rest
  end.

Definition neighbours (adj : list (Z * list Z)) (cur : Z) : list Z :=
  default [] (adj_get cur adj).

(** *** Connected groups

    The [while stack:] loop. The Python list [stack] is kept with its top
    (its last element) at the head. The loop is bounded by [fuel]; [None]
    means the bound was reached before the stack emptied. *)
Fixpoint dfs_loop (fuel : nat) (adj : list (Z * list Z)) (stack : list Z)
    (visited : gset Z) (g : list Z) : option (gset Z * list Z) :=
  match fuel with
  | O => None
  | S fuel' =>
      match stack with
      | [] => Some (visited, g)
      | cur :: stack' =>
          if decide (cur ∈ visited) then dfs_loop fuel' adj stack' visited g
          else
            let visited' := {[cur]} ∪ visited in
            let pushed := filter (λ nx, nx ∉ visited') (neighbours adj cur) in
            dfs_loop fuel' adj (reverse pushed ++ stack') visited' (g ++ [cur])
      end
  end.

(** Enough iterations for any traversal of [adj]: every iteration pops one
    entry, and a node's neighbours are pushed at most once. *)
Definition weight (adj : list (Z * list Z)) : nat :=
  sum_list ((λ ks, S (length ks.2)) <$> adj).

Definition dfs_fuel (adj : list (Z * list Z)) : nat := S (S (weight adj)).

(** One round of [for n in wire_adj]. *)
Definition groups_step (adj : list (Z * list Z))
    (acc : option (gset Z * list (list Z))) (n : Z)
  : option (gset Z * list (list Z)) :=
  acc ≫= λ vg,
    if decide (n ∈ vg.1) then Some vg
    else dfs_loop (dfs_fuel adj) adj [n] vg.1 [] ≫= λ r,
         Some (r.1, vg.2 ++ [r.2]).

Definition find_groups (adj : list (Z * list Z)) : option (list (list Z)) :=
  snd <$> foldl (groups_step adj) (Some (∅, [])) (adj.*1).

(** *** Merging *)

(** [for nid in g: merge[nid] = v]. *)
Definition assign_group (v : Z) (merge : gmap Z Z) (g : list Z) : gmap Z Z :=
  foldl (λ m nid, <[nid := v]> m) merge g.

(** Step 1: a group that holds node 0 goes to 0. *)
Definition merge_step1 (merge : gmap Z Z) (g : list Z) : gmap Z Z :=
  if existsb (λ nid, bool_decide (nid = 0)) g then assign_group 0 merge g else merge.

(** Step 2: every other group takes the next id. The state is
    [(merge, next_id)]. *)
Definition merge_step2 (st : gmap Z Z * Z) (g : list Z) : gmap Z Z * Z :=
  if existsb (λ n, bool_decide (st.1 !! n = Some 0)) g then st
  else (assign_group st.2 st.1 g, st.2 + 1).

(** Step 3: the nodes that are in no group. *)
Definition merge_step3 (gk : gset QPoint) (st : gmap Z Z * Z) (e : QPoint * Z)
  : gmap Z Z * Z :=
  let '(p_key, nid) := e in
  match st.1 !! nid with
  | Some _ => st
  | None =>
      if bool_decide (p_key ∈ gk) then (<[nid := 0]> st.1, st.2)
      else (<[nid := st.2]> st.1, st.2 + 1)
  end.

Definition merge_nodes (groups : list (list Z)) (self : NetlistGenerator)
  : gmap Z Z :=
  let m1 := foldl merge_step1 ∅ groups in
  let st2 := foldl merge_step2 (m1, 1) groups in
  (foldl (merge_step3 (ground_keys self)) st2 (nodes self)).1.

(** *** Serializing *)

(** What a call can raise: the [ValueError] of a shorted component (with
    the component and the node of its message), a [KeyError] of
    [merge[...]], an [IndexError] of [pins[...]]. *)
Inductive exn : Type :=
  | ValueError (comp : kind) (n : Z)
  | KeyError (k : option Z)
  | IndexError.

(** How a call ends. [Unfinished] stands for a traversal that used up its
    iteration bound; it never occurs ([generate_netlist_finishes]). *)
Inductive outcome : Type :=
  | Returned (s : string)
  | Raised (e : exn)
  | Unfinished.

(** The dict [counts]. *)
Record Counts : Type := { cR : Z; cV : Z; cC : Z; cL : Z }.

Definition counts0 : Counts := {| cR := 0; cV := 0; cC := 0; cL := 0 |}.

Definition counts_get (counts : Counts) (comp : kind) : Z :=
  match comp with
  | resistor => cR counts
  | battery => cV counts
  | capacitor => cC counts
  | inductor => cL counts
  | _ => 0
  end.

(** [counts[comp] += 1]. *)
Definition counts_incr (counts : Counts) (comp : kind) : Counts :=
  match comp with
  | resistor => {| cR := cR counts + 1; cV := cV counts; cC := cC counts; cL := cL counts |}
  | battery => {| cR := cR counts; cV := cV counts + 1; cC := cC counts; cL := cL counts |}
  | capacitor => {| cR := cR counts; cV := cV counts; cC := cC counts + 1; cL := cL counts |}
  | inductor => {| cR := cR counts; cV := cV counts; cC := cC counts; cL := cL counts + 1 |}
  | _ => counts
  end.

Definition prefix (comp : kind) : string :=
  match comp with
  | resistor => "R" | battery => "V" | capacitor => "C" | inductor => "L"
  | _ => ""
  end.

Definition default_value (comp : kind) : string :=
  match comp with
  | resistor => "100" | battery => "5" | capacitor => "1e-6" | inductor => "1e-3"
  | _ => ""
  end.

(** [values.get(prefix, default)]. *)
Definition value_of (values : gmap string string) (comp : kind) : string :=
  default (default_value comp) (values !! prefix comp).

(** [f"{prefix}{counts[comp]} {n1} {n2} {val}"]. *)
Definition format_line (pre : string) (idx n1 n2 : Z) (val : string) : string :=
  pre +:+ pretty idx +:+ " " +:+ pretty n1 +:+ " " +:+ pretty n2 +:+ " " +:+ val.

(** [merge[k]], where [k] is what [_get_node] returned. *)
Definition merge_index (merge : gmap Z Z) (k : option Z) : exn + Z :=
  match k ≫= (merge !!.) with
  | Some v => inr v
  | None => inl (KeyError k)
  end.

(** The loop [for comp, pos in self.canvas.components] over the rest of the
    list, from the current [counts] and [netlist]. *)
Fixpoint serialize (c : CircuitCanvas) (self : NetlistGenerator) (merge : gmap Z Z)
    (values : gmap string string) (comps : list (kind * QPoint))
    (counts : Counts) (netlist : list string) : exn + list string :=
  match comps with
  | [] => inr netlist
  | (comp, pos) :: rest =>
      match comp with
      | voltmeter | ammeter => serialize c self merge values rest counts netlist
      | ground => serialize c self merge values rest counts netlist
      | _ =>
          match Canvas.get_component_pins comp pos with
          | pin0 :: pin1 :: _ =>
              match merge_index merge (lookup_node c self pin0) with
              | inl e => inl e
              | inr n1 =>
                  match merge_index merge (lookup_node c self pin1) with
                  | inl e => inl e
                  | inr n2 =>
                      if decide (n1 = n2) then inl (ValueError comp n1)
                      else
                        let counts' := counts_incr counts comp in
                        serialize c self merge values rest counts'
                          (netlist ++ [format_line (prefix comp) (counts_get counts' comp)
                                                   n1 n2 (value_of values comp)])
                  end
              end
          | _ => inl IndexError
          end
      end
  end.

(** [NetlistGenerator.generate_netlist]: what the call returns or raises,
    and the generator it leaves behind. *)
Definition generate_netlist (c : CircuitCanvas) (values : gmap string string)
    (self : NetlistGenerator) : outcome * NetlistGenerator :=
  let self' := prepare c self in
  match find_groups (build_wire_adj c self') with
  | None => (Unfinished, self')
  | Some groups =>
      let merge := merge_nodes groups self' in
      match serialize c self' merge values (components c) counts0 [] with
      | inl e => (Raised e, self')
      | inr netlist => (Returned (String.concat "
" netlist), self')
      end
  end.

(** ** Auxiliary notions used in the statements *)

(** Manhattan distance from a candidate to the query point, as
    [find_nearest_pin] computes it. *)
Definition dist (pin point : QPoint) : Z := manhattanLength (qsub pin point).

(** What the scan knows after the points [seen]. *)
Definition scan_inv (point : QPoint) (seen : list QPoint) (acc : option (QPoint * Z))
  : Prop :=
  match acc with
  | None => ∀ q, q ∈ seen → snap_threshold ≤ dist q point
  | Some (pin, d) =>
      d = dist pin point ∧ pin ∈ seen ∧ d < snap_threshold
      ∧ (∀ q, q ∈ seen → d ≤ dist q point)
      ∧ ∃ i, seen !! i = Some pin ∧ ∀ j q, (j < i)%nat → seen !! j = Some q → d < dist q point
  end.


(** What holds of the node table at every moment of a run. *)
Definition nodes_inv (self : NetlistGenerator) : Prop :=
  (∀ k nid, (k, nid) ∈ nodes self →
     (k ∉ ground_keys self) ∧ 1 ≤ nid < next_node_num self)
  ∧ 1 ≤ next_node_num self
  ∧ NoDup (nodes self).*1
  ∧ NoDup (nodes self).*2.

(** The generator after [_collect_all_pins], before any node is assigned. *)
Definition collected (c : CircuitCanvas) (self : NetlistGenerator) : NetlistGenerator :=
  _collect_all_pins c (reset self).


(** An edge of the wire graph, and being joined by wires. *)
Definition edge (adj : list (Z * list Z)) (a b : Z) : Prop := b ∈ neighbours adj a.

Definition connected (adj : list (Z * list Z)) : relation Z := rtc (edge adj).

(** The shape [add] gives to [wire_adj]: edges go both ways and every
    neighbour is itself a key. *)
Definition wire_graph (adj : list (Z * list Z)) : Prop :=
  (∀ a b, edge adj a b → edge adj b a) ∧ (∀ a b, edge adj a b → b ∈ adj.*1).

(** Entries of [wire_adj] whose node has not been visited yet, counted
    with their neighbours. *)
Definition pending (adj : list (Z * list Z)) (visited : gset Z) : nat :=
  sum_list ((λ ks, if decide (ks.1 ∈ visited) then O else S (length ks.2)) <$> adj).


(** What holds of [(visited, groups)] between two rounds of
    [for n in wire_adj]. *)
Definition groups_inv (adj : list (Z * list Z)) (vg : gset Z * list (list Z)) : Prop :=
  (∀ x, x ∈ vg.1 ↔ x ∈ concat vg.2)
  ∧ NoDup (concat vg.2)
  ∧ (∀ x y, x ∈ vg.1 → edge adj x y → y ∈ vg.1)
  ∧ (∀ g, g ∈ vg.2 → ∃ n, n ∈ adj.*1 ∧ n ∈ g ∧ ∀ x, x ∈ g ↔ connected adj n x).


(** Two raw nodes are the ends of one wire of the canvas. *)
Definition wired (c : CircuitCanvas) (self : NetlistGenerator) (x y : Z) : Prop :=
  ∃ ab, ab ∈ lines c
    ∧ ((lookup_node c self ab.1 = Some x ∧ lookup_node c self ab.2 = Some y)
       ∨ (lookup_node c self ab.1 = Some y ∧ lookup_node c self ab.2 = Some x)).


(** The groups that do not hold node 0, in discovery order. *)
Definition nonground (groups : list (list Z)) : list (list Z) :=
  filter (λ g, 0 ∉ g) groups.

(** The entries of [nodes] whose id is in no group, in table order. *)
Definition isolated (groups : list (list Z)) (entries : list (QPoint * Z))
  : list (QPoint * Z) :=
  filter (λ e, e.2 ∉ concat groups) entries.

(** How many of the entries are not at a ground key. *)
Definition fresh_count (gk : gset QPoint) (entries : list (QPoint * Z)) : Z :=
  Z.of_nat (length (filter (λ e, e.1 ∉ gk) entries)).


(** *** One generation run on a canvas

    [generate_netlist] resets every table it reads, so a run is a function
    of the canvas alone; these are its tables. *)
Definition run (c : CircuitCanvas) : NetlistGenerator := prepare c init.

Definition run_adj (c : CircuitCanvas) : list (Z * list Z) := build_wire_adj c (run c).

Definition run_groups (c : CircuitCanvas) : list (list Z) :=
  default [] (find_groups (run_adj c)).

Definition run_merge (c : CircuitCanvas) : gmap Z Z := merge_nodes (run_groups c) (run c).

(** The raw node of a point once all nodes are assigned, and its final
    node: [merge[self._get_node(p)]] when both lookups succeed. *)
Definition raw_node (c : CircuitCanvas) (p : QPoint) : option Z := lookup_node c (run c) p.

Definition final_node (c : CircuitCanvas) (p : QPoint) : option Z :=
  raw_node c p ≫= (run_merge c !!.).

(** Joined by a chain of wires, in the run of [c]. *)
Definition wire_connected (c : CircuitCanvas) : relation Z := rtc (wired c (run c)).

(** The ground anchors of a canvas. *)
Definition ground_anchors (c : CircuitCanvas) : list QPoint :=
  (filter (λ cp, cp.1 = ground) (components c)).*2.


(** What [generate_netlist] hands back for a result of the serializer
    loop: the joined lines, or the exception. *)
Definition outcome_of (r : exn + list string) : outcome :=
  match r with
  | inl e => Raised e
  | inr netlist => Returned (String.concat "
" netlist)
  end.


(** The kinds that produce a netlist line. *)
Definition is_electrical (comp : kind) : bool :=
  match comp with
  | resistor | battery | capacitor | inductor => true
  | _ => false
  end.

Definition electrical (comps : list (kind * QPoint)) : list (kind * QPoint) :=
  filter (λ cp, is_electrical cp.1 = true) comps.

(** The two pins of an electrical component, [pins[0]] and [pins[1]]. *)
Definition left_pin (pos : QPoint) : QPoint := (pos.1 - 30, pos.2).
Definition right_pin (pos : QPoint) : QPoint := (pos.1 + 30, pos.2).

(** How many of the components are of kind [comp]. *)
Definition count_kind (comp : kind) (comps : list (kind * QPoint)) : Z :=
  Z.of_nat (length (filter (λ cp, cp.1 = comp) comps)).

(** [merge[self._get_node(p)]] against arbitrary tables. *)
Definition resolve (c : CircuitCanvas) (self : NetlistGenerator) (merge : gmap Z Z)
    (p : QPoint) : option Z :=
  lookup_node c self p ≫= (merge !!.).

(** The entries the serializing loop skips: [voltmeter], [ammeter],
    [ground]. *)
Definition is_skipped (comp : kind) : bool :=
  match comp with
  | voltmeter | ammeter | ground => true
  | _ => false
  end.

(** Every entry carries one of the seven component kinds. *)
Definition seven_kinds (comps : list (kind * QPoint)) : Prop :=
  Forall (λ cp, cp.1 ≠ other) comps.

(** A component the serializer passes without raising: one of the seven
    kinds, and either skipped or with two different final nodes. *)
Definition passes (c : CircuitCanvas) (cp : kind * QPoint) : Prop :=
  cp.1 ≠ other
  ∧ (is_electrical cp.1 = true →
     ∃ n1 n2, final_node c (left_pin cp.2) = Some n1
              ∧ final_node c (right_pin cp.2) = Some n2 ∧ n1 ≠ n2).


(** Components placed by the canvas have their anchor on the grid
    ([mouseReleaseEvent] and [mouseMoveEvent] round to [grid_size]). *)
Definition on_grid (c : CircuitCanvas) : Prop :=
  ∀ comp pos, (comp, pos) ∈ components c → (grid_size | pos.1).

(** *** Canvases used as examples *)

(** A ground with no wire on it. *)
Definition lone_ground : CircuitCanvas :=
  {| components := [(ground, (100, 100))]; lines := [] |}.

(** An unwired ground, and a resistor whose left pin is on the ground
    anchor. *)
Definition ground_under_pin : CircuitCanvas :=
  {| components := [(ground, (100, 100)); (resistor, (130, 100))]; lines := [] |}.

(** A resistor with a wire from one of its pins to the other. *)
Definition shorted_resistor : CircuitCanvas :=
  {| components := [(resistor, (100, 100))];
     lines := [((70, 100), (130, 100))] |}.

(** A battery and a resistor in a loop closed through two grounds. *)
Definition battery_loop : CircuitCanvas :=
  {| components := [(battery, (0, 0)); (ground, (-60, 0));
                    (resistor, (100, 0)); (ground, (160, 40))];
     lines := [((-30, 0), (-60, 0)); ((30, 0), (50, 0));
               ((50, 0), (70, 0)); ((130, 0), (160, 40))] |}.

(** A ground, a voltmeter and a wire, but nothing that gives a line. *)
Definition meters_only : CircuitCanvas :=
  {| components := [(ground, (0, 0)); (voltmeter, (100, 0))];
     lines := [((0, 0), (60, 0))] |}.


(** [merge] after step 1, and [(merge, next_id)] after step 2. *)
Definition after_step1 (groups : list (list Z)) : gmap Z Z :=
  foldl merge_step1 ∅ groups.

Definition after_step2 (groups : list (list Z)) : gmap Z Z * Z :=
  foldl merge_step2 (after_step1 groups, 1) groups.


(** ** The canvas as an editor

    The handlers of [CircuitCanvas] that change [components] and [lines],
    and [MainWindow.clear_canvas]. *)

(** The values the tool buttons pass to [set_component]: the seven
    component kinds, ['wire'] and ['delete']. ([Place other] is a string
    that is none of these; no button passes one.) *)
Inductive tool : Type :=
  | Place (comp : kind)
  | Wire
  | Delete.

#[global] Instance tool_eq_dec : EqDecision tool.
Proof. solve_decision. Defined.

(** [event.button()]: the left button, the middle button, any other. *)
Inductive button : Type := LeftButton | MiddleButton | OtherButton.

#[global] Instance button_eq_dec : EqDecision button.
Proof. solve_decision. Defined.

(** The fields of [CircuitCanvas] the handlers read and write. An entry of
    [components] carries the tool that was selected when it was placed.
    [dragging_component] is the tuple [(comp, pos, index)]. *)
Record CanvasState : Type := {
  start_point : option QPoint;
  st_lines : list (QPoint * QPoint);
  st_components : list (tool * QPoint);
  selected_component : option tool;
  dragging_component : option (tool * QPoint * nat);
  drag_offset : QPoint;
  last_pan_point : option QPoint;
  offset : QPoint;
  _hover_pin : option QPoint;
  _rubber_end : option QPoint;
  _rubber_start : option QPoint
}.

(** [CircuitCanvas.__init__]. *)
Definition canvas0 : CanvasState :=
  {| start_point := None; st_lines := []; st_components := [];
     selected_component := None; dragging_component := None;
     drag_offset := (0, 0); last_pan_point := None; offset := (0, 0);
     _hover_pin := None; _rubber_end := None; _rubber_start := None |}.

(** Assignments to one field. *)
Definition set_start_point (v : option QPoint) (st : CanvasState) : CanvasState :=
  {| start_point := v; st_lines := st_lines st; st_components := st_components st;
     selected_component := selected_component st;
     dragging_component := dragging_component st; drag_offset := drag_offset st;
     last_pan_point := last_pan_point st; offset := offset st;
     _hover_pin := _hover_pin st; _rubber_end := _rubber_end st;
     _rubber_start := _rubber_start st |}.

Definition set_lines (v : list (QPoint * QPoint)) (st : CanvasState) : CanvasState :=
  {| start_point := start_point st; st_lines := v; st_components := st_components st;
     selected_component := selected_component st;
     dragging_component := dragging_component st; drag_offset := drag_offset st;
     last_pan_point := last_pan_point st; offset := offset st;
     _hover_pin := _hover_pin st; _rubber_end := _rubber_end st;
     _rubber_start := _rubber_start st |}.

Definition set_components (v : list (tool * QPoint)) (st : CanvasState) : CanvasState :=
  {| start_point := start_point st; st_lines := st_lines st; st_components := v;
     selected_component := selected_component st;
     dragging_component := dragging_component st; drag_offset := drag_offset st;
     last_pan_point := last_pan_point st; offset := offset st;
     _hover_pin := _hover_pin st; _rubber_end := _rubber_end st;
     _rubber_start := _rubber_start st |}.

Definition set_selected (v : option tool) (st : CanvasState) : CanvasState :=
  {| start_point := start_point st; st_lines := st_lines st;
     st_components := st_components st; selected_component := v;
     dragging_component := dragging_component st; drag_offset := drag_offset st;
     last_pan_point := last_pan_point st; offset := offset st;
     _hover_pin := _hover_pin st; _rubber_end := _rubber_end st;
     _rubber_start := _rubber_start st |}.

Definition set_dragging (v : option (tool * QPoint * nat)) (st : CanvasState)
  : CanvasState :=
  {| start_point := start_point st; st_lines := st_lines st;
     st_components := st_components st; selected_component := selected_component st;
     dragging_component := v; drag_offset := drag_offset st;
     last_pan_point := last_pan_point st; offset := offset st;
     _hover_pin := _hover_pin st; _rubber_end := _rubber_end st;
     _rubber_start := _rubber_start st |}.

Definition set_drag_offset (v : QPoint) (st : CanvasState) : CanvasState :=
  {| start_point := start_point st; st_lines := st_lines st;
     st_components := st_components st; selected_component := selected_component st;
     dragging_component := dragging_component st; drag_offset := v;
     last_pan_point := last_pan_point st; offset := offset st;
     _hover_pin := _hover_pin st; _rubber_end := _rubber_end st;
     _rubber_start := _rubber_start st |}.

Definition set_last_pan_point (v : option QPoint) (st : CanvasState) : CanvasState :=
  {| start_point := start_point st; st_lines := st_lines st;
     st_components := st_components st; selected_component := selected_component st;
     dragging_component := dragging_component st; drag_offset := drag_offset st;
     last_pan_point := v; offset := offset st;
     _hover_pin := _hover_pin st; _rubber_end := _rubber_end st;
     _rubber_start := _rubber_start st |}.

Definition set_offset (v : QPoint) (st : CanvasState) : CanvasState :=
  {| start_point := start_point st; st_lines := st_lines st;
     st_components := st_components st; selected_component := selected_component st;
     dragging_component := dragging_component st; drag_offset := drag_offset st;
     last_pan_point := last_pan_point st; offset := v;
     _hover_pin := _hover_pin st; _rubber_end := _rubber_end st;
     _rubber_start := _rubber_start st |}.

Definition set_hover_pin (v : option QPoint) (st : CanvasState) : CanvasState :=
  {| start_point := start_point st; st_lines := st_lines st;
     st_components := st_components st; selected_component := selected_component st;
     dragging_component := dragging_component st; drag_offset := drag_offset st;
     last_pan_point := last_pan_point st; offset := offset st;
     _hover_pin := v; _rubber_end := _rubber_end st;
     _rubber_start := _rubber_start st |}.

Definition set_rubber_end (v : option QPoint) (st : CanvasState) : CanvasState :=
  {| start_point := start_point st; st_lines := st_lines st;
     st_components := st_components st; selected_component := selected_component st;
     dragging_component := dragging_component st; drag_offset := drag_offset st;
     last_pan_point := last_pan_point st; offset := offset st;
     _hover_pin := _hover_pin st; _rubber_end := v;
     _rubber_start := _rubber_start st |}.

Definition set_rubber_start (v : option QPoint) (st : CanvasState) : CanvasState :=
  {| start_point := start_point st; st_lines := st_lines st;
     st_components := st_components st; selected_component := selected_component st;
     dragging_component := dragging_component st; drag_offset := drag_offset st;
     last_pan_point := last_pan_point st; offset := offset st;
     _hover_pin := _hover_pin st; _rubber_end := _rubber_end st;
     _rubber_start := v |}.

(** [QPoint.__add__]. *)
Definition qadd (p q : QPoint) : QPoint := (p.1 + q.1, p.2 + q.2).

(** The truth value of a field that holds [None] or a [QPoint]. *)
Definition truthy (o : option QPoint) : bool :=
  match o with
  | Some p => negb (isNull p)
  | None => false
  end.

(** [QRect(x, y, w, h).contains(p)]: the rectangle spans [x .. x + w - 1]
    and [y .. y + h - 1]. *)
Definition QRect_contains (x y w h : Z) (p : QPoint) : bool :=
  bool_decide (x ≤ p.1 ≤ x + w - 1) && bool_decide (y ≤ p.2 ≤ y + h - 1).

(** [QPoint((x // grid) * grid, (y // grid) * grid)]. *)
Definition to_grid (p : QPoint) : QPoint :=
  ((p.1 `div` grid_size) * grid_size, (p.2 `div` grid_size) * grid_size).

(** The type string of an entry placed with tool [t]: the generator knows
    neither ['wire'] nor ['delete']. *)
Definition tag (t : tool) : kind :=
  match t with
  | Place comp => comp
  | Wire | Delete => other
  end.

(** The canvas as [find_nearest_pin] and the generator read it: the two
    lists of the editor. *)
Definition canvas_of (st : CanvasState) : CircuitCanvas :=
  {| components := prod_map tag id <$> st_components st;
     lines := st_lines st |}.

(** [list.remove(x)]: drop the first element equal to [x]. *)
Fixpoint list_remove_first {A} `{EqDecision A} (x : A) (l : list A) : list A :=
  match l with
  | [] => []
  | y :: l' => if decide (y = x) then l' else y :: list_remove_first x l'
  end.

(** The greatest index whose component has [p] inside the square of half
    side [half] around its anchor: the first hit of a loop that walks the
    list from its end. *)
Definition last_hit (half : Z) (comps : list (tool * QPoint)) (p : QPoint)
  : option (nat * (tool * QPoint)) :=
  prod_map (λ i, (length comps - 1 - i)%nat) id
    <$> list_find (λ cp, QRect_contains (cp.2.1 - half) (cp.2.2 - half)
                           (2 * half) (2 * half) p = true)
                  (reverse comps).

Section editor.

(** [self.point_to_line_distance(p, a, b) < threshold], a floating-point
    computation that is not modelled: the handlers are defined for any
    outcome of this test. *)
Context (near_line : QPoint → QPoint → QPoint → bool).

(** [CircuitCanvas.delete_at_point]. *)
Definition delete_at_point (st : CanvasState) (click_point : QPoint) : CanvasState :=
  match last_hit 50 (st_components st) click_point with
  | Some (i, _) => set_components (delete i (st_components st)) st
  | None =>
      match list_find (λ ab, near_line click_point ab.1 ab.2 = true) (st_lines st) with
      | Some (_, line) => set_lines (list_remove_first line (st_lines st)) st
      | None => st
      end
  end.

(** [CircuitCanvas.mousePressEvent]. *)
Definition mousePressEvent (st : CanvasState) (b : button) (pos : QPoint) : CanvasState :=
  let adjusted_pos := qsub pos (offset st) in
  match b with
  | MiddleButton => set_last_pan_point (Some pos) st
  | LeftButton =>
      match dragging_component st with
      | Some _ => st
      | None =>
          let st := set_start_point (Some adjusted_pos) st in
          match selected_component st with
          | Some Delete => set_start_point None (delete_at_point st adjusted_pos)
          | Some (Place _) => st
          | Some Wire =>
              set_rubber_end (Some adjusted_pos) (set_rubber_start (Some adjusted_pos) st)
          | None => st
          end
      end
  | OtherButton => st
  end.

(** [CircuitCanvas.mouseDoubleClickEvent]. *)
Definition mouseDoubleClickEvent (st : CanvasState) (pos : QPoint) : CanvasState :=
  let adjusted_pos := qsub pos (offset st) in
  match last_hit 25 (st_components st) adjusted_pos with
  | Some (original_index, (comp, p)) =>
      set_start_point None
        (set_drag_offset (qsub adjusted_pos p)
           (set_dragging (Some (comp, p, original_index)) st))
  | None => st
  end.

(** [CircuitCanvas.mouseMoveEvent]; [middle] is
    [event.buttons() & Qt.MiddleButton]. Assigning to [components[idx]]
    raises [IndexError] when the list has become shorter. *)
Definition mouseMoveEvent (st : CanvasState) (middle : bool) (pos : QPoint)
  : exn + CanvasState :=
  match dragging_component st with
  | Some (comp, old_pos, idx) =>
      let new_pos := to_grid (qsub (qsub pos (offset st)) (drag_offset st)) in
      if decide (idx < length (st_components st))%nat then
        inr (set_dragging (Some (comp, new_pos, idx))
               (set_components (<[idx := (comp, new_pos)]> (st_components st)) st))
      else inl IndexError
  | None =>
      if middle && truthy (last_pan_point st) then
        let delta := qsub pos (default (0, 0) (last_pan_point st)) in
        inr (set_last_pan_point (Some pos) (set_offset (qadd (offset st) delta) st))
      else
        let adjusted_pos := qsub pos (offset st) in
        let snap := Canvas.find_nearest_pin (canvas_of st) adjusted_pos in
        if bool_decide (selected_component st = Some Wire) && truthy (_rubber_start st) then
          if truthy snap then inr (set_hover_pin snap (set_rubber_end snap st))
          else inr (set_hover_pin None (set_rubber_end (Some adjusted_pos) st))
        else inr (set_hover_pin snap st)
  end.

(** The resets of a finished or refused wire. *)
Definition reset_wire (st : CanvasState) : CanvasState :=
  set_hover_pin None
    (set_start_point None (set_rubber_end None (set_rubber_start None st))).

(** [CircuitCanvas.mouseReleaseEvent]. *)
Definition mouseReleaseEvent (st : CanvasState) (b : button) (pos : QPoint) : CanvasState :=
  match b with
  | MiddleButton => set_last_pan_point None st
  | _ =>
      let adjusted_pos := qsub pos (offset st) in
      if bool_decide (b = LeftButton) && bool_decide (is_Some (dragging_component st)) then
        set_dragging None st
      else
        let placing :=
          match start_point st, selected_component st with
          | Some sp, Some t =>
              if negb (isNull sp) && negb (bool_decide (t = Wire)) then Some (sp, t)
              else None
          | _, _ => None
          end in
        match placing with
        | Some (sp, t) =>
            set_start_point None
              (set_components (st_components st ++ [(t, to_grid sp)]) st)
        | None =>
            if bool_decide (selected_component st = Some Wire)
               && truthy (_rubber_start st)
            then
              let start_snap :=
                Canvas.find_nearest_pin (canvas_of st)
                  (default (0, 0) (_rubber_start st)) in
              let end_snap :=
                Canvas.find_nearest_pin (canvas_of st)
                  (default adjusted_pos (_rubber_end st)) in
              match start_snap, end_snap with
              | Some a, Some e =>
                  if decide (a = e) then set_rubber_end None (set_rubber_start None st)
                  else reset_wire (set_lines (st_lines st ++ [(a, e)]) st)
              | _, _ => reset_wire st
              end
            else st
        end
  end.

(** [CircuitCanvas.set_component]. *)
Definition set_component (st : CanvasState) (comp_type : tool) : CanvasState :=
  set_selected (Some comp_type) st.

(** [MainWindow.clear_canvas]. *)
Definition clear_canvas (st : CanvasState) : CanvasState :=
  set_components [] (set_lines [] st).

(** What the user does to the canvas. *)
Inductive event : Type :=
  | MousePress (b : button) (pos : QPoint)
  | MouseDoubleClick (pos : QPoint)
  | MouseMove (middle : bool) (pos : QPoint)
  | MouseRelease (b : button) (pos : QPoint)
  | SetComponent (comp_type : tool)
  | ClearCanvas.

Definition handle (st : CanvasState) (ev : event) : exn + CanvasState :=
  match ev with
  | MousePress b pos => inr (mousePressEvent st b pos)
  | MouseDoubleClick pos => inr (mouseDoubleClickEvent st pos)
  | MouseMove middle pos => mouseMoveEvent st middle pos
  | MouseRelease b pos => inr (mouseReleaseEvent st b pos)
  | SetComponent comp_type => inr (set_component st comp_type)
  | ClearCanvas => inr (clear_canvas st)
  end.

(** A sequence of events, stopping at the first exception. *)
Fixpoint handle_all (st : CanvasState) (evs : list event) : exn + CanvasState :=
  match evs with
  | [] => inr st
  | ev :: evs' =>
      match handle st ev with
      | inl e => inl e
      | inr st' => handle_all st' evs'
      end
  end.

End editor.

(** What the handlers keep true of the two lists: every anchor is on the
    grid, no entry carries the wire tool (nor does the entry being
    dragged), no wire has equal endpoints. *)
Definition canvas_inv (st : CanvasState) : Prop :=
  Forall (λ tp, (grid_size | tp.2.1) ∧ (grid_size | tp.2.2) ∧ tp.1 ≠ Wire)
         (st_components st)
  ∧ Forall (λ ab, ab.1 ≠ ab.2) (st_lines st)
  ∧ (∀ comp p i, dragging_component st = Some (comp, p, i) → comp ≠ Wire).

(** The square the delete tool and the double click test around an
    anchor. *)
Definition hit (half : Z) (p : QPoint) (tp : tool * QPoint) : Prop :=
  QRect_contains (tp.2.1 - half) (tp.2.2 - half) (2 * half) (2 * half) p = true.

(** ** The caller: [MainWindow.run_simulation] *)

(** [text or default]. *)
Definition text_or (text default : string) : string :=
  if decide (text = "") then default else text.

(** The dict [component_values] built from the four input fields. *)
Definition component_values (R_input L_input C_input V_input : string)
  : gmap string string :=
  <["R" := text_or R_input "100"]>
    (<["L" := text_or L_input "1e-3"]>
       (<["C" := text_or C_input "1e-6"]>
          (<["V" := text_or V_input "5"]> ∅))).

(** How the netlist step of [run_simulation] ends, once the time dialog is
    accepted: the warning that there is nothing to simulate, the error box
    with the exception, or the netlist handed to the engine (writing the
    file is taken to succeed). *)
Inductive netlist_step : Type :=
  | NoComponents
  | NetlistError (e : exn)
  | Simulate (netlist_content : string).

Definition make_netlist (c : CircuitCanvas) (self : NetlistGenerator)
    (R_input L_input C_input V_input : string) : option netlist_step :=
  match (generate_netlist c (component_values R_input L_input C_input V_input) self).1 with
  | Returned netlist_content =>
      if decide (netlist_content = "") then Some NoComponents
      else Some (Simulate netlist_content)
  | Raised e => Some (NetlistError e)
  | Unfinished => None
  end.


(** *** Editor states used as examples *)

(** The delete tool selected while the position of an earlier press is
    still pending. *)
Definition pending_delete : CanvasState :=
  set_selected (Some Delete) (set_start_point (Some (45, 45)) canvas0).

(** A resistor at (100, 40), grabbed by a double click at (110, 50). *)
Definition dragged_resistor : CanvasState :=
  set_drag_offset (10, 10)
    (set_dragging (Some (Place resistor, (100, 40), 0%nat))
       (set_selected (Some (Place resistor))
          (set_components [(Place resistor, (100, 40))] canvas0))).

(** With no tool selected the user presses the left button at (45, 47),
    then picks the delete tool and releases another button. *)
Definition place_delete : list event :=
  [MousePress LeftButton (45, 47); SetComponent Delete;
   MouseRelease OtherButton (45, 47)].

(** The canvas that leaves: one entry tagged ['delete']. *)
Definition stray_delete : CircuitCanvas :=
  {| components := [(other, (40, 40))]; lines := [] |}.

(** The user picks the resistor tool and clicks at (105, 47). *)
Definition place_resistor : list event :=
  [SetComponent (Place resistor);
   MousePress LeftButton (105, 47); MouseRelease LeftButton (105, 47)].

(** * Properties *)

(** ** The pin snapper *)

Section snapper.
Context (point : QPoint).

Lemma scan_step_inv seen acc pin :
  scan_inv point seen acc →
  scan_inv point (seen ++ [pin]) (Canvas.scan_step point acc pin).
Proof.
  unfold Canvas.scan_step. fold (dist pin point).
  destruct acc as [[p d]|]; simpl.
  - intros (-> & Hin & Hlt & Hmin & i & Hi & Hfirst).
    destruct (bool_decide (dist pin point < snap_threshold)) eqn:E1; simpl;
      [apply bool_decide_eq_true in E1 | apply bool_decide_eq_false in E1];
      [destruct (bool_decide (dist pin point < dist p point)) eqn:E2;
         [apply bool_decide_eq_true in E2 | apply bool_decide_eq_false in E2] |].
    + split_and!; [done | set_solver | done | |].
      * intros q [Hq | ->%list_elem_of_singleton]%elem_of_app; [|lia].
        specialize (Hmin q Hq). lia.
      * exists (length seen). split.
        { rewrite lookup_app_r by lia. by rewrite Nat.sub_diag. }
        intros j q Hj Hq. rewrite lookup_app_l in Hq by done.
        apply list_elem_of_lookup_2 in Hq. specialize (Hmin q Hq). lia.
    + split_and!; [done | set_solver | done | |].
      * intros q [Hq | ->%list_elem_of_singleton]%elem_of_app; [auto | lia].
      * exists i. split; [by apply lookup_app_l_Some|].
        intros j q Hj Hq. apply (Hfirst j q Hj).
        apply lookup_lt_Some in Hi. rewrite lookup_app_l in Hq by lia. done.
    + split_and!; [done | set_solver | done | |].
      * intros q [Hq | ->%list_elem_of_singleton]%elem_of_app; [auto | lia].
      * exists i. split; [by apply lookup_app_l_Some|].
        intros j q Hj Hq. apply (Hfirst j q Hj).
        apply lookup_lt_Some in Hi. rewrite lookup_app_l in Hq by lia. done.
  - intros Hall.
    destruct (bool_decide (dist pin point < snap_threshold)) eqn:E1; simpl;
      [apply bool_decide_eq_true in E1 | apply bool_decide_eq_false in E1].
    + split_and!; [done | set_solver | done | |].
      * intros q [Hq | ->%list_elem_of_singleton]%elem_of_app; [|lia].
        specialize (Hall q Hq). lia.
      * exists (length seen). split.
        { rewrite lookup_app_r by lia. by rewrite Nat.sub_diag. }
        intros j q Hj Hq. rewrite lookup_app_l in Hq by done.
        apply list_elem_of_lookup_2 in Hq. specialize (Hall q Hq). lia.
    + intros q [Hq | ->%list_elem_of_singleton]%elem_of_app; [auto | lia].
Qed.

Lemma scan_inv_foldl pins seen acc :
  scan_inv point seen acc →
  scan_inv point (seen ++ pins) (Canvas.scan point acc pins).
Proof.
  revert seen acc. induction pins as [|pin pins IH]; intros seen acc H; simpl.
  - by rewrite app_nil_r.
  - rewrite cons_middle, app_assoc. apply IH. by apply scan_step_inv.
Qed.

Lemma scan_inv_candidates pins :
  scan_inv point pins (Canvas.scan point None pins).
Proof. apply (scan_inv_foldl pins []). intros q Hq. by apply elem_of_nil in Hq. Qed.
End snapper.

Lemma find_nearest_pin_spec (c : CircuitCanvas) (point : QPoint) :
  match Canvas.find_nearest_pin c point with
  | Some pin =>
      pin ∈ Canvas.candidates c
      ∧ dist pin point < snap_threshold
      ∧ ∀ q, q ∈ Canvas.candidates c → dist pin point ≤ dist q point
  | None => ∀ q, q ∈ Canvas.candidates c → snap_threshold ≤ dist q point
  end.
Proof.
  unfold Canvas.find_nearest_pin.
  pose proof (scan_inv_candidates point (Canvas.candidates c)) as H.
  destruct (Canvas.scan point None (Canvas.candidates c)) as [[pin d]|]; simpl in *.
  - destruct H as (-> & Hin & Hlt & Hmin & _). done.
  - exact H.
Qed.

(** C6. For every query point, [find_nearest_pin] returns a candidate (a
    component pin or a wire endpoint) whose Manhattan distance to the point
    is strictly below the tolerance of 50 and is minimal among all
    candidates; it returns [None] exactly when no candidate is strictly
    within the tolerance. *)
Theorem find_nearest_pin_nearest (c : CircuitCanvas) (point : QPoint) :
  snap_threshold = 50 ∧
  match Canvas.find_nearest_pin c point with
  | Some pin =>
      pin ∈ Canvas.candidates c
      ∧ dist pin point < 50
      ∧ ∀ q, q ∈ Canvas.candidates c → dist pin point ≤ dist q point
  | None => ∀ q, q ∈ Canvas.candidates c → 50 ≤ dist q point
  end.
Proof. split; [reflexivity|]. apply find_nearest_pin_spec. Qed.

(** Among several nearest candidates the one visited first is returned. *)
Lemma find_nearest_pin_first (c : CircuitCanvas) (point pin : QPoint) :
  Canvas.find_nearest_pin c point = Some pin →
  ∃ i, Canvas.candidates c !! i = Some pin
       ∧ ∀ j q, (j < i)%nat → Canvas.candidates c !! j = Some q →
                dist pin point < dist q point.
Proof.
  unfold Canvas.find_nearest_pin.
  pose proof (scan_inv_candidates point (Canvas.candidates c)) as H.
  destruct (Canvas.scan point None (Canvas.candidates c)) as [[p d]|]; simpl in *; [|done].
  intros [= ->]. destruct H as (-> & _ & _ & _ & Hfirst). exact Hfirst.
Qed.

Lemma dist_nonneg (p q : QPoint) : 0 ≤ dist p q.
Proof. unfold dist, manhattanLength. lia. Qed.

Lemma dist_zero (p q : QPoint) : dist p q = 0 ↔ p = q.
Proof.
  destruct p as [x y], q as [x' y']. unfold dist, manhattanLength, qsub; simpl. split.
  - intros H. f_equal; lia.
  - intros [= -> ->]. lia.
Qed.

(** A point that is itself a pin or a wire endpoint is its own key: the
    snap finds a candidate at distance 0. *)
Lemma canonical_key_candidate (c : CircuitCanvas) (p : QPoint) :
  p ∈ Canvas.candidates c → canonical_key c p = p.
Proof.
  intros Hp. unfold canonical_key.
  pose proof (find_nearest_pin_spec c p) as H.
  destruct (Canvas.find_nearest_pin c p) as [pin|].
  - destruct H as (_ & _ & Hmin). specialize (Hmin p Hp).
    assert (dist pin p = 0) as ->%dist_zero.
    { pose proof (dist_nonneg pin p). assert (dist p p = 0) by by apply dist_zero. lia. }
    by destruct (isNull p).
  - done.
Qed.

(** ** The node assigner *)

Lemma close_spec (k key : QPoint) :
  close k key = true ↔
  Z.abs (k.1 - key.1) < grid_size ∧ Z.abs (k.2 - key.2) < grid_size.
Proof.
  unfold close. rewrite andb_true_iff, !bool_decide_eq_true. done.
Qed.

Lemma close_refl (k : QPoint) : close k k = true.
Proof. apply close_spec. unfold grid_size. lia. Qed.

Lemma find_close_Some key d k nid :
  find_close key d = Some (k, nid) →
  ∃ i, d !! i = Some (k, nid) ∧ close k key = true
       ∧ ∀ j e, (j < i)%nat → d !! j = Some e → close e.1 key = false.
Proof.
  unfold find_close. intros H.
  destruct (list_find _ d) as [[i e]|] eqn:E; simpl in H; [|done].
  injection H as ->. apply list_find_Some in E as (Hi & Hc & Hbefore).
  exists i. split_and!; [done..|].
  intros j e Hj He. specialize (Hbefore j e He Hj). simpl in Hbefore.
  by destruct (close e.1 key).
Qed.

Lemma find_close_None key d :
  find_close key d = None ↔ ∀ e, e ∈ d → close e.1 key = false.
Proof.
  unfold find_close. split.
  - intros H e He. destruct (list_find _ d) as [[i e']|] eqn:E; simpl in H; [done|].
    apply list_find_None in E. rewrite Forall_forall in E. specialize (E e He).
    simpl in E. by destruct (close e.1 key).
  - intros H. destruct (list_find _ d) as [[i e']|] eqn:E; [|done].
    apply list_find_Some in E as (Hi%list_elem_of_lookup_2 & Hc & _).
    rewrite (H _ Hi) in Hc. done.
Qed.

Lemma dict_set_fresh {K V} `{EqDecision K} (key : K) (v : V) (d : list (K * V)) :
  key ∉ d.*1 → dict_set key v d = d ++ [(key, v)].
Proof.
  induction d as [|[k w] d IH]; simpl; [done|].
  intros Hnin. apply not_elem_of_cons in Hnin as [Hne Hnin].
  destruct (decide (k = key)); [congruence|]. by rewrite IH.
Qed.

Lemma find_close_None_fresh key d : find_close key d = None → key ∉ d.*1.
Proof.
  intros H Hin. apply list_elem_of_fmap in Hin as ([k v] & -> & Hin).
  rewrite find_close_None in H. specialize (H _ Hin). simpl in H.
  by rewrite close_refl in H.
Qed.

(** C5. For every point given to [_get_node], with [key] its canonical key
    after the pin snapper: a ground key gives node 0 at once and changes
    nothing; otherwise, when some assigned key is within [grid_size] of
    [key] on each axis separately, the id of such an entry (the first one)
    is returned and nothing changes; otherwise a creating call stores and
    returns the counter and increments it, and a lookup-only call returns
    [None]. The counter starts at 1. *)
Theorem get_node_cases (c : CircuitCanvas) (self : NetlistGenerator)
    (point : QPoint) (is_new_pin : bool) :
  let key := canonical_key c point in
  let near (k : QPoint) :=
    Z.abs (k.1 - key.1) < grid_size ∧ Z.abs (k.2 - key.2) < grid_size in
  next_node_num init = 1 ∧ next_node_num (reset self) = 1 ∧
  (key ∈ ground_keys self →
     _get_node c self point is_new_pin = (Some 0, self)) ∧
  (key ∉ ground_keys self →
     (∀ k0 nid0, (k0, nid0) ∈ nodes self → near k0 →
        ∃ i k nid, nodes self !! i = Some (k, nid) ∧ near k
          ∧ (∀ j e, (j < i)%nat → nodes self !! j = Some e → ¬ near e.1)
          ∧ _get_node c self point is_new_pin = (Some nid, self))
     ∧ ((∀ k nid, (k, nid) ∈ nodes self → ¬ near k) →
        _get_node c self point true =
          (Some (next_node_num self),
           {| nodes := nodes self ++ [(key, next_node_num self)];
              next_node_num := next_node_num self + 1;
              all_pins := all_pins self;
              ground_keys := ground_keys self |})
        ∧ _get_node c self point false = (None, self))).
Proof.
  intros key near. split_and!; [done..| |].
  - intros Hg. unfold _get_node. fold key. by rewrite bool_decide_eq_true_2.
  - intros Hg. unfold _get_node. fold key. rewrite (bool_decide_eq_false_2 _ Hg). split.
    + intros k0 nid0 Hin Hnear.
      destruct (find_close key (nodes self)) as [[k nid]|] eqn:E.
      * apply find_close_Some in E as (i & Hi & Hc & Hbefore).
        exists i, k, nid. split_and!; [done | by apply close_spec | | done].
        intros j e Hj He Hn. apply close_spec in Hn.
        by rewrite (Hbefore j e Hj He) in Hn.
      * rewrite find_close_None in E. specialize (E _ Hin). simpl in E.
        apply close_spec in Hnear. by rewrite Hnear in E.
    + intros Hnone.
      assert (find_close key (nodes self) = None) as E.
      { apply find_close_None. intros [k nid] He. simpl.
        destruct (close k key) eqn:Ec; [|done].
        apply close_spec in Ec. by destruct (Hnone k nid He). }
      rewrite E. split; [|done].
      by rewrite (dict_set_fresh _ _ _ (find_close_None_fresh _ _ E)).
Qed.

(** *** The node table during a run *)

Lemma get_node_ground_keys c self p b :
  ground_keys (_get_node c self p b).2 = ground_keys self.
Proof.
  unfold _get_node. case_bool_decide; [done|].
  destruct (find_close _ _) as [[? ?]|]; [done|]. by destruct b.
Qed.

Lemma get_node_all_pins c self p b :
  all_pins (_get_node c self p b).2 = all_pins self.
Proof.
  unfold _get_node. case_bool_decide; [done|].
  destruct (find_close _ _) as [[? ?]|]; [done|]. by destruct b.
Qed.

Lemma get_node_lookup_only c self p : (_get_node c self p false).2 = self.
Proof.
  unfold _get_node. case_bool_decide; [done|].
  by destruct (find_close _ _) as [[? ?]|].
Qed.

(** The table only grows, at its end. *)
Lemma get_node_nodes_prefix c self p b :
  nodes self `prefix_of` nodes (_get_node c self p b).2.
Proof.
  unfold _get_node. case_bool_decide; [done|].
  destruct (find_close _ _) as [[? ?]|] eqn:E; [done|]. destruct b; [|done]. simpl.
  rewrite (dict_set_fresh _ _ _ (find_close_None_fresh _ _ E)).
  by apply prefix_app_r.
Qed.

Lemma get_node_inv c self p b : nodes_inv self → nodes_inv (_get_node c self p b).2.
Proof.
  intros (Hent & Hnext & Hk & Hv). unfold _get_node.
  case_bool_decide as Hg; [done|].
  destruct (find_close _ _) as [[? ?]|] eqn:E; [done|]. destruct b; [|done].
  pose proof (find_close_None_fresh _ _ E) as Hfresh.
  unfold nodes_inv; simpl. rewrite (dict_set_fresh _ _ _ Hfresh).
  split_and!.
  - intros k nid [Hin | [= -> ->]%list_elem_of_singleton]%elem_of_app.
    + destruct (Hent k nid Hin). split; [done | lia].
    + split; [done | lia].
  - lia.
  - rewrite fmap_app. apply NoDup_app. split_and!; [done | | apply NoDup_singleton].
    intros k Hin ->%list_elem_of_singleton. done.
  - rewrite fmap_app. apply NoDup_app. split_and!; [done | | apply NoDup_singleton].
    intros v Hin ->%list_elem_of_singleton.
    apply list_elem_of_fmap in Hin as ([k v] & Hv' & Hin). simpl in Hv'. subst v.
    destruct (Hent _ _ Hin). lia.
Qed.

Lemma assign_all_snoc c self pins p :
  assign_all c self (pins ++ [p]) = (_get_node c (assign_all c self pins) p true).2.
Proof. unfold assign_all. by rewrite foldl_app. Qed.

Lemma assign_all_app c self pins pins' :
  assign_all c self (pins ++ pins') = assign_all c (assign_all c self pins) pins'.
Proof. unfold assign_all. by rewrite foldl_app. Qed.

Lemma assign_all_ground_keys c self pins :
  ground_keys (assign_all c self pins) = ground_keys self.
Proof.
  induction pins as [|p pins IH] using rev_ind; [done|].
  by rewrite assign_all_snoc, get_node_ground_keys.
Qed.

Lemma assign_all_inv c self pins : nodes_inv self → nodes_inv (assign_all c self pins).
Proof.
  intros H. induction pins as [|p pins IH] using rev_ind; [done|].
  rewrite assign_all_snoc. by apply get_node_inv.
Qed.

Lemma assign_all_nodes_prefix c self pins :
  nodes self `prefix_of` nodes (assign_all c self pins).
Proof.
  induction pins as [|p pins IH] using rev_ind; [done|].
  rewrite assign_all_snoc. etrans; [exact IH | apply get_node_nodes_prefix].
Qed.

Lemma collected_nodes c self : nodes (collected c self) = [].
Proof.
  unfold collected, _collect_all_pins. by destruct (foldl _ _ _).
Qed.

Lemma collected_next c self : next_node_num (collected c self) = 1.
Proof.
  unfold collected, _collect_all_pins. by destruct (foldl _ _ _).
Qed.

Lemma collected_inv c self : nodes_inv (collected c self).
Proof.
  unfold nodes_inv. rewrite collected_nodes, collected_next.
  split_and!; [| lia | apply NoDup_nil_2 ..].
  intros k nid Hin. by apply elem_of_nil in Hin.
Qed.

Lemma prepare_inv c self : nodes_inv (prepare c self).
Proof. apply assign_all_inv, collected_inv. Qed.

(** [_get_node] returns 0 only through the ground test. *)
Lemma get_node_zero c self p b :
  nodes_inv self → (_get_node c self p b).1 = Some 0 →
  canonical_key c p ∈ ground_keys self.
Proof.
  intros (Hent & Hnext & _) H. unfold _get_node in H.
  case_bool_decide as Hg; [done|]. exfalso.
  destruct (find_close _ _) as [[k nid]|] eqn:E; simpl in H.
  - injection H as ->. apply find_close_Some in E as (i & Hi%list_elem_of_lookup_2 & _).
    destruct (Hent _ _ Hi). lia.
  - destruct b; simpl in H; [|done]. injection H as H. lia.
Qed.

(** C10. At every moment of a generation run (after any number [n] of the
    creating calls, hence also during the lookup-only passes, which leave
    the table alone) no key of [nodes] is a ground key and every stored id
    is positive; [_get_node] returns 0 only for a ground key; so the ground
    branch of merge step 3 is never taken. *)
Theorem nodes_never_ground (c : CircuitCanvas) (self0 : NetlistGenerator) (n : nat) :
  let s := assign_all c (collected c self0) (take n (all_pins (collected c self0))) in
  let final := prepare c self0 in
  (∀ k nid, (k, nid) ∈ nodes s → (k ∉ ground_keys s) ∧ 0 < nid)
  ∧ (∀ nid, nid ∈ (nodes s).*2 → nid ≠ 0)
  ∧ (∀ p b, (_get_node c s p b).1 = Some 0 → canonical_key c p ∈ ground_keys s)
  ∧ (∀ p, (_get_node c final p false).2 = final)
  ∧ (∀ st k nid, (k, nid) ∈ nodes final →
       bool_decide (k ∈ ground_keys final) = false
       ∧ merge_step3 (ground_keys final) st (k, nid) =
           match st.1 !! nid with
           | Some _ => st
           | None => (<[nid := st.2]> st.1, st.2 + 1)
           end).
Proof.
  intros s final.
  assert (nodes_inv s) as Hs by apply assign_all_inv, collected_inv.
  assert (nodes_inv final) as Hf by apply prepare_inv.
  split_and!.
  - intros k nid Hin. destruct Hs as (Hent & _). destruct (Hent k nid Hin). split; [done | lia].
  - intros nid Hin ->. apply list_elem_of_fmap in Hin as ([k v] & Hv & Hin). simpl in Hv. subst v.
    destruct Hs as (Hent & _). destruct (Hent k 0 Hin). lia.
  - intros p b. by apply get_node_zero.
  - intros p. apply get_node_lookup_only.
  - intros st k nid Hin. destruct Hf as (Hent & _). destruct (Hent k nid Hin) as [Hg _].
    unfold merge_step3. by rewrite (bool_decide_eq_false_2 _ Hg).
Qed.

(** ** Termination of the traversal *)

Section traversal.
Context (adj : list (Z * list Z)).

Lemma pending_le_weight visited : (pending adj visited ≤ weight adj)%nat.
Proof.
  unfold pending, weight. induction adj as [|[k s] l IH]; csimpl; [done|].
  destruct (decide (k ∈ visited)); lia.
Qed.

Lemma pending_visit visited cur :
  cur ∉ visited →
  (pending adj ({[cur]} ∪ visited) + length (neighbours adj cur) ≤ pending adj visited)%nat.
Proof.
  intros Hcur. unfold pending, neighbours.
  induction adj as [|[k s] l IH]; csimpl; [done|].
  destruct (decide (k = cur)) as [->|Hne]; csimpl.
  - rewrite decide_True by set_solver. rewrite decide_False by done.
    assert (sum_list ((λ ks, if decide (ks.1 ∈ {[cur]} ∪ visited) then O else S (length ks.2)) <$> l)
            ≤ sum_list ((λ ks, if decide (ks.1 ∈ visited) then O else S (length ks.2)) <$> l))%nat; [|lia].
    clear. induction l as [|[k' s'] l IH]; csimpl; [done|].
    destruct (decide (k' ∈ visited)).
    + rewrite decide_True by set_solver. lia.
    + destruct (decide (k' ∈ {[cur]} ∪ visited)); lia.
  - destruct (decide (k ∈ visited)).
    + rewrite decide_True by set_solver. lia.
    + rewrite decide_False by set_solver. lia.
Qed.

(** With more fuel than pending work the loop runs until the stack is
    empty. *)
Lemma dfs_loop_finishes fuel stack visited g :
  (length stack + pending adj visited < fuel)%nat →
  is_Some (dfs_loop fuel adj stack visited g).
Proof.
  revert stack visited g. induction fuel as [|fuel IH]; intros stack visited g Hlt; [lia|].
  destruct stack as [|cur stack']; simpl; [by eexists|].
  destruct (decide (cur ∈ visited)) as [Hin|Hnin].
  - apply IH. simpl in Hlt. lia.
  - apply IH. simpl in Hlt. pose proof (pending_visit visited cur Hnin).
    rewrite length_app, length_reverse.
    pose proof (length_filter (λ nx, nx ∉ {[cur]} ∪ visited) (neighbours adj cur)).
    lia.
Qed.

Lemma dfs_fuel_enough n visited g :
  is_Some (dfs_loop (dfs_fuel adj) adj [n] visited g).
Proof.
  apply dfs_loop_finishes. pose proof (pending_le_weight visited).
  unfold dfs_fuel. simpl. lia.
Qed.
End traversal.

(** ** What the traversal collects *)

Lemma elem_of_concat {A} (x : A) (ls : list (list A)) :
  x ∈ concat ls ↔ ∃ l, x ∈ l ∧ l ∈ ls.
Proof.
  induction ls as [|l ls IH]; simpl.
  - split; [by intros ?%elem_of_nil | by intros (l & _ & ?%elem_of_nil)].
  - rewrite elem_of_app, IH. split.
    + intros [H | (l' & Hx & Hl')]; [exists l | exists l']; set_solver.
    + intros (l' & Hx & [->|Hl']%elem_of_cons); [by left | right; eauto].
Qed.

Section groups.
Context (adj : list (Z * list Z)).

(** One run of the [while stack:] loop: the nodes [new] appended to [g]
    are the ones it marks; each is reached from a node of the initial
    stack, and once the loop ends the neighbours of each are marked. *)
Lemma dfs_loop_spec fuel stack visited g visited' g' :
  dfs_loop fuel adj stack visited g = Some (visited', g') →
  ∃ new, g' = g ++ new
    ∧ visited' = list_to_set new ∪ visited
    ∧ NoDup new
    ∧ (∀ x, x ∈ new → x ∉ visited)
    ∧ (∀ x, x ∈ new → ∃ s, s ∈ stack ∧ connected adj s x)
    ∧ (∀ x, x ∈ stack → x ∈ visited')
    ∧ (∀ x y, x ∈ new → edge adj x y → y ∈ visited').
Proof.
  revert stack visited g.
  induction fuel as [|fuel IH]; intros stack visited g H; [done|].
  destruct stack as [|cur stack']; simpl in H.
  - injection H as <- <-. exists []. rewrite app_nil_r.
    split_and!; [done | set_solver | apply NoDup_nil_2 | set_solver..].
  - destruct (decide (cur ∈ visited)) as [Hin|Hnin].
    + apply IH in H as (new & -> & -> & Hnd & Hfresh & Hreach & Hstack & Hclosed).
      exists new. split_and!; [done.. | | | done].
      * intros x Hx. destruct (Hreach x Hx) as (s & Hs & Hc). exists s. set_solver.
      * intros x [->|Hx]%elem_of_cons; [set_solver | auto].
    + apply IH in H as (new & -> & -> & Hnd & Hfresh & Hreach & Hstack & Hclosed).
      exists (cur :: new). split_and!.
      * by rewrite <- app_assoc.
      * set_solver.
      * apply NoDup_cons. split; [|done]. intros Hc. apply Hfresh in Hc. set_solver.
      * intros x [->|Hx]%elem_of_cons; [done|]. apply Hfresh in Hx. set_solver.
      * intros x [->|Hx]%elem_of_cons.
        { exists cur. split; [set_solver | apply rtc_refl]. }
        destruct (Hreach x Hx) as (s & [Hs|Hs]%elem_of_app & Hc).
        -- exists cur. split; [set_solver|].
           apply elem_of_reverse, list_elem_of_filter in Hs as [_ Hs].
           eapply rtc_l; [exact Hs | exact Hc].
        -- exists s. split; [set_solver | done].
      * intros x [->|Hx]%elem_of_cons; [set_solver|].
        apply Hstack. set_solver.
      * intros x y [->|Hx]%elem_of_cons Hy; [|by eapply Hclosed].
        destruct (decide (y ∈ ({[cur]} ∪ visited : gset Z))) as [Hv|Hv]; [set_solver|].
        apply Hstack, elem_of_app. left. apply elem_of_reverse, list_elem_of_filter. done.
Qed.

Lemma closed_connected (S : gset Z) x y :
  (∀ a b, a ∈ S → edge adj a b → b ∈ S) → x ∈ S → connected adj x y → y ∈ S.
Proof. intros Hcl Hx Hxy. induction Hxy as [|a b d Hab _ IH]; eauto. Qed.

Context (Hgraph : wire_graph adj).

Lemma connected_sym x y : connected adj x y → connected adj y x.
Proof.
  intros H. induction H as [|a b d Hab _ IH]; [apply rtc_refl|].
  eapply rtc_r; [exact IH|]. by apply Hgraph.
Qed.

Lemma connected_key n x : n ∈ adj.*1 → connected adj n x → x ∈ adj.*1.
Proof.
  intros Hn H. induction H as [|a b d Hab _ IH]; [done|].
  apply IH. destruct Hgraph as [_ Hkeys]. by eapply Hkeys.
Qed.

Lemma groups_step_unfold vg n :
  groups_step adj (Some vg) n =
    if decide (n ∈ vg.1) then Some vg
    else dfs_loop (dfs_fuel adj) adj [n] vg.1 [] ≫= λ r, Some (r.1, vg.2 ++ [r.2]).
Proof. done. Qed.

Lemma groups_step_inv vg n :
  groups_inv adj vg → n ∈ adj.*1 →
  ∃ vg', groups_step adj (Some vg) n = Some vg'
    ∧ groups_inv adj vg' ∧ vg.1 ⊆ vg'.1 ∧ n ∈ vg'.1.
Proof.
  intros (Hdom & Hnd & Hcl & Hgr) Hn. rewrite groups_step_unfold.
  destruct vg as [visited gs]. cbn [fst snd] in *.
  destruct (decide (n ∈ visited)) as [Hin|Hnin].
  { exists (visited, gs). split_and!; [done | by unfold groups_inv | done..]. }
  destruct (dfs_fuel_enough adj n visited []) as [[v' g'] Hdfs]. rewrite Hdfs.
  eexists. split; [done|].
  apply dfs_loop_spec in Hdfs
    as (new & -> & -> & Hndnew & Hfresh & Hreach & Hstack & Hclnew).
  cbn [fst snd app] in *.
  assert (n ∈ new) as Hnnew.
  { specialize (Hstack n ltac:(set_solver)). set_solver. }
  assert (∀ x y, x ∈ (list_to_set new ∪ visited : gset Z) → edge adj x y →
                 y ∈ (list_to_set new ∪ visited : gset Z)) as Hcl'.
  { intros x y [Hx%elem_of_list_to_set|Hx]%elem_of_union Hxy.
    - by eapply Hclnew.
    - apply elem_of_union_r. by eapply Hcl. }
  split_and!; [unfold groups_inv; cbn [fst snd]; split_and!| set_solver | set_solver].
  - intros x. rewrite concat_app. simpl. rewrite app_nil_r.
    rewrite elem_of_app, elem_of_union, elem_of_list_to_set, Hdom. tauto.
  - rewrite concat_app. simpl. rewrite app_nil_r. apply NoDup_app.
    split_and!; [done | | done].
    intros x Hx%Hdom Hx'. by apply Hfresh in Hx'.
  - exact Hcl'.
  - intros g [Hg | ->%list_elem_of_singleton]%elem_of_app; [by apply Hgr|].
    exists n. split_and!; [done..|]. intros x. split.
    + intros Hx. destruct (Hreach x Hx) as (s & ->%list_elem_of_singleton & Hc). done.
    + intros Hc.
      assert (x ∈ (list_to_set new ∪ visited : gset Z)) as Hx.
      { eapply closed_connected; [exact Hcl' | | exact Hc]. set_solver. }
      apply elem_of_union in Hx as [Hx%elem_of_list_to_set|Hx]; [done|].
      exfalso. apply Hnin.
      eapply closed_connected; [exact Hcl | exact Hx | by apply connected_sym].
Qed.

Lemma groups_fold_inv keys vg :
  groups_inv adj vg → keys ⊆ adj.*1 →
  ∃ vg', foldl (groups_step adj) (Some vg) keys = Some vg'
    ∧ groups_inv adj vg' ∧ vg.1 ⊆ vg'.1 ∧ ∀ k, k ∈ keys → k ∈ vg'.1.
Proof.
  revert vg. induction keys as [|n keys IH]; intros vg Hinv Hsub.
  - exists vg. split_and!; [done.. | set_solver].
  - destruct (groups_step_inv vg n Hinv) as (vg1 & Hstep & Hinv1 & Hsub1 & Hn1);
      [set_solver|].
    destruct (IH vg1 Hinv1) as (vg' & Hfold & Hinv' & Hsub' & Hkeys); [set_solver|].
    exists vg'.
    change (foldl (groups_step adj) (Some vg) (n :: keys))
      with (foldl (groups_step adj) (groups_step adj (Some vg) n) keys).
    rewrite Hstep. split_and!; [done.. | set_solver |].
    intros k [->|Hk]%elem_of_cons; [set_solver | auto].
Qed.

(** The groups are the connected parts of the wire graph: they partition
    its nodes, and a group holds exactly what is joined by wires to any
    one of its members. *)
Lemma find_groups_spec :
  ∃ groups, find_groups adj = Some groups
    ∧ NoDup (concat groups)
    ∧ (∀ x, x ∈ concat groups ↔ x ∈ adj.*1)
    ∧ (∀ g, g ∈ groups → g ≠ [])
    ∧ (∀ g n x, g ∈ groups → n ∈ g → (x ∈ g ↔ connected adj n x)).
Proof.
  destruct (groups_fold_inv (adj.*1) (∅, [])) as ([v gs] & Hfold & Hinv & _ & Hkeys);
    [|done|].
  { split_and!; simpl; [set_solver | apply NoDup_nil_2 | set_solver | set_solver]. }
  destruct Hinv as (Hdom & Hnd & Hcl & Hgr). simpl in *.
  exists gs. unfold find_groups. rewrite Hfold. split_and!; [done..| | |].
  - intros x. split; [|by rewrite <- Hdom; auto].
    intros (g & Hx & Hg)%elem_of_concat.
    destruct (Hgr g Hg) as (n & Hn & _ & Hiff).
    eapply connected_key; [exact Hn | by apply Hiff].
  - intros g Hg ->. destruct (Hgr [] Hg) as (n & _ & Hn & _). by apply elem_of_nil in Hn.
  - intros g n x Hg Hn. destruct (Hgr g Hg) as (n0 & _ & _ & Hiff).
    rewrite Hiff. apply Hiff in Hn. split; intros H.
    + etrans; [by apply connected_sym | done].
    + etrans; done.
Qed.
End groups.

(** ** The wire graph built from the wires *)

Lemma set_add_elem b s y : y ∈ set_add b s ↔ y ∈ s ∨ y = b.
Proof.
  unfold set_add. destruct (decide (b ∈ s)).
  - split; [by left | by intros [?| ->]].
  - rewrite elem_of_app, list_elem_of_singleton. done.
Qed.

Lemma neighbours_setdefault_add a b adj x y :
  y ∈ neighbours (setdefault_add a b adj) x ↔ y ∈ neighbours adj x ∨ (x = a ∧ y = b).
Proof.
  unfold neighbours. induction adj as [|[k s] adj IH]; simpl.
  - destruct (decide (a = x)) as [->|]; simpl.
    + rewrite list_elem_of_singleton. split; [by right | by intros [?%elem_of_nil|[_ ?]]].
    + split; [by intros ?%elem_of_nil | intros [?%elem_of_nil|[? _]]; done].
  - destruct (decide (k = a)) as [->|Hka]; simpl.
    + destruct (decide (a = x)) as [->|]; simpl.
      * rewrite set_add_elem. split; [intros [?| ->]; auto | intros [?|[_ ->]]; auto].
      * split; [by left | intros [?|[? _]]; done].
    + destruct (decide (k = x)) as [->|]; simpl.
      * split; [by left | intros [?|[? _]]; done].
      * exact IH.
Qed.

Lemma keys_setdefault_add a b adj k :
  k ∈ (setdefault_add a b adj).*1 ↔ k ∈ adj.*1 ∨ k = a.
Proof.
  induction adj as [|[k' s] adj IH]; simpl.
  - rewrite list_elem_of_singleton. split; [by right | by intros [?%elem_of_nil|?]].
  - destruct (decide (k' = a)) as [->|Hka]; csimpl.
    + rewrite elem_of_cons. split; [by left | intros [?| ->]; auto].
    + rewrite !elem_of_cons, IH. tauto.
Qed.

(** [wire_adj[cur]] finds an entry for every key; the nodes pushed on the
    stack are neighbours, hence keys of a [wire_graph]. *)
Lemma adj_get_key cur adj : cur ∈ adj.*1 ↔ is_Some (adj_get cur adj).
Proof.
  induction adj as [|[k s] adj IH]; csimpl.
  - split; [by intros ?%elem_of_nil | by intros [? ?]].
  - rewrite elem_of_cons, IH. destruct (decide (k = cur)) as [->|Hne].
    + split; [by eexists | by left].
    + split; [by intros [?|?] | by right].
Qed.

Lemma edge_add a b adj x y :
  edge (add a b adj) x y ↔ edge adj x y ∨ (x = a ∧ y = b) ∨ (x = b ∧ y = a).
Proof. unfold edge, add. rewrite !neighbours_setdefault_add. tauto. Qed.

Lemma keys_add a b adj k : k ∈ (add a b adj).*1 ↔ k ∈ adj.*1 ∨ k = a ∨ k = b.
Proof. unfold add. rewrite !keys_setdefault_add. tauto. Qed.

Lemma wire_graph_add a b adj : wire_graph adj → wire_graph (add a b adj).
Proof.
  intros [Hsym Hkeys]. split.
  - intros x y. rewrite !edge_add. intros [H|[[-> ->]|[-> ->]]]; auto.
  - intros x y. rewrite edge_add, keys_add. intros [H|[[-> ->]|[-> ->]]]; eauto.
Qed.

Lemma keys_have_edges_add a b adj :
  (∀ k, k ∈ adj.*1 ↔ ∃ y, edge adj k y) →
  ∀ k, k ∈ (add a b adj).*1 ↔ ∃ y, edge (add a b adj) k y.
Proof.
  intros H k. rewrite keys_add, H. split.
  - intros [[y Hy]|[->| ->]]; [exists y | exists b | exists a]; rewrite edge_add; auto.
  - intros [y Hy]. rewrite edge_add in Hy. destruct Hy as [?|[[-> _]|[-> _]]]; eauto.
Qed.

Section wire_adj.
Context (c : CircuitCanvas) (self : NetlistGenerator).

Lemma build_wire_adj_inv wires adj :
  wire_graph adj → (∀ k, k ∈ adj.*1 ↔ ∃ y, edge adj k y) →
  let adj' := foldl (wire_step c self) adj wires in
  wire_graph adj'
  ∧ (∀ k, k ∈ adj'.*1 ↔ ∃ y, edge adj' k y)
  ∧ (∀ x y, edge adj' x y ↔
       edge adj x y
       ∨ ∃ ab, ab ∈ wires
           ∧ ((lookup_node c self ab.1 = Some x ∧ lookup_node c self ab.2 = Some y)
              ∨ (lookup_node c self ab.1 = Some y ∧ lookup_node c self ab.2 = Some x))).
Proof.
  revert adj. induction wires as [|ab wires IH]; intros adj Hg Hk; simpl.
  - split_and!; [done..|]. intros x y. split; [by left|].
    by intros [?|(ab & ?%elem_of_nil & _)].
  - assert (wire_graph (wire_step c self adj ab)
            ∧ (∀ k, k ∈ (wire_step c self adj ab).*1 ↔ ∃ y, edge (wire_step c self adj ab) k y)
            ∧ (∀ x y, edge (wire_step c self adj ab) x y ↔ edge adj x y
                 ∨ ((lookup_node c self ab.1 = Some x ∧ lookup_node c self ab.2 = Some y)
                    ∨ (lookup_node c self ab.1 = Some y ∧ lookup_node c self ab.2 = Some x))))
      as (Hg1 & Hk1 & He1).
    { unfold wire_step.
      destruct (lookup_node c self ab.1) as [n1|], (lookup_node c self ab.2) as [n2|];
        try (split_and!; [done..|]; intros x y; split; [by left|];
             intros [?|[[??]|[??]]]; done).
      split_and!; [by apply wire_graph_add | by apply keys_have_edges_add |].
      intros x y. rewrite edge_add. split.
      - intros [?|[[-> ->]|[-> ->]]]; auto.
      - intros [?|[[[= ->] [= ->]]|[[= ->] [= ->]]]]; auto. }
    destruct (IH _ Hg1 Hk1) as (Hg' & Hk' & He').
    split_and!; [done..|]. intros x y. rewrite He', He1. split.
    + intros [[?|?]|(ab' & ? & ?)]; [by left | right; exists ab; set_solver
                                     | right; exists ab'; set_solver].
    + intros [?|(ab' & [->|?]%elem_of_cons & ?)]; [by left; left | by left; right|].
      right. by exists ab'.
Qed.

Lemma build_wire_adj_graph : wire_graph (build_wire_adj c self).
Proof.
  apply (build_wire_adj_inv (lines c) []).
  - split; intros a b H; by apply elem_of_nil in H.
  - intros k. split; [by intros ?%elem_of_nil | by intros [y ?%elem_of_nil]].
Qed.

(** The edges of the graph are the wires, read through the node table. *)
Lemma build_wire_adj_edges x y :
  edge (build_wire_adj c self) x y ↔ wired c self x y.
Proof.
  destruct (build_wire_adj_inv (lines c) []) as (_ & _ & He).
  - split; intros a b H; by apply elem_of_nil in H.
  - intros k. split; [by intros ?%elem_of_nil | by intros [y' ?%elem_of_nil]].
  - unfold build_wire_adj, wired. rewrite He. split; [|by right].
    by intros [?%elem_of_nil|?].
Qed.

(** The nodes of the graph are the nodes some wire ends on. *)
Lemma build_wire_adj_keys k :
  k ∈ (build_wire_adj c self).*1 ↔ ∃ y, wired c self k y.
Proof.
  destruct (build_wire_adj_inv (lines c) []) as (_ & Hk & _).
  - split; intros a b H; by apply elem_of_nil in H.
  - intros k'. split; [by intros ?%elem_of_nil | by intros [y' ?%elem_of_nil]].
  - unfold build_wire_adj. rewrite Hk. by setoid_rewrite <- build_wire_adj_edges.
Qed.
End wire_adj.

(** ** The node merger *)

Lemma NoDup_concat_unique (l : list (list Z)) g g' n :
  NoDup (concat l) → g ∈ l → g' ∈ l → n ∈ g → n ∈ g' → g = g'.
Proof.
  induction l as [|h t IH]; simpl; [by intros _ ?%elem_of_nil|].
  intros (Hh & Hdisj & Ht)%NoDup_app [->|Hg]%elem_of_cons [->|Hg']%elem_of_cons Hn Hn'.
  - done.
  - destruct (Hdisj n Hn). apply elem_of_concat. eauto.
  - destruct (Hdisj n Hn'). apply elem_of_concat. eauto.
  - by apply IH.
Qed.

Lemma assign_group_lookup v (m : gmap Z Z) g n :
  assign_group v m g !! n = if decide (n ∈ g) then Some v else m !! n.
Proof.
  unfold assign_group. revert m. induction g as [|x g IH]; intros m; simpl.
  - done.
  - rewrite IH. destruct (decide (n ∈ g)).
    + rewrite decide_True; [done | by right].
    + destruct (decide (n = x)) as [->|Hne].
      * rewrite decide_True by left. apply lookup_insert_eq.
      * rewrite lookup_insert_ne by done. rewrite decide_False; [done|].
        by intros [?|?]%elem_of_cons.
Qed.

Lemma any_zero g : existsb (λ nid, bool_decide (nid = 0)) g = true ↔ 0 ∈ g.
Proof.
  rewrite existsb_exists. split.
  - intros (x & Hx%list_elem_of_In & ->%bool_decide_eq_true). done.
  - intros H. exists 0. split; [by apply list_elem_of_In | by apply bool_decide_eq_true].
Qed.

Lemma merge_step1_lookup m g n :
  merge_step1 m g !! n = if decide (0 ∈ g ∧ n ∈ g) then Some 0 else m !! n.
Proof.
  unfold merge_step1. destruct (existsb _ g) eqn:E.
  - apply any_zero in E. rewrite assign_group_lookup.
    destruct (decide (n ∈ g)); [by rewrite decide_True | by rewrite decide_False by tauto].
  - rewrite decide_False; [done|]. intros [H0 _]. apply any_zero in H0. congruence.
Qed.

Lemma merge_step1_fold groups m n :
  foldl merge_step1 m groups !! n =
    if decide (Exists (λ g, 0 ∈ g ∧ n ∈ g) groups) then Some 0 else m !! n.
Proof.
  revert m. induction groups as [|g groups IH]; intros m.
  - done.
  - change (foldl merge_step1 m (g :: groups))
      with (foldl merge_step1 (merge_step1 m g) groups).
    rewrite IH, merge_step1_lookup.
    destruct (decide (Exists (λ g, 0 ∈ g ∧ n ∈ g) groups)).
    + rewrite decide_True; [done | by right].
    + destruct (decide (0 ∈ g ∧ n ∈ g)).
      * rewrite decide_True; [done | by left].
      * rewrite decide_False; [done | by intros [?|?]%Exists_cons].
Qed.

Section merging.
Context (groups : list (list Z)) (Hnd : NoDup (concat groups)).

Lemma step1_ground g n :
  g ∈ groups → n ∈ g → (after_step1 groups !! n = Some 0 ↔ 0 ∈ g).
Proof.
  intros Hg Hn. unfold after_step1. rewrite merge_step1_fold.
  destruct (decide (Exists _ _)) as [He|He].
  - apply Exists_exists in He as (g' & Hg' & H0 & Hn').
    by rewrite (NoDup_concat_unique groups g g' n).
  - rewrite lookup_empty. split; [done|]. intros H0. destruct He.
    apply Exists_exists. eauto.
Qed.

Lemma step1_outside n : n ∉ concat groups → after_step1 groups !! n = None.
Proof.
  intros Hn. unfold after_step1. rewrite merge_step1_fold.
  destruct (decide (Exists _ _)) as [He|He]; [|apply lookup_empty].
  apply Exists_exists in He as (g' & Hg' & H0 & Hn').
  destruct Hn. apply elem_of_concat. eauto.
Qed.

(** The test of step 2 on a group whose members still have their step-1
    value. *)
Lemma step2_test (st : gmap Z Z * Z) g :
  g ∈ groups → (∀ n, n ∈ g → st.1 !! n = after_step1 groups !! n) →
  existsb (λ n, bool_decide (st.1 !! n = Some 0)) g = true ↔ 0 ∈ g.
Proof.
  intros Hg Hframe. rewrite existsb_exists. split.
  - intros (n & Hn%list_elem_of_In & Hv%bool_decide_eq_true).
    rewrite (Hframe n Hn) in Hv. by apply (step1_ground g n) in Hv.
  - intros H0. exists 0. split; [by apply list_elem_of_In|].
    apply bool_decide_eq_true. rewrite (Hframe 0 H0). by apply (step1_ground g 0).
Qed.

Lemma merge_step2_fold suf : ∀ pre st,
  groups = pre ++ suf →
  (∀ n, n ∈ concat suf → st.1 !! n = after_step1 groups !! n) →
  let st' := foldl merge_step2 st suf in
  st'.2 = st.2 + Z.of_nat (length (nonground suf))
  ∧ (∀ n, n ∉ concat (nonground suf) → st'.1 !! n = st.1 !! n)
  ∧ (∀ i g n, nonground suf !! i = Some g → n ∈ g →
       st'.1 !! n = Some (st.2 + Z.of_nat i)).
Proof.
  induction suf as [|g suf IH]; intros pre st Heq Hframe.
  { simpl. split_and!; [lia | done | by intros i g n ?]. }
  assert (g ∈ groups) as Hg by (rewrite Heq; set_solver).
  assert (∀ n, n ∈ g → n ∉ concat suf) as Hdisj.
  { intros n Hn Hn'. rewrite Heq, concat_app in Hnd. simpl in Hnd.
    apply NoDup_app in Hnd as (_ & _ & (_ & Hd & _)%NoDup_app). by apply (Hd n). }
  assert (∀ n, n ∉ concat suf → n ∉ concat (nonground suf)) as Hsub.
  { intros n Hn (g' & Hn' & Hg'%list_elem_of_filter)%elem_of_concat.
    apply Hn, elem_of_concat. exists g'. tauto. }
  assert (∀ n, n ∈ g → st.1 !! n = after_step1 groups !! n) as Hframe_g.
  { intros n Hn. apply Hframe. simpl. set_solver. }
  assert (∀ n, n ∈ concat suf → st.1 !! n = after_step1 groups !! n) as Hframe_suf.
  { intros n Hn. apply Hframe. simpl. set_solver. }
  pose proof (step2_test st g Hg Hframe_g) as Htest.
  change (foldl merge_step2 st (g :: suf))
    with (foldl merge_step2 (merge_step2 st g) suf).
  assert (merge_step2 st g =
            if decide (0 ∈ g) then st else (assign_group st.2 st.1 g, st.2 + 1)) as ->.
  { unfold merge_step2. destruct (existsb _ g) eqn:E.
    - rewrite decide_True; [done | by apply Htest].
    - rewrite decide_False; [done|]. intros H0%Htest. congruence. }
  unfold nonground. rewrite filter_cons. fold (nonground suf). cbv zeta.
  destruct (decide (0 ∈ g)) as [H0|H0].
  - rewrite decide_False by tauto.
    apply (IH (pre ++ [g]) st); [by rewrite <- app_assoc | done].
  - rewrite decide_True by done.
    destruct (IH (pre ++ [g]) (assign_group st.2 st.1 g, st.2 + 1)) as (Hnext & Hout & Hin).
    + by rewrite <- app_assoc.
    + intros n Hn. cbn [fst]. rewrite assign_group_lookup.
      rewrite decide_False by (intros Hn'; by apply (Hdisj n)).
      by apply Hframe_suf.
    + cbn [fst snd] in *. split_and!.
      * rewrite Hnext. cbn [length]. lia.
      * intros n Hn. simpl in Hn. rewrite Hout by set_solver.
        rewrite assign_group_lookup. rewrite decide_False; [done | set_solver].
      * intros [|i] g' n Hi Hn.
        -- injection Hi as <-. rewrite Hout by (apply Hsub, Hdisj; done).
           rewrite assign_group_lookup, decide_True by done. f_equal. lia.
        -- simpl in Hi. rewrite (Hin i g' n Hi Hn). f_equal. lia.
Qed.
End merging.

Lemma filter_ext_elem {A} (P Q : A → Prop) `{∀ x, Decision (P x)} `{∀ x, Decision (Q x)}
    (l : list A) :
  (∀ x, x ∈ l → P x ↔ Q x) → filter P l = filter Q l.
Proof.
  induction l as [|x l IH]; intros Hext; [done|].
  rewrite !filter_cons. rewrite IH by (intros y Hy; apply Hext; by right).
  destruct (decide (P x)) as [HP|HP], (decide (Q x)) as [HQ|HQ]; try done;
    apply Hext in HP || apply Hext in HQ; done || by left.
Qed.

Lemma filter_all {A} (P : A → Prop) `{∀ x, Decision (P x)} (l : list A) :
  (∀ x, x ∈ l → P x) → filter P l = l.
Proof.
  induction l as [|x l IH]; intros Hall; [done|].
  rewrite filter_cons_True by (apply Hall; by left).
  f_equal. apply IH. intros y Hy. apply Hall. by right.
Qed.

Lemma fresh_count_cons gk e l :
  fresh_count gk (e :: l) = (if decide (e.1 ∈ gk) then 0 else 1) + fresh_count gk l.
Proof.
  unfold fresh_count. rewrite filter_cons.
  destruct (decide (e.1 ∉ gk)) as [Hn|Hn].
  - rewrite decide_False by done. simpl. lia.
  - rewrite decide_True; [lia|]. by apply dec_stable.
Qed.

(** Step 3 over a list of table entries with distinct ids, from any
    [(merge, next_id)]. *)
Lemma merge_step3_fold gk entries : ∀ st : gmap Z Z * Z,
  NoDup entries.*2 →
  let iso := filter (λ e, st.1 !! e.2 = None) entries in
  let st' := foldl (merge_step3 gk) st entries in
  st'.2 = st.2 + fresh_count gk iso
  ∧ (∀ n, n ∉ iso.*2 → st'.1 !! n = st.1 !! n)
  ∧ (∀ j k nid, iso !! j = Some (k, nid) →
       st'.1 !! nid =
         Some (if decide (k ∈ gk) then 0 else st.2 + fresh_count gk (take j iso))).
Proof.
  induction entries as [|[k nid] entries IH]; intros st Hnd.
  { simpl. split_and!; [unfold fresh_count; simpl; lia | done | by intros j k nid ?]. }
  rewrite fmap_cons in Hnd. apply NoDup_cons in Hnd as [Hfresh Hnd]. simpl in Hfresh.
  change (foldl (merge_step3 gk) st ((k, nid) :: entries))
    with (foldl (merge_step3 gk) (merge_step3 gk st (k, nid)) entries).
  rewrite filter_cons. cbn [snd fst]. cbv zeta.
  unfold merge_step3 at 2 4 6. 
  destruct (st.1 !! nid) as [v|] eqn:Hv.
  - rewrite decide_False by done. by apply IH.
  - rewrite decide_True by done.
    set (v := if decide (k ∈ gk) then 0 else st.2).
    set (nx := if decide (k ∈ gk) then st.2 else st.2 + 1).
    assert ((if bool_decide (k ∈ gk) then (<[nid:=0]> st.1, st.2)
             else (<[nid:=st.2]> st.1, st.2 + 1)) = (<[nid:=v]> st.1, nx)) as ->.
    { unfold v, nx. by case_bool_decide; [rewrite !decide_True | rewrite !decide_False]. }
    destruct (IH (<[nid:=v]> st.1, nx) Hnd) as (Hnext & Hout & Hin). cbn [fst snd] in *.
    assert (filter (λ e : QPoint * Z, <[nid:=v]> st.1 !! e.2 = None) entries
            = filter (λ e : QPoint * Z, st.1 !! e.2 = None) entries) as Hfilter.
    { apply filter_ext_elem. intros [k' nid'] He. simpl.
      rewrite lookup_insert_ne; [done|]. intros ->. apply Hfresh.
      apply list_elem_of_fmap. by exists (k', nid'). }
    rewrite Hfilter in Hnext, Hout, Hin.
    set (iso := filter (λ e : QPoint * Z, st.1 !! e.2 = None) entries) in *.
    assert (nid ∉ iso.*2) as Hnid.
    { intros ([k' nid'] & Heq & [_ He]%list_elem_of_filter)%list_elem_of_fmap.
      simpl in Heq. subst nid'. apply Hfresh, list_elem_of_fmap. by exists (k', nid). }
    split_and!.
    + rewrite Hnext, fresh_count_cons. unfold nx. simpl. destruct (decide (k ∈ gk)); lia.
    + intros n Hn. rewrite fmap_cons in Hn. apply not_elem_of_cons in Hn as [Hne Hn].
      rewrite (Hout n Hn). by apply lookup_insert_ne.
    + intros [|j] k' nid' Hj.
      * injection Hj as <- <-. rewrite (Hout nid Hnid), lookup_insert_eq.
        unfold v. f_equal. destruct (decide (k ∈ gk)); [done|].
        unfold fresh_count. simpl. lia.
      * simpl in Hj. rewrite (Hin j k' nid' Hj). f_equal.
        destruct (decide (k' ∈ gk)); [done|].
        rewrite firstn_cons, fresh_count_cons. unfold nx. simpl.
        destruct (decide (k ∈ gk)); lia.
Qed.

Section merge_nodes.
Context (groups : list (list Z)) (self : NetlistGenerator).
Context (Hnd : NoDup (concat groups)) (Hids : NoDup (nodes self).*2).

Lemma nonground_member g n :
  g ∈ groups → n ∈ g → 0 ∈ g → n ∉ concat (nonground groups).
Proof.
  intros Hg Hn H0 (g' & Hn' & [H0' Hg']%list_elem_of_filter)%elem_of_concat.
  by rewrite (NoDup_concat_unique groups g g' n) in H0.
Qed.

Lemma step2_result :
  (after_step2 groups).2 = 1 + Z.of_nat (length (nonground groups))
  ∧ (∀ g n, g ∈ groups → 0 ∈ g → n ∈ g → (after_step2 groups).1 !! n = Some 0)
  ∧ (∀ i g n, nonground groups !! i = Some g → n ∈ g →
       (after_step2 groups).1 !! n = Some (1 + Z.of_nat i))
  ∧ (∀ n, (after_step2 groups).1 !! n = None ↔ n ∉ concat groups).
Proof.
  destruct (merge_step2_fold groups Hnd groups [] (after_step1 groups, 1))
    as (Hnext & Hout & Hin); [done.. |]. fold (after_step1 groups) (after_step2 groups) in Hnext, Hout, Hin. cbn [fst snd] in *.
  assert (∀ g n, g ∈ groups → 0 ∈ g → n ∈ g → (after_step2 groups).1 !! n = Some 0) as Hground.
  { intros g n Hg H0 Hn. rewrite Hout by by eapply nonground_member.
    by apply (step1_ground groups Hnd g n). }
  split_and!; [done..|].
  intros n. split.
  - intros Hnone (g & Hn & Hg)%elem_of_concat.
    destruct (decide (0 ∈ g)) as [H0|H0].
    + rewrite (Hground g n) in Hnone; done.
    + assert (g ∈ nonground groups) as (i & Hi)%list_elem_of_lookup_1
        by by apply list_elem_of_filter.
      by rewrite (Hin i g n Hi Hn) in Hnone.
  - intros Hn. rewrite Hout.
    + by apply step1_outside.
    + intros (g' & Hn' & [_ Hg']%list_elem_of_filter)%elem_of_concat.
      apply Hn, elem_of_concat. eauto.
Qed.

(** What [merge] holds at the end of the three steps. *)
Lemma merge_nodes_spec :
  let merge := merge_nodes groups self in
  let iso := isolated groups (nodes self) in
  (∀ g n, g ∈ groups → 0 ∈ g → n ∈ g → merge !! n = Some 0)
  ∧ (∀ i g n, nonground groups !! i = Some g → n ∈ g →
       merge !! n = Some (1 + Z.of_nat i))
  ∧ (∀ j k nid, iso !! j = Some (k, nid) →
       merge !! nid =
         Some (if decide (k ∈ ground_keys self) then 0
               else 1 + Z.of_nat (length (nonground groups))
                    + fresh_count (ground_keys self) (take j iso)))
  ∧ (∀ n, n ∉ concat groups → n ∉ (nodes self).*2 → merge !! n = None).
Proof.
  intros merge iso.
  destruct step2_result as (Hnext2 & Hground & Hfresh & Hdom).
  destruct (merge_step3_fold (ground_keys self) (nodes self) (after_step2 groups) Hids)
    as (_ & Hout & Hin).
  assert (filter (λ e : QPoint * Z, (after_step2 groups).1 !! e.2 = None) (nodes self) = iso) as Hiso.
  { apply filter_ext_elem. intros e _. apply Hdom. }
  rewrite Hiso in Hout, Hin.
  change (foldl (merge_step3 (ground_keys self)) (after_step2 groups) (nodes self)).1 with merge in *.
  assert (∀ n, n ∈ concat groups → n ∉ iso.*2) as Hin_groups.
  { intros n Hn ([k nid] & -> & [He _]%list_elem_of_filter)%list_elem_of_fmap. done. }
  split_and!.
  - intros g n Hg H0 Hn. rewrite Hout; [by eapply Hground|].
    apply Hin_groups, elem_of_concat. eauto.
  - intros i g n Hi Hn. rewrite Hout; [by eapply Hfresh|].
    apply Hin_groups, elem_of_concat. exists g. split; [done|].
    apply list_elem_of_lookup_2 in Hi. by apply list_elem_of_filter in Hi as [_ ?].
  - intros j k nid Hj. rewrite (Hin j k nid Hj), Hnext2. done.
  - intros n Hn Hn'. rewrite Hout; [by apply Hdom|].
    intros (e & -> & [_ He]%list_elem_of_filter)%list_elem_of_fmap.
    apply Hn', list_elem_of_fmap. eauto.
Qed.

(** Every id of the node table, and every node of a group, has an entry. *)
Lemma merge_nodes_total n :
  n ∈ concat groups ∨ n ∈ (nodes self).*2 → is_Some (merge_nodes groups self !! n).
Proof.
  destruct merge_nodes_spec as (Hground & Hfresh & Hiso & _).
  intros Hn. destruct (decide (n ∈ concat groups)) as [Hc|Hc].
  - apply elem_of_concat in Hc as (g & Hg & Hgs).
    destruct (decide (0 ∈ g)) as [H0|H0].
    + rewrite (Hground g n); [by eexists | done..].
    + assert (g ∈ nonground groups) as (i & Hi)%list_elem_of_lookup_1
        by by apply list_elem_of_filter.
      rewrite (Hfresh i g n Hi Hg). by eexists.
  - destruct Hn as [?|([k nid] & -> & He)%list_elem_of_fmap]; [done|].
    assert ((k, nid) ∈ isolated groups (nodes self)) as (j & Hj)%list_elem_of_lookup_1
      by by apply list_elem_of_filter.
    cbn [snd]. rewrite (Hiso j k nid Hj). by eexists.
Qed.
End merge_nodes.

(** ** A generation run *)

Lemma collect_fold comps pins gk :
  foldl collect_step (pins, gk) comps =
    (pins ++ flat_map (λ cp, Canvas.get_component_pins cp.1 cp.2) comps,
     list_to_set (filter (λ cp, cp.1 = ground) comps).*2 ∪ gk).
Proof.
  revert pins gk. induction comps as [|[comp pos] comps IH]; intros pins gk.
  - simpl. rewrite app_nil_r. f_equal. set_solver.
  - change (foldl collect_step (pins, gk) ((comp, pos) :: comps))
      with (foldl collect_step (collect_step (pins, gk) (comp, pos)) comps).
    rewrite filter_cons. destruct pos as [x y].
    destruct comp; simpl; rewrite IH; rewrite <- ?app_assoc; simpl; f_equal;
      rewrite ?decide_False by done; rewrite ?decide_True by done; set_solver.
Qed.

Section run.
Context (c : CircuitCanvas).

Lemma collected_all_pins self : all_pins (collected c self) = Canvas.candidates c.
Proof.
  unfold collected, _collect_all_pins. rewrite collect_fold. done.
Qed.

Lemma collected_ground_keys self p :
  p ∈ ground_keys (collected c self) ↔ p ∈ ground_anchors c.
Proof.
  unfold collected, _collect_all_pins. rewrite collect_fold. simpl.
  unfold ground_anchors. set_solver.
Qed.

(** The incoming tables are not read. *)
Lemma collected_independent self self' : collected c self = collected c self'.
Proof.
  unfold collected, _collect_all_pins. by destruct (foldl _ _ _).
Qed.

Lemma prepare_run self : prepare c self = run c.
Proof.
  unfold run, prepare. fold (collected c self) (collected c init).
  by rewrite (collected_independent self init).
Qed.

Lemma run_inv : nodes_inv (run c).
Proof. apply prepare_inv. Qed.

Lemma run_ground_keys p : p ∈ ground_keys (run c) ↔ p ∈ ground_anchors c.
Proof.
  unfold run, prepare. fold (collected c init).
  by rewrite assign_all_ground_keys, collected_ground_keys.
Qed.

Lemma ground_anchor_candidate p : p ∈ ground_anchors c → p ∈ Canvas.candidates c.
Proof.
  unfold ground_anchors, Canvas.candidates.
  intros ([comp pos] & -> & [Hk Hin]%list_elem_of_filter)%list_elem_of_fmap.
  simpl in *. subst comp. apply elem_of_app. left.
  apply list_elem_of_In, in_flat_map. exists (ground, pos).
  split; [by apply list_elem_of_In|]. destruct pos. simpl. by left.
Qed.

(** A lookup that succeeds keeps succeeding when the table grows. *)
Lemma lookup_node_mono s s' p :
  nodes s `prefix_of` nodes s' → ground_keys s = ground_keys s' →
  is_Some (lookup_node c s p) → is_Some (lookup_node c s' p).
Proof.
  intros Hpre Hgk. unfold lookup_node, _get_node. rewrite <- Hgk.
  case_bool_decide; [done|].
  destruct (find_close _ (nodes s)) as [[k nid]|] eqn:E; [|by intros [? ?]].
  intros _. apply find_close_Some in E as (i & Hi%list_elem_of_lookup_2 & Hc & _).
  destruct (find_close _ (nodes s')) as [[k' nid']|] eqn:E'; [by eexists|].
  rewrite find_close_None in E'.
  specialize (E' (k, nid) (elem_of_prefix _ _ _ Hi Hpre)). simpl in E'. congruence.
Qed.

Lemma get_node_then_lookup s p :
  is_Some (lookup_node c (_get_node c s p true).2 p).
Proof.
  pose proof (get_node_ground_keys c s p true) as Hgk.
  assert (canonical_key c p ∈ ground_keys s
          ∨ ∃ e, e ∈ nodes (_get_node c s p true).2
                 ∧ close e.1 (canonical_key c p) = true) as Hcase.
  { unfold _get_node. case_bool_decide as Hg; [by left|]. right.
    destruct (find_close _ (nodes s)) as [[k nid]|] eqn:E; simpl.
    - apply find_close_Some in E as (i & Hi%list_elem_of_lookup_2 & Hc & _).
      by exists (k, nid).
    - rewrite (dict_set_fresh _ _ _ (find_close_None_fresh _ _ E)).
      exists (canonical_key c p, next_node_num s).
      split; [set_solver | apply close_refl]. }
  unfold lookup_node. unfold _get_node at 1. rewrite Hgk.
  case_bool_decide as Hg; [by eexists|].
  destruct Hcase as [?|(e & He & Hc)]; [done|].
  destruct (find_close _ _) as [[k' nid']|] eqn:E'; [by eexists|].
  rewrite find_close_None in E'. rewrite (E' e He) in Hc. done.
Qed.

Lemma assign_all_lookup s pins p :
  p ∈ pins → is_Some (lookup_node c (assign_all c s pins) p).
Proof.
  intros (l1 & l2 & ->)%list_elem_of_split.
  rewrite assign_all_app. change (p :: l2) with ([p] ++ l2). rewrite assign_all_app.
  apply (lookup_node_mono (assign_all c (assign_all c s l1) [p]));
    [apply assign_all_nodes_prefix | by rewrite !assign_all_ground_keys |].
  apply get_node_then_lookup.
Qed.

(** Every pin and wire endpoint of the canvas has a raw node. *)
Lemma raw_node_candidate p : p ∈ Canvas.candidates c → is_Some (raw_node c p).
Proof.
  intros Hp. unfold raw_node, run, prepare. fold (collected c init).
  apply assign_all_lookup. by rewrite collected_all_pins.
Qed.

(** A raw node is 0, for a ground key, or an id of the table. *)
Lemma raw_node_value p n :
  raw_node c p = Some n →
  (n = 0 ∧ canonical_key c p ∈ ground_anchors c)
  ∨ (n ≠ 0 ∧ (canonical_key c p ∉ ground_anchors c) ∧ n ∈ (nodes (run c)).*2).
Proof.
  unfold raw_node, lookup_node, _get_node. rewrite <- run_ground_keys.
  case_bool_decide as Hg; simpl; [intros [= <-]; by left|].
  destruct (find_close _ _) as [[k nid]|] eqn:E; simpl; [|done].
  intros [= ->]. right.
  apply find_close_Some in E as (i & Hi%list_elem_of_lookup_2 & _).
  destruct run_inv as (Hent & _). destruct (Hent k n Hi).
  split_and!; [lia | done |]. apply list_elem_of_fmap. by exists (k, n).
Qed.

Lemma raw_node_ground p : p ∈ ground_anchors c → raw_node c p = Some 0.
Proof.
  intros Hp. unfold raw_node, lookup_node, _get_node.
  rewrite (canonical_key_candidate c p) by by apply ground_anchor_candidate.
  rewrite bool_decide_eq_true_2; [done | by apply run_ground_keys].
Qed.

Lemma run_adj_graph : wire_graph (run_adj c).
Proof. apply build_wire_adj_graph. Qed.

Lemma run_groups_found : find_groups (run_adj c) = Some (run_groups c).
Proof.
  unfold run_groups.
  destruct (find_groups_spec (run_adj c) run_adj_graph) as (groups & -> & _). done.
Qed.

Lemma connected_wire_connected n x :
  connected (run_adj c) n x ↔ wire_connected c n x.
Proof.
  unfold connected, wire_connected.
  split; apply rtc_subrel; intros a b; apply build_wire_adj_edges.
Qed.

Lemma run_groups_spec :
  NoDup (concat (run_groups c))
  ∧ (∀ x, x ∈ concat (run_groups c) ↔ ∃ y, wired c (run c) x y)
  ∧ (∀ g, g ∈ run_groups c → g ≠ [])
  ∧ (∀ g n x, g ∈ run_groups c → n ∈ g → (x ∈ g ↔ wire_connected c n x)).
Proof.
  destruct (find_groups_spec (run_adj c) run_adj_graph)
    as (groups & Hfind & Hnd & Hkeys & Hne & Hconn).
  rewrite run_groups_found in Hfind. injection Hfind as <-.
  split_and!; [done | | done |].
  - intros x. rewrite Hkeys. apply build_wire_adj_keys.
  - intros g n x Hg Hn. rewrite (Hconn g n x Hg Hn). apply connected_wire_connected.
Qed.
End run.

(** Whatever the generator held before, a call works on the tables of the
    run, and the traversal always finishes. *)
Lemma generate_netlist_run (c : CircuitCanvas) (values : gmap string string)
    (self : NetlistGenerator) :
  generate_netlist c values self =
    (outcome_of (serialize c (run c) (run_merge c) values (components c) counts0 []),
     run c).
Proof.
  unfold generate_netlist. rewrite prepare_run. fold (run_adj c).
  rewrite run_groups_found. fold (run_merge c).
  by destruct (serialize _ _ _ _ _ _ _).
Qed.

Lemma generate_netlist_finishes (c : CircuitCanvas) (values : gmap string string)
    (self : NetlistGenerator) :
  (generate_netlist c values self).1 ≠ Unfinished.
Proof.
  rewrite generate_netlist_run. simpl. by destruct (serialize _ _ _ _ _ _ _).
Qed.

(** The merge table of a run. The groups found are the parts of the wire
    graph joined by wires; every member of a group that holds node 0 is
    merged to 0; the groups without node 0 take, in discovery order, the ids
    1, 2, ... (one id per group, shared by its members); and every id of the
    node table that is in no group (no wire ends on it) is merged on its
    own: to 0 if its key is a ground key, else to the next id after the
    groups' ids and the earlier such nodes'. Node 0 itself is never in the
    node table ([nodes_inv]), so it has an entry only through a group. *)
Theorem merge_by_groups (c : CircuitCanvas) :
  let self := run c in
  let groups := run_groups c in
  let merge := run_merge c in
  let iso := isolated groups (nodes self) in
  (∀ values self0,
     generate_netlist c values self0 =
       (outcome_of (serialize c self merge values (components c) counts0 []), self))
  ∧ find_groups (build_wire_adj c self) = Some groups
  ∧ NoDup (concat groups)
  ∧ (∀ x, x ∈ concat groups ↔ ∃ y, wired c self x y)
  ∧ (∀ g n x, g ∈ groups → n ∈ g → (x ∈ g ↔ wire_connected c n x))
  ∧ (∀ g n, g ∈ groups → 0 ∈ g → n ∈ g → merge !! n = Some 0)
  ∧ (∀ i g n, nonground groups !! i = Some g → n ∈ g →
       merge !! n = Some (1 + Z.of_nat i))
  ∧ (∀ k nid, (k, nid) ∈ nodes self → (¬ ∃ y, wired c self nid y) →
       ∃ j, iso !! j = Some (k, nid))
  ∧ (∀ j k nid, iso !! j = Some (k, nid) →
       (¬ ∃ y, wired c self nid y)
       ∧ merge !! nid =
           Some (if decide (k ∈ ground_keys self) then 0
                 else 1 + Z.of_nat (length (nonground groups))
                      + fresh_count (ground_keys self) (take j iso))).
Proof.
  intros self groups merge iso.
  destruct (run_groups_spec c) as (Hnd & Hkeys & Hne & Hconn).
  destruct (run_inv c) as (_ & _ & _ & Hids).
  destruct (merge_nodes_spec groups self Hnd Hids) as (Hground & Hfresh & Hiso & _).
  split_and!; [| apply run_groups_found | done..| |].
  - intros values self0. apply generate_netlist_run.
  - intros k nid Hin Hnw. apply list_elem_of_lookup_1, list_elem_of_filter.
    split; [|done]. simpl. intros Hx. apply Hnw. by apply Hkeys.
  - intros j k nid Hj. split; [|by apply Hiso].
    apply list_elem_of_lookup_2, list_elem_of_filter in Hj as [Hj _].
    simpl in Hj. intros Hx. apply Hj. by apply Hkeys.
Qed.

(** In a run no key of the table is a ground key, so the isolated nodes
    simply continue the numbering. *)
Lemma merge_isolated (c : CircuitCanvas) j k nid :
  isolated (run_groups c) (nodes (run c)) !! j = Some (k, nid) →
  run_merge c !! nid = Some (1 + Z.of_nat (length (nonground (run_groups c))) + Z.of_nat j).
Proof.
  intros Hj. destruct (run_groups_spec c) as (Hnd & _).
  destruct (run_inv c) as (Hent & _ & _ & Hids).
  destruct (merge_nodes_spec (run_groups c) (run c) Hnd Hids) as (_ & _ & Hiso & _).
  fold (run_merge c) in Hiso. rewrite (Hiso j k nid Hj).
  assert (∀ e, e ∈ isolated (run_groups c) (nodes (run c)) → e.1 ∉ ground_keys (run c)) as Hng.
  { intros [k' nid'] [_ He]%list_elem_of_filter. by destruct (Hent _ _ He). }
  rewrite decide_False by (apply (Hng (k, nid)); by eapply list_elem_of_lookup_2).
  f_equal. f_equal. unfold fresh_count.
  rewrite filter_all.
  - rewrite length_take. apply lookup_lt_Some in Hj. lia.
  - intros e He. apply Hng.
    eapply elem_of_prefix; [exact He | apply prefix_take].
Qed.

(** ** The serializer *)

Lemma merge_index_resolve c self merge p :
  merge_index merge (lookup_node c self p) =
    match resolve c self merge p with
    | Some v => inr v
    | None => inl (KeyError (lookup_node c self p))
    end.
Proof. done. Qed.

Lemma electrical_pins comp pos :
  is_electrical comp = true →
  Canvas.get_component_pins comp pos = [left_pin pos; right_pin pos].
Proof. destruct pos as [x y]. by destruct comp. Qed.

Lemma counts_get_incr counts comp comp' :
  is_electrical comp = true →
  counts_get (counts_incr counts comp) comp' =
    counts_get counts comp' + (if decide (comp = comp') then 1 else 0).
Proof. destruct comp, comp'; simpl; intros; try done; lia. Qed.

Lemma count_kind_cons comp cp comps :
  count_kind comp (cp :: comps) =
    (if decide (cp.1 = comp) then 1 else 0) + count_kind comp comps.
Proof.
  unfold count_kind. rewrite filter_cons. destruct (decide (cp.1 = comp)); simpl; lia.
Qed.

Section serializer.
Context (c : CircuitCanvas) (self : NetlistGenerator) (merge : gmap Z Z)
        (values : gmap string string).

(** One round of the loop on an electrical component. *)
Lemma serialize_electrical comp pos rest counts netlist :
  is_electrical comp = true →
  serialize c self merge values ((comp, pos) :: rest) counts netlist =
    match resolve c self merge (left_pin pos) with
    | None => inl (KeyError (lookup_node c self (left_pin pos)))
    | Some n1 =>
        match resolve c self merge (right_pin pos) with
        | None => inl (KeyError (lookup_node c self (right_pin pos)))
        | Some n2 =>
            if decide (n1 = n2) then inl (ValueError comp n1)
            else serialize c self merge values rest (counts_incr counts comp)
                   (netlist ++ [format_line (prefix comp)
                                  (counts_get (counts_incr counts comp) comp)
                                  n1 n2 (value_of values comp)])
        end
    end.
Proof.
  intros He. pose proof (electrical_pins comp pos He) as Hpins.
  destruct comp; try done; simpl serialize; rewrite Hpins, !merge_index_resolve;
    destruct (resolve c self merge (left_pin pos)); try done;
    destruct (resolve c self merge (right_pin pos)); done.
Qed.

Lemma serialize_other comp pos rest counts netlist :
  is_electrical comp = false → comp ≠ other →
  serialize c self merge values ((comp, pos) :: rest) counts netlist =
    serialize c self merge values rest counts netlist.
Proof. by destruct comp. Qed.

(** An entry that is none of the seven kinds has no pins: [pins[0]]
    raises. *)
Lemma serialize_tag pos rest counts netlist :
  serialize c self merge values ((other, pos) :: rest) counts netlist = inl IndexError.
Proof. by destruct pos. Qed.

Lemma kind_cases (comp : kind) :
  is_electrical comp = true ∨ is_skipped comp = true ∨ comp = other.
Proof. destruct comp; auto. Qed.

Lemma skipped_not_electrical (comp : kind) :
  is_skipped comp = true → is_electrical comp = false ∧ comp ≠ other.
Proof. by destruct comp. Qed.

(** A returned list: the lines so far, then one line per electrical
    component, in order. *)
Lemma serialize_lines comps : ∀ counts netlist out,
  serialize c self merge values comps counts netlist = inr out →
  ∃ lines, out = netlist ++ lines
    ∧ length lines = length (electrical comps)
    ∧ ∀ i comp pos, electrical comps !! i = Some (comp, pos) →
        ∃ n1 n2, resolve c self merge (left_pin pos) = Some n1
          ∧ resolve c self merge (right_pin pos) = Some n2
          ∧ n1 ≠ n2
          ∧ lines !! i =
              Some (format_line (prefix comp)
                      (counts_get counts comp
                       + count_kind comp (take (S i) (electrical comps)))
                      n1 n2 (value_of values comp)).
Proof.
  induction comps as [|[comp pos] comps IH]; intros counts netlist out H.
  { simpl in H. injection H as <-. exists []. rewrite app_nil_r.
    split_and!; [done..|]. by intros i comp pos ?. }
  unfold electrical. rewrite filter_cons. fold (electrical comps). cbn [fst].
  destruct (is_electrical comp) eqn:He.
  - rewrite serialize_electrical in H by done.
    destruct (resolve c self merge (left_pin pos)) as [n1|] eqn:E1; [|done].
    destruct (resolve c self merge (right_pin pos)) as [n2|] eqn:E2; [|done].
    destruct (decide (n1 = n2)) as [|Hne]; [done|].
    apply IH in H as (lines & -> & Hlen & Hlines).
    rewrite decide_True by done.
    eexists (_ :: lines). split_and!.
    + by rewrite <- app_assoc.
    + simpl. by rewrite Hlen.
    + intros [|i] comp' pos' Hi.
      * injection Hi as <- <-. exists n1, n2. split_and!; [done..|].
        simpl. do 2 f_equal. rewrite counts_get_incr by done.
        rewrite decide_True by done. rewrite firstn_O.
        unfold count_kind. rewrite filter_cons. simpl.
        rewrite decide_True by done. simpl. lia.
      * simpl in Hi. destruct (Hlines i comp' pos' Hi) as (m1 & m2 & ? & ? & ? & Hl).
        exists m1, m2. split_and!; [done..|]. simpl. rewrite Hl. do 2 f_equal.
        rewrite counts_get_incr by done.
        rewrite count_kind_cons. cbn [fst]. lia.
  - destruct (decide (comp = other)) as [->|Hno]; [by rewrite serialize_tag in H|].
    rewrite serialize_other in H by done.
    rewrite decide_False by done. by apply IH.
Qed.

Lemma serialize_none comps counts netlist :
  Forall (λ cp, is_skipped cp.1 = true) comps →
  serialize c self merge values comps counts netlist = inr netlist.
Proof.
  induction 1 as [|[comp pos] comps Hs _ IH]; [done|].
  apply skipped_not_electrical in Hs as [? ?]. by rewrite serialize_other.
Qed.

(** A list that is returned for no electrical component holds only skipped
    entries. *)
Lemma serialize_all_skipped comps : ∀ counts netlist out,
  serialize c self merge values comps counts netlist = inr out →
  electrical comps = [] →
  Forall (λ cp, is_skipped cp.1 = true) comps.
Proof.
  induction comps as [|[comp pos] comps IH]; intros counts netlist out H Hel; [done|].
  unfold electrical in Hel. rewrite filter_cons in Hel. fold (electrical comps) in Hel.
  cbn [fst] in Hel.
  destruct (kind_cases comp) as [He|[Hs| ->]].
  - by rewrite decide_True in Hel.
  - constructor; [done|]. apply skipped_not_electrical in Hs as [He Hno].
    rewrite decide_False in Hel by congruence.
    rewrite serialize_other in H by done. by eapply IH.
  - by rewrite serialize_tag in H.
Qed.

(** The loop does not get past a component with equal final nodes. *)
Lemma serialize_short comps comp pos n : ∀ counts netlist,
  (comp, pos) ∈ comps → is_electrical comp = true →
  resolve c self merge (left_pin pos) = Some n →
  resolve c self merge (right_pin pos) = Some n →
  ∃ e, serialize c self merge values comps counts netlist = inl e.
Proof.
  induction comps as [|[comp' pos'] comps IH]; intros counts netlist Hin He H1 H2.
  { by apply elem_of_nil in Hin. }
  destruct (is_electrical comp') eqn:He'.
  - rewrite serialize_electrical by done.
    apply elem_of_cons in Hin as [[= <- <-]|Hin].
    + rewrite H1, H2, decide_True by done. by eexists.
    + destruct (resolve _ _ _ (left_pin pos')); [|by eexists].
      destruct (resolve _ _ _ (right_pin pos')); [|by eexists].
      destruct (decide _); [by eexists|]. by apply IH.
  - destruct (decide (comp' = other)) as [->|Hno]; [rewrite serialize_tag; by eexists|].
    rewrite serialize_other by done.
    apply elem_of_cons in Hin as [[= <- <-]|Hin]; [congruence|]. by apply IH.
Qed.

(** When the components before it pass, the error names the component
    and the node. *)
Lemma serialize_first_short pre comp pos post n : ∀ counts netlist,
  (∀ cp, cp ∈ pre → cp.1 ≠ other ∧ (is_electrical cp.1 = true →
     ∃ n1 n2, resolve c self merge (left_pin cp.2) = Some n1
       ∧ resolve c self merge (right_pin cp.2) = Some n2 ∧ n1 ≠ n2)) →
  is_electrical comp = true →
  resolve c self merge (left_pin pos) = Some n →
  resolve c self merge (right_pin pos) = Some n →
  serialize c self merge values (pre ++ (comp, pos) :: post) counts netlist
    = inl (ValueError comp n).
Proof.
  induction pre as [|[comp' pos'] pre IH]; intros counts netlist Hpre He H1 H2.
  { simpl app. rewrite serialize_electrical by done.
    by rewrite H1, H2, decide_True. }
  change (((comp', pos') :: pre) ++ (comp, pos) :: post)
    with ((comp', pos') :: (pre ++ (comp, pos) :: post)).
  assert (∀ cp, cp ∈ pre → cp.1 ≠ other ∧ (is_electrical cp.1 = true →
     ∃ n1 n2, resolve c self merge (left_pin cp.2) = Some n1
       ∧ resolve c self merge (right_pin cp.2) = Some n2 ∧ n1 ≠ n2)) as Hpre'.
  { intros cp Hcp. apply Hpre. by right. }
  destruct (Hpre (comp', pos')) as [Hno Hres]; [by left|]. cbn [fst snd] in Hno, Hres.
  destruct (is_electrical comp') eqn:He'.
  - rewrite serialize_electrical by done.
    destruct Hres as (n1 & n2 & Hn1 & Hn2 & Hne); [done|].
    rewrite Hn1, Hn2.
    rewrite decide_False by done. by apply IH.
  - rewrite serialize_other by done. by apply IH.
Qed.
End serializer.

(** ** Properties of [generate_netlist] *)

(** C7. A returned netlist is the lines joined by newlines, with exactly one
    line per resistor, battery, capacitor or inductor, in the order of the
    component list (voltmeters, ammeters and grounds give none): the line of
    a component is its prefix (R, V, C, L), its index among the components
    of its kind so far (from 1), its two final nodes and its value, which is
    the caller's entry for the prefix or else 100, 5, 1e-6, 1e-3. *)
Theorem netlist_lines (c : CircuitCanvas) (values : gmap string string)
    (self0 : NetlistGenerator) (s : string) :
  (generate_netlist c values self0).1 = Returned s →
  (prefix <$> [resistor; battery; capacitor; inductor]) = ["R"; "V"; "C"; "L"]
  ∧ (default_value <$> [resistor; battery; capacitor; inductor])
      = ["100"; "5"; "1e-6"; "1e-3"]
  ∧ electrical (components c)
      = filter (λ cp, cp.1 ∈ [resistor; battery; capacitor; inductor]) (components c)
  ∧ ∃ lines, s = String.concat "
" lines
      ∧ length lines = length (electrical (components c))
      ∧ ∀ i comp pos, electrical (components c) !! i = Some (comp, pos) →
          ∃ n1 n2, final_node c (left_pin pos) = Some n1
            ∧ final_node c (right_pin pos) = Some n2
            ∧ n1 ≠ n2
            ∧ lines !! i =
                Some (prefix comp
                      +:+ pretty (count_kind comp (take (S i) (electrical (components c))))
                      +:+ " " +:+ pretty n1 +:+ " " +:+ pretty n2 +:+ " "
                      +:+ default (default_value comp) (values !! prefix comp)).
Proof.
  rewrite generate_netlist_run. cbn [fst]. intros H.
  split_and!; [done..| |].
  { apply filter_ext_elem. intros [comp pos] _. simpl.
    destruct comp; simpl; split; try done; set_solver. }
  destruct (serialize _ _ _ _ _ _ _) as [e|out] eqn:E; [done|].
  injection H as <-.
  apply serialize_lines in E as (lines & -> & Hlen & Hlines).
  exists lines. split_and!; [done..|].
  intros i comp pos Hi. destruct (Hlines i comp pos Hi) as (n1 & n2 & ? & ? & ? & Hl).
  exists n1, n2. split_and!; [done..|]. rewrite Hl.
  assert (counts_get counts0 comp = 0) as -> by by destruct comp.
  by rewrite Z.add_0_l.
Qed.

(** C8. Calling [generate_netlist] twice on an unchanged canvas gives the
    same result, returned text or raised error: the call starts by emptying
    [nodes] and setting the counter back to 1, and nothing of the tables it
    is given reaches its result. *)
Theorem generate_netlist_repeatable (c : CircuitCanvas) (values : gmap string string)
    (self0 : NetlistGenerator) :
  let first := generate_netlist c values self0 in
  let second := generate_netlist c values first.2 in
  second = first
  ∧ nodes (reset self0) = [] ∧ next_node_num (reset self0) = 1
  ∧ (∀ self1, generate_netlist c values self1 = first)
  ∧ first.1 ≠ Unfinished.
Proof.
  cbv zeta. split_and!; [| done | done | |].
  - by rewrite !generate_netlist_run.
  - intros self1. by rewrite !generate_netlist_run.
  - apply generate_netlist_finishes.
Qed.

(** When every entry is a voltmeter, an ammeter or a ground (in particular
    with no component at all) [generate_netlist] returns the empty string
    and raises nothing. *)
Lemma skipped_only_netlist (c : CircuitCanvas) (values : gmap string string)
    (self0 : NetlistGenerator) :
  Forall (λ cp, is_skipped cp.1 = true) (components c) →
  (generate_netlist c values self0).1 = Returned "".
Proof.
  intros H. rewrite generate_netlist_run. cbn [fst].
  by rewrite serialize_none.
Qed.

Lemma empty_canvas_netlist (c : CircuitCanvas) (values : gmap string string)
    (self0 : NetlistGenerator) :
  components c = [] → (generate_netlist c values self0).1 = Returned "".
Proof. intros H. apply skipped_only_netlist. by rewrite H. Qed.

(** C9. A canvas can hold no resistor, battery, capacitor or inductor and
    still make [generate_netlist] raise instead of returning the empty
    string: the entry tagged ['delete'] that [mouseReleaseEvent] appends
    (a left press with no tool selected, the delete tool, any other button
    released) is not skipped by the serializing loop, which takes
    [pins[0]] of its empty list of pins. The empty string is returned when
    every entry is a voltmeter, an ammeter or a ground, in particular with
    no component at all. *)
Theorem stray_delete_raises :
  (∀ near_line,
     ∃ st, handle_all near_line canvas0 place_delete = inr st
       ∧ canvas_of st = stray_delete)
  ∧ electrical (components stray_delete) = []
  ∧ Canvas.get_component_pins other (40, 40) = []
  ∧ (∀ values self0,
       (generate_netlist stray_delete values self0).1 = Raised IndexError)
  ∧ (∀ c values self0,
       Forall (λ cp, is_skipped cp.1 = true) (components c) →
       (generate_netlist c values self0).1 = Returned "").
Proof.
  split_and!; [| done | done | |].
  - intros near_line. by eexists.
  - intros values self0. rewrite generate_netlist_run. cbn [fst].
    unfold stray_delete. cbn [components]. by rewrite serialize_tag.
  - apply skipped_only_netlist.
Qed.

(** ** Ground and final node 0 *)

Section ground.
Context (c : CircuitCanvas).

(** [merge] sends to 0 exactly the members of a group that holds node 0. *)
Lemma run_merge_zero n :
  run_merge c !! n = Some 0 ↔ ∃ g, g ∈ run_groups c ∧ 0 ∈ g ∧ n ∈ g.
Proof.
  destruct (run_groups_spec c) as (Hnd & _).
  destruct (run_inv c) as (_ & _ & _ & Hids).
  destruct (merge_nodes_spec (run_groups c) (run c) Hnd Hids)
    as (Hground & Hfresh & _ & Hnone).
  fold (run_merge c) in Hground, Hfresh, Hnone. split.
  - intros Hz. destruct (decide (n ∈ concat (run_groups c))) as [Hc|Hc].
    + apply elem_of_concat in Hc as (g & Hn & Hg). exists g.
      destruct (decide (0 ∈ g)) as [H0|H0]; [done|]. exfalso.
      assert (g ∈ nonground (run_groups c)) as (i & Hi)%list_elem_of_lookup_1
        by by apply list_elem_of_filter.
      rewrite (Hfresh i g n Hi Hn) in Hz. injection Hz as Hz. lia.
    + exfalso. destruct (decide (n ∈ (nodes (run c)).*2)) as [Hin|Hin].
      * apply list_elem_of_fmap in Hin as ([k nid] & -> & He).
        assert ((k, nid) ∈ isolated (run_groups c) (nodes (run c)))
          as (j & Hj)%list_elem_of_lookup_1 by by apply list_elem_of_filter.
        cbn [snd] in Hz. rewrite (merge_isolated c j k nid Hj) in Hz.
        injection Hz as Hz. lia.
      * by rewrite (Hnone n Hc Hin) in Hz.
  - intros (g & Hg & H0 & Hn). by apply (Hground g n).
Qed.

Lemma zero_in_graph : 0 ∈ concat (run_groups c) ↔ ∃ y, wired c (run c) 0 y.
Proof. destruct (run_groups_spec c) as (_ & Hkeys & _). apply Hkeys. Qed.

(** A point with final node 0 is joined by wires to node 0, the raw node
    of the ground anchors, and some wire ends on node 0. *)
Lemma final_zero_wired p :
  final_node c p = Some 0 →
  ∃ n, raw_node c p = Some n ∧ wire_connected c 0 n ∧ ∃ y, wired c (run c) 0 y.
Proof.
  unfold final_node. destruct (raw_node c p) as [n|]; [|done]. simpl.
  intros (g & Hg & H0 & Hn)%run_merge_zero. exists n. split_and!; [done| |].
  - destruct (run_groups_spec c) as (_ & _ & _ & Hconn). by apply (Hconn g 0 n).
  - apply zero_in_graph, elem_of_concat. by exists g.
Qed.

(** Conversely, whatever is joined by wires to node 0 gets final node 0. *)
Lemma wired_to_zero_final p n :
  raw_node c p = Some n → wire_connected c 0 n → (∃ y, wired c (run c) 0 y) →
  final_node c p = Some 0.
Proof.
  intros Hraw Hconn (g & H0 & Hg)%zero_in_graph%elem_of_concat.
  unfold final_node. rewrite Hraw. simpl.
  apply run_merge_zero. exists g. split_and!; [done..|].
  destruct (run_groups_spec c) as (_ & _ & _ & Hc). by apply (Hc g 0 n).
Qed.

(** A ground pin has raw node 0; it has final node 0 when a wire ends on
    a ground anchor, and no final node at all otherwise. *)
Lemma ground_final p :
  p ∈ ground_anchors c →
  raw_node c p = Some 0
  ∧ final_node c p = if decide (0 ∈ concat (run_groups c)) then Some 0 else None.
Proof.
  intros Hp. pose proof (raw_node_ground c p Hp) as Hraw. split; [done|].
  unfold final_node. rewrite Hraw. simpl.
  destruct (decide _) as [(g & H0 & Hg)%elem_of_concat|Hno].
  - apply run_merge_zero. by exists g.
  - destruct (run_groups_spec c) as (Hnd & _).
    destruct (run_inv c) as (Hent & _ & _ & Hids).
    destruct (merge_nodes_spec (run_groups c) (run c) Hnd Hids) as (_ & _ & _ & Hnone).
    apply Hnone; [done|].
    intros ([k nid] & Hz & He)%list_elem_of_fmap. simpl in Hz. subst nid.
    destruct (Hent k 0 He). lia.
Qed.

(** The only pins and wire endpoints without a final node are the ground
    anchors of a canvas where no wire ends on a ground anchor. *)
Lemma final_node_candidate p :
  p ∈ Canvas.candidates c →
  is_Some (final_node c p)
  ∨ (p ∈ ground_anchors c ∧ raw_node c p = Some 0 ∧ ¬ ∃ y, wired c (run c) 0 y).
Proof.
  intros Hp. destruct (raw_node_candidate c p Hp) as [n Hraw].
  destruct (raw_node_value c p n Hraw) as [[-> Hk]|(_ & _ & Hin)].
  - rewrite (canonical_key_candidate c p Hp) in Hk.
    destruct (ground_final p Hk) as [_ Hfin].
    destruct (decide _) as [Hz|Hz]; [left; by rewrite Hfin|].
    right. split_and!; [done..|]. by rewrite <- zero_in_graph.
  - left. unfold final_node. rewrite Hraw. simpl.
    destruct (run_groups_spec c) as (Hnd & _).
    destruct (run_inv c) as (_ & _ & _ & Hids).
    apply merge_nodes_total; auto.
Qed.

Lemma electrical_pins_candidates comp pos :
  (comp, pos) ∈ components c → is_electrical comp = true →
  left_pin pos ∈ Canvas.candidates c ∧ right_pin pos ∈ Canvas.candidates c.
Proof.
  intros Hin He. unfold Canvas.candidates.
  split; apply elem_of_app; left; apply list_elem_of_In, in_flat_map;
    exists (comp, pos); (split; [by apply list_elem_of_In|]);
    cbn [fst snd]; rewrite (electrical_pins comp pos He); simpl; auto.
Qed.

(** With the components on the grid, no pin of an electrical component
    is on a ground anchor, and every such pin has a final node. *)
Lemma on_grid_final comp pos :
  on_grid c → (comp, pos) ∈ components c → is_electrical comp = true →
  is_Some (final_node c (left_pin pos)) ∧ is_Some (final_node c (right_pin pos)).
Proof.
  intros Hgrid Hin He.
  destruct (electrical_pins_candidates comp pos Hin He) as [Hl Hr].
  assert (∀ p, p ∈ ground_anchors c → (grid_size | p.1)) as Hg.
  { intros p ([comp' pos'] & -> & [_ Hc]%list_elem_of_filter)%list_elem_of_fmap.
    by apply (Hgrid comp' pos'). }
  pose proof (Hgrid comp pos Hin) as [k Hk].
  split.
  - destruct (final_node_candidate _ Hl) as [?|(Ha%Hg & _)]; [done|].
    destruct Ha as [k' Hk']. unfold left_pin, grid_size in *. simpl in *. lia.
  - destruct (final_node_candidate _ Hr) as [?|(Ha%Hg & _)]; [done|].
    destruct Ha as [k' Hk']. unfold right_pin, grid_size in *. simpl in *. lia.
Qed.
End ground.

(** When every electrical component has final nodes for both pins, the
    loop can raise only the short-circuit error or, on an entry that is
    none of the seven kinds, the [IndexError] of its missing pins. *)
Lemma serialize_only_short c self merge values comps : ∀ counts netlist e,
  (∀ comp pos, (comp, pos) ∈ comps → is_electrical comp = true →
     is_Some (resolve c self merge (left_pin pos))
     ∧ is_Some (resolve c self merge (right_pin pos))) →
  serialize c self merge values comps counts netlist = inl e →
  (∃ comp pos n, (comp, pos) ∈ comps ∧ e = ValueError comp n
    ∧ resolve c self merge (left_pin pos) = Some n
    ∧ resolve c self merge (right_pin pos) = Some n)
  ∨ (e = IndexError ∧ ∃ pos, (other, pos) ∈ comps).
Proof.
  induction comps as [|[comp pos] comps IH]; intros counts netlist e Hall H; [done|].
  assert (∀ comp' pos', (comp', pos') ∈ comps → is_electrical comp' = true →
     is_Some (resolve c self merge (left_pin pos'))
     ∧ is_Some (resolve c self merge (right_pin pos'))) as Hall'.
  { intros comp' pos' Hin. apply Hall. by right. }
  destruct (is_electrical comp) eqn:He.
  - rewrite serialize_electrical in H by done.
    destruct (Hall comp pos) as [[n1 H1] [n2 H2]]; [by left | done |].
    rewrite H1, H2 in H. destruct (decide (n1 = n2)) as [->|Hne].
    + injection H as <-. left. exists comp, pos, n2. split_and!; [by left | done..].
    + apply IH in H as [(comp' & pos' & n & ? & ? & ? & ?)|(? & pos' & ?)]; [| |done].
      * left. exists comp', pos', n. split_and!; [by right | done..].
      * right. split; [done|]. exists pos'. by right.
  - destruct (decide (comp = other)) as [->|Hno].
    { rewrite serialize_tag in H. injection H as <-. right. split; [done|].
      exists pos. by left. }
    rewrite serialize_other in H by done.
    apply IH in H as [(comp' & pos' & n & ? & ? & ? & ?)|(? & pos' & ?)]; [| |done].
    + left. exists comp', pos', n. split_and!; [by right | done..].
    + right. split; [done|]. exists pos'. by right.
Qed.

Lemma seven_kinds_no_other (comps : list (kind * QPoint)) (pos : QPoint) :
  seven_kinds comps → (other, pos) ∉ comps.
Proof.
  intros H Hin. unfold seven_kinds in H. rewrite Forall_forall in H.
  by apply (H _ Hin).
Qed.

(** On a canvas whose components are on the grid, a call returns a netlist,
    raises the short-circuit error of a component with equal final nodes,
    or raises [IndexError] on an entry that is none of the seven kinds; it
    never fails on a lookup in [merge]. *)
Lemma on_grid_outcomes (c : CircuitCanvas) (values : gmap string string)
    (self0 : NetlistGenerator) :
  on_grid c →
  (∃ s, (generate_netlist c values self0).1 = Returned s)
  ∨ (∃ comp pos n, (comp, pos) ∈ components c
      ∧ (generate_netlist c values self0).1 = Raised (ValueError comp n)
      ∧ final_node c (left_pin pos) = Some n
      ∧ final_node c (right_pin pos) = Some n)
  ∨ ((generate_netlist c values self0).1 = Raised IndexError
     ∧ ∃ pos, (other, pos) ∈ components c).
Proof.
  intros Hgrid. rewrite generate_netlist_run. cbn [fst].
  destruct (serialize _ _ _ _ _ _ _) as [e|out] eqn:E; [right | left; by eexists].
  apply serialize_only_short in E as [(comp & pos & n & Hin & -> & H1 & H2)|[-> ?]].
  - left. by exists comp, pos, n.
  - by right.
  - intros comp pos Hin He. by apply (on_grid_final c comp pos).
Qed.

(** With the seven kinds only, what is raised on the grid is the
    short-circuit error. *)
Lemma on_grid_outcome (c : CircuitCanvas) (values : gmap string string)
    (self0 : NetlistGenerator) :
  on_grid c → seven_kinds (components c) →
  (∃ s, (generate_netlist c values self0).1 = Returned s)
  ∨ ∃ comp pos n, (comp, pos) ∈ components c
      ∧ (generate_netlist c values self0).1 = Raised (ValueError comp n)
      ∧ final_node c (left_pin pos) = Some n
      ∧ final_node c (right_pin pos) = Some n.
Proof.
  intros Hgrid Hseven.
  destruct (on_grid_outcomes c values self0 Hgrid) as [?|[?|[_ [pos Hin]]]]; [by left | by right |].
  by apply seven_kinds_no_other in Hin.
Qed.

(** C3. When an electrical component (resistor, battery, capacitor,
    inductor) has both pins resolved through [merge] to the same final node
    [n], the call raises and returns no netlist, partial or not; when the
    loop reaches that component (the components before it pass) what it
    raises is the short-circuit [ValueError] carrying that component and
    [n]; and with the components on the grid and of the seven kinds what it
    raises is always the short-circuit error of a component with equal
    final nodes. *)
Theorem short_circuit_raises (c : CircuitCanvas) (values : gmap string string)
    (self0 : NetlistGenerator) (pre post : list (kind * QPoint))
    (comp : kind) (pos : QPoint) (n : Z) :
  components c = pre ++ (comp, pos) :: post →
  is_electrical comp = true →
  final_node c (left_pin pos) = Some n →
  final_node c (right_pin pos) = Some n →
  (∃ e, (generate_netlist c values self0).1 = Raised e)
  ∧ ((∀ cp, cp ∈ pre → passes c cp) →
     (generate_netlist c values self0).1 = Raised (ValueError comp n))
  ∧ (on_grid c → seven_kinds (components c) →
     ∃ comp' pos' n', (comp', pos') ∈ components c
       ∧ (generate_netlist c values self0).1 = Raised (ValueError comp' n')
       ∧ final_node c (left_pin pos') = Some n'
       ∧ final_node c (right_pin pos') = Some n').
Proof.
  intros Hcomps He H1 H2.
  assert (∃ e, (generate_netlist c values self0).1 = Raised e) as Hraise.
  { rewrite generate_netlist_run. cbn [fst].
    destruct (serialize_short c (run c) (run_merge c) values (components c) comp pos n
                counts0 []) as [e ->]; [|done..|by exists e].
    rewrite Hcomps. set_solver. }
  split_and!; [done | |].
  - intros Hpre. rewrite generate_netlist_run. cbn [fst]. rewrite Hcomps.
    rewrite (serialize_first_short c (run c) (run_merge c) values pre comp pos post n);
      [done | | done..].
    intros cp Hcp. by apply (Hpre cp Hcp).
  - intros Hgrid Hseven. destruct Hraise as [e Hraise].
    destruct (on_grid_outcome c values self0 Hgrid Hseven) as [[s Hs]|H];
      [congruence | done].
Qed.


(** An entry tagged ['delete'] ahead of the shorted resistor is what the
    loop fails on first. *)
Example stray_delete_before_short :
  (generate_netlist
     {| components := (other, (40, 40)) :: components shorted_resistor;
        lines := lines shorted_resistor |} ∅ init).1
  = Raised IndexError.
Proof. vm_compute. reflexivity. Qed.

(** ** The unwired ground *)

(** C1. On the canvas with one ground and no wire the ground pin gets raw
    node 0, but [merge] ends up empty, so the pin has no final node: it does
    not resolve to 0. (What does hold on every canvas is [ground_final],
    [final_zero_wired] and [wired_to_zero_final].) *)
Theorem ground_pin_without_final_node :
  (100, 100) ∈ ground_anchors lone_ground
  ∧ on_grid lone_ground
  ∧ raw_node lone_ground (100, 100) = Some 0
  ∧ run_merge lone_ground = ∅
  ∧ final_node lone_ground (100, 100) = None
  ∧ final_node ground_under_pin (100, 100) = None.
Proof.
  split_and!; [| | vm_compute; reflexivity..].
  - assert (ground_anchors lone_ground = [(100, 100)]) as -> by reflexivity.
    by left.
  - intros comp pos Hin. unfold lone_ground in Hin. simpl in Hin.
    apply elem_of_cons in Hin as [[= -> ->]|Hin%elem_of_nil]; [|done].
    exists 5. reflexivity.
Qed.

(** C4. The node merger gives no final id to the raw node of an isolated
    ground anchor: on the canvas with one ground and no wire, raw node 0 is
    the ground pin's node and is absent from the wire graph, and step 3,
    which only walks the node table, leaves [merge] without an entry for it
    instead of mapping it to 0. (What the three steps do assign is
    [merge_by_groups].) *)
Theorem isolated_ground_unmerged :
  (100, 100) ∈ ground_anchors lone_ground
  ∧ (_get_node lone_ground (collected lone_ground init) (100, 100) true).1 = Some 0
  ∧ run_adj lone_ground = []
  ∧ run_groups lone_ground = []
  ∧ nodes (run lone_ground) = []
  ∧ run_merge lone_ground !! 0 = None.
Proof.
  split_and!; [|vm_compute; reflexivity..].
  assert (ground_anchors lone_ground = [(100, 100)]) as -> by reflexivity. by left.
Qed.

(** C2. The merge table is not total over the raw nodes of a run: with an
    unwired ground the assigner returns 0 for the ground pin and [merge]
    has no entry for 0; when a resistor pin lies on that ground anchor the
    serializer's [merge[...]] raises [KeyError] for 0. *)
Theorem merge_misses_unwired_ground :
  (lookup_node lone_ground (run lone_ground) (100, 100) = Some 0
   ∧ run_merge lone_ground !! 0 = None)
  ∧ (lookup_node ground_under_pin (run ground_under_pin) (left_pin (130, 100)) = Some 0
     ∧ run_merge ground_under_pin !! 0 = None
     ∧ (generate_netlist ground_under_pin ∅ init).1 = Raised (KeyError (Some 0))).
Proof. split_and!; vm_compute; reflexivity. Qed.

(** ** Instances *)

Lemma short_circuit_raises_witness :
  components shorted_resistor = [] ++ (resistor, (100, 100)) :: []
  ∧ final_node shorted_resistor (left_pin (100, 100)) = Some 1
  ∧ final_node shorted_resistor (right_pin (100, 100)) = Some 1
  ∧ (∃ e, (generate_netlist shorted_resistor ∅ init).1 = Raised e)
  ∧ ((∀ cp, cp ∈ [] → passes shorted_resistor cp) →
     (generate_netlist shorted_resistor ∅ init).1 = Raised (ValueError resistor 1))
  ∧ (on_grid shorted_resistor → seven_kinds (components shorted_resistor) →
     ∃ comp' pos' n', (comp', pos') ∈ components shorted_resistor
       ∧ (generate_netlist shorted_resistor ∅ init).1 = Raised (ValueError comp' n')
       ∧ final_node shorted_resistor (left_pin pos') = Some n'
       ∧ final_node shorted_resistor (right_pin pos') = Some n').
Proof.
  split; [reflexivity|]. split; [vm_compute; reflexivity|].
  split; [vm_compute; reflexivity|].
  apply (short_circuit_raises shorted_resistor ∅ init [] [] resistor (100, 100) 1);
    [reflexivity | reflexivity | vm_compute; reflexivity | vm_compute; reflexivity].
Defined.

Lemma netlist_lines_witness :
  (generate_netlist battery_loop ∅ init).1 = Returned "V1 0 1 5
R1 1 0 100"
  ∧ ∃ lines, "V1 0 1 5
R1 1 0 100" = String.concat "
" lines
      ∧ length lines = length (electrical (components battery_loop))
      ∧ ∀ i comp pos, electrical (components battery_loop) !! i = Some (comp, pos) →
          ∃ n1 n2, final_node battery_loop (left_pin pos) = Some n1
            ∧ final_node battery_loop (right_pin pos) = Some n2
            ∧ n1 ≠ n2
            ∧ lines !! i =
                Some (prefix comp
                      +:+ pretty (count_kind comp
                                    (take (S i) (electrical (components battery_loop))))
                      +:+ " " +:+ pretty n1 +:+ " " +:+ pretty n2 +:+ " "
                      +:+ default (default_value comp) ((∅ : gmap string string) !! prefix comp)).
Proof.
  split; [vm_compute; reflexivity|].
  apply (netlist_lines battery_loop ∅ init). vm_compute. reflexivity.
Defined.

Example meters_only_netlist :
  electrical (components meters_only) = []
  ∧ (generate_netlist meters_only ∅ init).1 = Returned "".
Proof.
  split; [reflexivity|]. apply (skipped_only_netlist meters_only ∅ init).
  by repeat constructor.
Qed.

(** The closeness test is per axis: (19, 19) is further than [grid_size]
    from (0, 0) in the plane, and still takes its node. *)
Example get_node_per_axis :
  let self := {| nodes := [((0, 0), 1)]; next_node_num := 2;
                 all_pins := []; ground_keys := ∅ |} in
  _get_node {| components := []; lines := [] |} self (19, 19) true = (Some 1, self)
  ∧ grid_size * grid_size < 19 * 19 + 19 * 19.
Proof. split; [vm_compute; reflexivity | reflexivity]. Qed.

(** The groups and the merge table of [battery_loop]. *)
Example battery_loop_tables :
  nodes (run battery_loop)
    = [((-30, 0), 1); ((30, 0), 2); ((70, 0), 3); ((130, 0), 4); ((50, 0), 5)]
  ∧ run_adj battery_loop
    = [(1, [0]); (0, [1; 4]); (2, [5]); (5, [2; 3]); (3, [5]); (4, [0])]
  ∧ run_groups battery_loop = [[1; 0; 4]; [2; 5; 3]]
  ∧ (run_merge battery_loop !!.) <$> [0; 1; 2; 3; 4; 5; 6]
    = [Some 0; Some 0; Some 1; Some 1; Some 0; Some 1; None].
Proof. split_and!; vm_compute; reflexivity. Qed.

(** * Further properties of the generator *)

(** ** Snapping *)

(** X1. A point that is itself a component pin or a wire endpoint snaps to
    itself: [find_nearest_pin] returns that very point. *)
Theorem snap_fixes_candidates (c : CircuitCanvas) (p : QPoint) :
  p ∈ Canvas.candidates c → Canvas.find_nearest_pin c p = Some p.
Proof.
  intros Hp. pose proof (find_nearest_pin_spec c p) as H.
  assert (dist p p = 0) as Hpp by by apply dist_zero.
  destruct (Canvas.find_nearest_pin c p) as [pin|].
  - destruct H as (_ & _ & Hmin). specialize (Hmin p Hp).
    pose proof (dist_nonneg pin p). f_equal. apply dist_zero. lia.
  - specialize (H p Hp). unfold snap_threshold in H. lia.
Qed.

Lemma snap_fixes_candidates_witness :
  (50, 0) ∈ Canvas.candidates battery_loop
  ∧ Canvas.find_nearest_pin battery_loop (50, 0) = Some (50, 0).
Proof.
  assert ((50, 0) ∈ Canvas.candidates battery_loop) as H.
  { assert (Canvas.candidates battery_loop !! 9%nat = Some (50, 0)) as H by reflexivity.
    by apply list_elem_of_lookup_2 in H. }
  split; [exact H|]. exact (snap_fixes_candidates battery_loop (50, 0) H).
Defined.

(** X2. Between candidates at the same distance the one visited first wins:
    the returned pin is strictly nearer than every candidate visited before
    it (component pins in list order, then wire endpoints). *)
Theorem nearest_pin_first_wins (c : CircuitCanvas) (point pin : QPoint) :
  Canvas.find_nearest_pin c point = Some pin →
  ∃ i, Canvas.candidates c !! i = Some pin
       ∧ ∀ j q, (j < i)%nat → Canvas.candidates c !! j = Some q →
                dist pin point < dist q point.
Proof. apply find_nearest_pin_first. Qed.

Lemma nearest_pin_first_wins_witness :
  let c := {| components := [(resistor, (30, 0))]; lines := [] |} in
  Canvas.find_nearest_pin c (30, 0) = Some (0, 0)
  ∧ dist (0, 0) (30, 0) = dist (60, 0) (30, 0)
  ∧ ∃ i, Canvas.candidates c !! i = Some (0, 0)
       ∧ ∀ j q, (j < i)%nat → Canvas.candidates c !! j = Some q →
                dist (0, 0) (30, 0) < dist q (30, 0).
Proof.
  cbv zeta. split; [reflexivity|]. split; [reflexivity|].
  apply (nearest_pin_first_wins {| components := [(resistor, (30, 0))]; lines := [] |}
           (30, 0) (0, 0)).
  reflexivity.
Defined.

(** ** Raw nodes *)

Lemma get_node_sequential c s p b :
  (∀ i k nid, nodes s !! i = Some (k, nid) → nid = 1 + Z.of_nat i) →
  next_node_num s = 1 + Z.of_nat (length (nodes s)) →
  (∀ i k nid, nodes (_get_node c s p b).2 !! i = Some (k, nid) → nid = 1 + Z.of_nat i)
  ∧ next_node_num (_get_node c s p b).2 = 1 + Z.of_nat (length (nodes (_get_node c s p b).2)).
Proof.
  intros Hids Hnext. unfold _get_node. case_bool_decide; [done|].
  destruct (find_close _ _) as [[? ?]|] eqn:E; [done|]. destruct b; [|done]. simpl.
  rewrite (dict_set_fresh _ _ _ (find_close_None_fresh _ _ E)). split.
  - intros i k nid Hi. apply lookup_app_Some in Hi as [Hi|[Hlen Hi]]; [by eapply Hids|].
    apply list_lookup_singleton_Some in Hi as [Hi [= <- <-]]. lia.
  - rewrite length_app. simpl. lia.
Qed.

Lemma assign_all_sequential c s pins :
  (∀ i k nid, nodes s !! i = Some (k, nid) → nid = 1 + Z.of_nat i) →
  next_node_num s = 1 + Z.of_nat (length (nodes s)) →
  (∀ i k nid, nodes (assign_all c s pins) !! i = Some (k, nid) → nid = 1 + Z.of_nat i)
  ∧ next_node_num (assign_all c s pins) = 1 + Z.of_nat (length (nodes (assign_all c s pins))).
Proof.
  intros Hids Hnext. induction pins as [|p pins IH] using rev_ind; [done|].
  rewrite assign_all_snoc. destruct IH. by apply get_node_sequential.
Qed.

(** X3. The raw node ids of a run are handed out in sequence: the entry
    stored at position [i] of [nodes] (counting from 0, in insertion order)
    has id [i + 1], and the counter ends one past the number of entries. *)
Theorem raw_ids_sequential (c : CircuitCanvas) (self0 : NetlistGenerator) :
  let self := (generate_netlist c ∅ self0).2 in
  Forall (λ ie, ie.2.2 = 1 + Z.of_nat ie.1) (imap pair (nodes self))
  ∧ next_node_num self = 1 + Z.of_nat (length (nodes self)).
Proof.
  cbv zeta. rewrite generate_netlist_run. cbn [snd].
  destruct (assign_all_sequential c (collected c init) (all_pins (collected c init)))
    as [Hids Hnext].
  - rewrite collected_nodes. by intros i k nid ?.
  - by rewrite collected_next, collected_nodes.
  - split; [|exact Hnext]. apply Forall_forall. intros [i [k nid]] Hin.
    apply list_elem_of_lookup_1 in Hin as [j Hj].
    rewrite list_lookup_imap in Hj.
    destruct (nodes (run c) !! j) as [[k' nid']|] eqn:E; [|done].
    simpl in Hj. injection Hj as <- <- <-. simpl. by eapply Hids.
Qed.

(** X4. No wire is skipped when the wire graph is built: both endpoints of
    every wire have a raw node (the lookups never return [None]) and the
    two nodes are neighbours of each other in [wire_adj]. *)
Theorem every_wire_is_an_edge (c : CircuitCanvas) :
  Forall (λ ab, ∃ n1 n2, lookup_node c (run c) ab.1 = Some n1
                  ∧ lookup_node c (run c) ab.2 = Some n2
                  ∧ n2 ∈ neighbours (run_adj c) n1
                  ∧ n1 ∈ neighbours (run_adj c) n2)
         (lines c).
Proof.
  apply Forall_forall. intros [a b] Hab.
  assert (a ∈ Canvas.candidates c ∧ b ∈ Canvas.candidates c) as [Ha Hb].
  { unfold Canvas.candidates. split; apply elem_of_app; right;
      apply list_elem_of_In, in_flat_map; exists (a, b);
      (split; [by apply list_elem_of_In | simpl; auto]). }
  destruct (raw_node_candidate c a Ha) as [n1 H1].
  destruct (raw_node_candidate c b Hb) as [n2 H2].
  exists n1, n2. split_and!; [done..| |].
  - apply (build_wire_adj_edges c (run c) n1 n2). exists (a, b). split; [done|]. by left.
  - apply (build_wire_adj_edges c (run c) n2 n1). exists (a, b). split; [done|]. by right.
Qed.

(** ** The wire graph and its groups *)

Lemma keys_setdefault_add_list a b adj :
  (setdefault_add a b adj).*1 = adj.*1 ++ (if decide (a ∈ adj.*1) then [] else [a]).
Proof.
  induction adj as [|[k s] adj IH]; csimpl; [done|].
  destruct (decide (k = a)) as [->|Hne]; csimpl.
  - rewrite decide_True by left. by rewrite app_nil_r.
  - rewrite IH. f_equal. destruct (decide (a ∈ adj.*1)).
    + rewrite decide_True; [done | by right].
    + rewrite decide_False; [done|]. by intros [?|?]%elem_of_cons.
Qed.

Lemma NoDup_keys_setdefault_add a b adj :
  NoDup adj.*1 → NoDup (setdefault_add a b adj).*1.
Proof.
  intros Hnd. rewrite keys_setdefault_add_list. destruct (decide (a ∈ adj.*1)).
  - by rewrite app_nil_r.
  - apply NoDup_app. split_and!; [done | | apply NoDup_singleton].
    intros x Hx ->%list_elem_of_singleton. done.
Qed.

Lemma NoDup_set_add b s : NoDup s → NoDup (set_add b s).
Proof.
  intros Hnd. unfold set_add. destruct (decide (b ∈ s)); [done|].
  apply NoDup_app. split_and!; [done | | apply NoDup_singleton].
  intros x Hx ->%list_elem_of_singleton. done.
Qed.

Lemma NoDup_sets_setdefault_add a b adj :
  Forall (λ ks, NoDup ks.2) adj → Forall (λ ks, NoDup ks.2) (setdefault_add a b adj).
Proof.
  induction 1 as [|[k s] adj Hs Hadj IH]; simpl.
  - constructor; [apply NoDup_singleton | constructor].
  - destruct (decide (k = a)); constructor; auto. by apply NoDup_set_add.
Qed.

Lemma build_wire_adj_wellformed c self wires adj :
  NoDup adj.*1 → Forall (λ ks, NoDup ks.2) adj →
  NoDup (foldl (wire_step c self) adj wires).*1
  ∧ Forall (λ ks, NoDup ks.2) (foldl (wire_step c self) adj wires).
Proof.
  revert adj. induction wires as [|ab wires IH]; intros adj Hk Hs; [done|].
  change (foldl (wire_step c self) adj (ab :: wires))
    with (foldl (wire_step c self) (wire_step c self adj ab) wires).
  apply IH; unfold wire_step;
    destruct (lookup_node c self ab.1), (lookup_node c self ab.2); try done; unfold add.
  - by do 2 apply NoDup_keys_setdefault_add.
  - by do 2 apply NoDup_sets_setdefault_add.
Qed.

(** X5. The wire graph of a run holds exactly the wires: [y] is a neighbour
    of [x] precisely when some wire joins the raw nodes [x] and [y], in
    either direction, so the graph is symmetric; a node is a key exactly
    when a wire ends on it; and no key or neighbour is listed twice. *)
Theorem wire_graph_is_the_wires (c : CircuitCanvas) :
  (∀ x y, y ∈ neighbours (run_adj c) x ↔ wired c (run c) x y)
  ∧ (∀ x y, y ∈ neighbours (run_adj c) x ↔ x ∈ neighbours (run_adj c) y)
  ∧ (∀ x, x ∈ (run_adj c).*1 ↔ ∃ y, wired c (run c) x y)
  ∧ NoDup (run_adj c).*1
  ∧ Forall (λ ks, NoDup ks.2) (run_adj c).
Proof.
  destruct (build_wire_adj_wellformed c (run c) (lines c) []) as [Hk Hs];
    [apply NoDup_nil_2 | constructor |].
  split_and!; [| | | exact Hk | exact Hs].
  - intros x y. apply (build_wire_adj_edges c (run c) x y).
  - intros x y. destruct (run_adj_graph c) as [Hsym _]. split; apply Hsym.
  - intros x. apply build_wire_adj_keys.
Qed.

(** X6. The groups found by the stack traversal are the connected parts of
    the wire graph: the traversal ends, every node of the graph is in
    exactly one group, no group is empty, and a group holds exactly the
    nodes joined by a chain of wires to any one of its members. *)
Theorem groups_are_wire_components (c : CircuitCanvas) :
  find_groups (run_adj c) = Some (run_groups c)
  ∧ NoDup (concat (run_groups c))
  ∧ (∀ x, x ∈ concat (run_groups c) ↔ x ∈ (run_adj c).*1)
  ∧ Forall (λ g, g ≠ []) (run_groups c)
  ∧ (∀ g n x, g ∈ run_groups c → n ∈ g → (x ∈ g ↔ wire_connected c n x)).
Proof.
  destruct (run_groups_spec c) as (Hnd & Hkeys & Hne & Hconn).
  split_and!; [apply run_groups_found | done | | by apply Forall_forall | done].
  intros x. rewrite Hkeys. symmetry. apply build_wire_adj_keys.
Qed.

(** ** The merge table *)

(** Where an entry of [merge] comes from: a group with node 0, the [i]-th
    other group, or the [j]-th isolated entry of the node table. *)
Lemma run_merge_cases (c : CircuitCanvas) n v :
  run_merge c !! n = Some v →
  (∃ g, g ∈ run_groups c ∧ 0 ∈ g ∧ n ∈ g ∧ v = 0)
  ∨ (∃ i g, nonground (run_groups c) !! i = Some g ∧ n ∈ g ∧ v = 1 + Z.of_nat i)
  ∨ (∃ j k, isolated (run_groups c) (nodes (run c)) !! j = Some (k, n)
        ∧ v = 1 + Z.of_nat (length (nonground (run_groups c))) + Z.of_nat j).
Proof.
  intros Hv. destruct (run_groups_spec c) as (Hnd & _).
  destruct (run_inv c) as (_ & _ & _ & Hids).
  destruct (merge_nodes_spec (run_groups c) (run c) Hnd Hids)
    as (Hground & Hfresh & _ & Hnone).
  fold (run_merge c) in Hground, Hfresh, Hnone.
  destruct (decide (n ∈ concat (run_groups c))) as [Hc|Hc].
  - apply elem_of_concat in Hc as (g & Hn & Hg).
    destruct (decide (0 ∈ g)) as [H0|H0].
    + left. exists g. split_and!; [done..|].
      rewrite (Hground g n Hg H0 Hn) in Hv. by injection Hv.
    + right; left.
      assert (g ∈ nonground (run_groups c)) as (i & Hi)%list_elem_of_lookup_1
        by by apply list_elem_of_filter.
      exists i, g. split_and!; [done..|].
      rewrite (Hfresh i g n Hi Hn) in Hv. by injection Hv.
  - destruct (decide (n ∈ (nodes (run c)).*2)) as [Hin|Hin].
    + right; right. apply list_elem_of_fmap in Hin as ([k nid] & -> & He).
      assert ((k, nid) ∈ isolated (run_groups c) (nodes (run c)))
        as (j & Hj)%list_elem_of_lookup_1 by by apply list_elem_of_filter.
      exists j, k. split; [done|]. cbn [snd] in Hv.
      rewrite (merge_isolated c j k nid Hj) in Hv. by injection Hv.
    + by rewrite (Hnone n Hc Hin) in Hv.
Qed.

Lemma nonground_in_groups groups i g :
  nonground groups !! i = Some g → g ∈ groups ∧ 0 ∉ g.
Proof.
  intros Hi%list_elem_of_lookup_2. apply list_elem_of_filter in Hi. tauto.
Qed.

Lemma merge_eq_iff_wired (c : CircuitCanvas) (n1 n2 v1 v2 : Z) :
  run_merge c !! n1 = Some v1 → run_merge c !! n2 = Some v2 →
  (v1 = v2 ↔ wire_connected c n1 n2).
Proof.
  intros H1 H2. destruct (run_groups_spec c) as (Hnd & Hkeys & Hne & Hconn).
  split.
  - intros <-.
    destruct (run_merge_cases c n1 v1 H1)
      as [(g1 & Hg1 & H01 & Hn1 & Hv1)|[(i1 & g1 & Hi1 & Hn1 & Hv1)|(j1 & k1 & Hj1 & Hv1)]];
    destruct (run_merge_cases c n2 v1 H2)
      as [(g2 & Hg2 & H02 & Hn2 & Hv2)|[(i2 & g2 & Hi2 & Hn2 & Hv2)|(j2 & k2 & Hj2 & Hv2)]];
      try lia.
    + rewrite <- (NoDup_concat_unique _ g1 g2 0 Hnd Hg1 Hg2 H01 H02) in Hn2.
      by apply (Hconn g1 n1 n2).
    + assert (i1 = i2) as -> by lia. rewrite Hi1 in Hi2. injection Hi2 as <-.
      destruct (nonground_in_groups _ _ _ Hi1) as [Hg1 _]. by apply (Hconn g1 n1 n2).
    + apply lookup_lt_Some in Hi1. lia.
    + apply lookup_lt_Some in Hi2. lia.
    + assert (j1 = j2) as -> by lia. rewrite Hj1 in Hj2. injection Hj2 as _ <-.
      apply rtc_refl.
  - intros Hw. pose proof Hw as Hw'.
    apply rtc_inv in Hw' as [<-|(y & Hy & _)]; [congruence|].
    assert (n1 ∈ concat (run_groups c)) as (g & Hn1 & Hg)%elem_of_concat
      by (apply Hkeys; by exists y).
    assert (n2 ∈ g) as Hn2 by by apply (Hconn g n1 n2 Hg Hn1).
    destruct (run_inv c) as (_ & _ & _ & Hids).
    destruct (merge_nodes_spec (run_groups c) (run c) Hnd Hids) as (Hground & Hfresh & _).
    fold (run_merge c) in Hground, Hfresh.
    destruct (decide (0 ∈ g)) as [H0|H0].
    + rewrite (Hground g n1 Hg H0 Hn1) in H1. rewrite (Hground g n2 Hg H0 Hn2) in H2.
      congruence.
    + assert (g ∈ nonground (run_groups c)) as (i & Hi)%list_elem_of_lookup_1
        by by apply list_elem_of_filter.
      rewrite (Hfresh i g n1 Hi Hn1) in H1. rewrite (Hfresh i g n2 Hi Hn2) in H2.
      congruence.
Qed.

(** X7. Two raw nodes get the same final id exactly when they are joined by
    a chain of wires (or are the same node): merging never identifies nodes
    that no wire connects, and never separates nodes that wires connect. *)
Theorem same_final_iff_wired (c : CircuitCanvas) (n1 n2 v1 v2 : Z) :
  run_merge c !! n1 = Some v1 → run_merge c !! n2 = Some v2 →
  (v1 = v2 ↔ wire_connected c n1 n2).
Proof. apply merge_eq_iff_wired. Qed.

Lemma same_final_iff_wired_witness :
  run_merge battery_loop !! 2 = Some 1
  ∧ run_merge battery_loop !! 3 = Some 1
  ∧ (1 = 1 ↔ wire_connected battery_loop 2 3).
Proof.
  split; [vm_compute; reflexivity|]. split; [vm_compute; reflexivity|].
  apply (same_final_iff_wired battery_loop 2 3 1 1); vm_compute; reflexivity.
Defined.

(** X8. The final ids have no gaps: every entry of [merge] lies between 0
    and the number of groups without node 0 plus the number of isolated
    table entries, and every id from 1 up to that number is the final id
    of some raw node. *)
Theorem final_ids_contiguous (c : CircuitCanvas) :
  let top := Z.of_nat (length (nonground (run_groups c)))
             + Z.of_nat (length (isolated (run_groups c) (nodes (run c)))) in
  map_Forall (λ _ v, 0 ≤ v ≤ top) (run_merge c)
  ∧ Forall (λ v, ∃ n, run_merge c !! n = Some v) (seqZ 1 top).
Proof.
  cbv zeta. split.
  - intros n v Hv.
    destruct (run_merge_cases c n v Hv)
      as [(g & _ & _ & _ & ->)|[(i & g & Hi & _ & ->)|(j & k & Hj & ->)]].
    + lia.
    + apply lookup_lt_Some in Hi. lia.
    + apply lookup_lt_Some in Hj. lia.
  - apply Forall_forall. intros v Hv. apply elem_of_seqZ in Hv.
    destruct (run_groups_spec c) as (Hnd & _ & Hne & _).
    destruct (run_inv c) as (_ & _ & _ & Hids).
    destruct (merge_nodes_spec (run_groups c) (run c) Hnd Hids) as (_ & Hfresh & _).
    fold (run_merge c) in Hfresh.
    destruct (decide (v ≤ Z.of_nat (length (nonground (run_groups c))))) as [Hle|Hgt].
    + destruct (lookup_lt_is_Some_2 (nonground (run_groups c)) (Z.to_nat (v - 1)))
        as [g Hg]; [lia|].
      destruct (nonground_in_groups _ _ _ Hg) as [Hin _].
      destruct g as [|n g]; [by destruct (Hne [] Hin)|].
      exists n. rewrite (Hfresh _ _ n Hg) by left. f_equal. lia.
    + destruct (lookup_lt_is_Some_2 (isolated (run_groups c) (nodes (run c)))
                  (Z.to_nat (v - 1 - Z.of_nat (length (nonground (run_groups c))))))
        as [[k nid] Hj]; [lia|].
      exists nid. rewrite (merge_isolated c _ k nid Hj). f_equal. lia.
Qed.

(** X9. A point has final node 0 exactly when its raw node is joined by a
    chain of wires to node 0 and some wire ends on node 0; and node 0 is the
    raw node of exactly the points whose key is a ground anchor. *)
Theorem final_zero_iff_wired_to_ground (c : CircuitCanvas) (p : QPoint) :
  (final_node c p = Some 0 ↔
     ∃ n, raw_node c p = Some n ∧ wire_connected c 0 n ∧ ∃ y, wired c (run c) 0 y)
  ∧ (raw_node c p = Some 0 ↔ canonical_key c p ∈ ground_anchors c).
Proof.
  split.
  - split; [apply final_zero_wired|].
    intros (n & Hraw & Hconn & Hy). by apply (wired_to_zero_final c p n).
  - split.
    + intros Hraw. by destruct (raw_node_value c p 0 Hraw) as [[_ ?]|[? _]].
    + intros Hk. unfold raw_node, lookup_node, _get_node.
      rewrite bool_decide_eq_true_2; [done | by apply run_ground_keys].
Qed.

(** ** Raw nodes of pins *)

Lemma find_close_app_l key d ext e :
  find_close key d = Some e → find_close key (d ++ ext) = Some e.
Proof.
  unfold find_close. destruct (list_find _ d) as [[i x]|] eqn:E; [|done].
  intros [= <-]. by rewrite (list_find_app_l _ _ ext _ _ E).
Qed.

Lemma find_close_app_new key d k v :
  find_close key d = None → close k key = true →
  find_close key (d ++ [(k, v)]) = Some (k, v).
Proof.
  unfold find_close. destruct (list_find _ d) as [[i x]|] eqn:E; [done|].
  intros _ Hc. rewrite (list_find_app_r _ _ _ E). simpl.
  by rewrite decide_True.
Qed.

(** The id a lookup returns does not change when the table grows. *)
Lemma lookup_node_value_mono c s s' p n :
  nodes s `prefix_of` nodes s' → ground_keys s = ground_keys s' →
  lookup_node c s p = Some n → lookup_node c s' p = Some n.
Proof.
  intros [ext Hext] Hgk. unfold lookup_node, _get_node. rewrite <- Hgk, Hext.
  case_bool_decide; [done|].
  destruct (find_close _ (nodes s)) as [[k nid]|] eqn:E; [|done].
  intros [= <-]. by rewrite (find_close_app_l _ _ ext _ E).
Qed.

Lemma get_node_then_lookup_value c s p :
  lookup_node c (_get_node c s p true).2 p = (_get_node c s p true).1.
Proof.
  pose proof (get_node_ground_keys c s p true) as Hgk.
  unfold lookup_node. unfold _get_node at 1. rewrite Hgk.
  unfold _get_node. case_bool_decide as Hg; [done|].
  destruct (find_close _ (nodes s)) as [[k nid]|] eqn:E; cbn [fst snd nodes].
  - by rewrite E.
  - rewrite (dict_set_fresh _ _ _ (find_close_None_fresh _ _ E)).
    by rewrite (find_close_app_new _ _ _ _ E (close_refl _)).
Qed.

(** X14. The id a pin receives in the creating pass is the id every later
    lookup of that pin returns: nodes created afterwards never capture an
    earlier pin. *)
Theorem created_id_is_looked_up (c : CircuitCanvas) (pre suf : list QPoint) (p : QPoint) :
  Canvas.candidates c = pre ++ p :: suf →
  (_get_node c (assign_all c (collected c init) pre) p true).1 = raw_node c p.
Proof.
  intros Hsplit. unfold raw_node, run, prepare. fold (collected c init).
  rewrite collected_all_pins, Hsplit.
  rewrite assign_all_app. change (p :: suf) with ([p] ++ suf). rewrite assign_all_app.
  set (s1 := assign_all c (collected c init) pre).
  destruct (_get_node c s1 p true).1 as [n|] eqn:E.
  - symmetry. eapply (lookup_node_value_mono c (assign_all c s1 [p]));
      [apply assign_all_nodes_prefix | by rewrite !assign_all_ground_keys |].
    rewrite <- E. apply get_node_then_lookup_value.
  - pose proof (get_node_then_lookup c s1 p) as [n Hn].
    rewrite get_node_then_lookup_value, E in Hn. done.
Qed.

Lemma created_id_is_looked_up_witness :
  Canvas.candidates battery_loop
    = [(-30, 0); (30, 0); (-60, 0)] ++ (70, 0)
      :: [(130, 0); (160, 40); (-30, 0); (-60, 0); (30, 0); (50, 0); (50, 0); (70, 0);
          (130, 0); (160, 40)]
  ∧ (_get_node battery_loop
       (assign_all battery_loop (collected battery_loop init) [(-30, 0); (30, 0); (-60, 0)])
       (70, 0) true).1 = raw_node battery_loop (70, 0)
  ∧ raw_node battery_loop (70, 0) = Some 3.
Proof.
  split; [reflexivity|]. split; [|vm_compute; reflexivity].
  apply (created_id_is_looked_up battery_loop [(-30, 0); (30, 0); (-60, 0)]
           [(130, 0); (160, 40); (-30, 0); (-60, 0); (30, 0); (50, 0); (50, 0); (70, 0);
            (130, 0); (160, 40)]).
  reflexivity.
Defined.

Lemma NoDup_snd_unique {A B} (l : list (A * B)) k1 k2 v :
  NoDup l.*2 → (k1, v) ∈ l → (k2, v) ∈ l → k1 = k2.
Proof.
  intros Hnd (i & Hi)%list_elem_of_lookup_1 (j & Hj)%list_elem_of_lookup_1.
  assert (i = j) as ->.
  { apply (NoDup_lookup (l.*2) i j v Hnd); rewrite list_lookup_fmap.
    - by rewrite Hi.
    - by rewrite Hj. }
  congruence.
Qed.

Lemma raw_node_entry c p n :
  raw_node c p = Some n → n ≠ 0 →
  ∃ k, (k, n) ∈ nodes (run c) ∧ close k (canonical_key c p) = true.
Proof.
  unfold raw_node, lookup_node, _get_node. case_bool_decide; [by intros [= <-]|].
  destruct (find_close _ _) as [[k nid]|] eqn:E; [|done].
  intros [= ->] _. apply find_close_Some in E as (i & Hi%list_elem_of_lookup_2 & Hc & _).
  by exists k.
Qed.

(** The two pins of an electrical component are 60 apart, too far for one
    table entry to be close to both. *)
Lemma pins_raw_nodes c comp pos :
  (comp, pos) ∈ components c → is_electrical comp = true →
  raw_node c (left_pin pos) = raw_node c (right_pin pos) →
  left_pin pos ∈ ground_anchors c ∧ right_pin pos ∈ ground_anchors c.
Proof.
  intros Hin He Heq.
  destruct (electrical_pins_candidates c comp pos Hin He) as [Hl Hr].
  destruct (raw_node_candidate c _ Hl) as [n Hn]. rewrite Hn in Heq. symmetry in Heq.
  destruct (raw_node_value c _ n Hn) as [[-> Hkl]|(Hne & _ & _)].
  - destruct (raw_node_value c _ 0 Heq) as [[_ Hkr]|(? & _)]; [|done].
    by rewrite (canonical_key_candidate c _ Hl) in Hkl;
       rewrite (canonical_key_candidate c _ Hr) in Hkr.
  - exfalso.
    destruct (raw_node_entry c _ n Hn Hne) as (k1 & Hk1 & Hc1).
    destruct (raw_node_entry c _ n Heq Hne) as (k2 & Hk2 & Hc2).
    destruct (run_inv c) as (_ & _ & _ & Hids).
    rewrite (NoDup_snd_unique _ k2 k1 n Hids Hk2 Hk1) in Hc2.
    rewrite (canonical_key_candidate c _ Hl) in Hc1.
    rewrite (canonical_key_candidate c _ Hr) in Hc2.
    apply close_spec in Hc1 as [Hc1 _]. apply close_spec in Hc2 as [Hc2 _].
    unfold left_pin, right_pin, grid_size in *. simpl in *. lia.
Qed.

(** X11. The two pins of a resistor, battery, capacitor or inductor never
    share a raw node, unless both lie on ground anchors: proximity merging
    alone cannot short a component. *)
Theorem pins_have_distinct_raw_nodes (c : CircuitCanvas) (comp : kind) (pos : QPoint) :
  (comp, pos) ∈ components c → is_electrical comp = true →
  left_pin pos ∉ ground_anchors c ∨ right_pin pos ∉ ground_anchors c →
  raw_node c (left_pin pos) ≠ raw_node c (right_pin pos).
Proof.
  intros Hin He Hng Heq. destruct (pins_raw_nodes c comp pos Hin He Heq). tauto.
Qed.

Lemma pins_have_distinct_raw_nodes_witness :
  (battery, (0, 0)) ∈ components battery_loop
  ∧ raw_node battery_loop (left_pin (0, 0)) ≠ raw_node battery_loop (right_pin (0, 0)).
Proof.
  assert ((battery, (0, 0)) ∈ components battery_loop) as Hin by left.
  split; [exact Hin|].
  apply (pins_have_distinct_raw_nodes battery_loop battery (0, 0) Hin eq_refl).
  left. assert (ground_anchors battery_loop = [(-60, 0); (160, 40)]) as -> by reflexivity.
  intros [[=]|[[=]|?%elem_of_nil]%elem_of_cons]%elem_of_cons. done.
Defined.

(** ** What a call can raise *)

(** What the loop raises is always about one entry: an electrical
    component with equal final nodes or with a pin without a final node, or
    an entry that is none of the seven kinds and so has no pins. *)
Lemma serialize_raises c self merge values comps : ∀ counts netlist e,
  serialize c self merge values comps counts netlist = inl e →
  (∃ comp pos, (comp, pos) ∈ comps ∧ is_electrical comp = true
    ∧ ((∃ n, e = ValueError comp n
          ∧ resolve c self merge (left_pin pos) = Some n
          ∧ resolve c self merge (right_pin pos) = Some n)
       ∨ (e = KeyError (lookup_node c self (left_pin pos))
          ∧ resolve c self merge (left_pin pos) = None)
       ∨ (e = KeyError (lookup_node c self (right_pin pos))
          ∧ resolve c self merge (right_pin pos) = None)))
  ∨ (e = IndexError ∧ ∃ pos, (other, pos) ∈ comps).
Proof.
  induction comps as [|[comp pos] comps IH]; intros counts netlist e H; [done|].
  destruct (is_electrical comp) eqn:He.
  - rewrite serialize_electrical in H by done.
    destruct (resolve c self merge (left_pin pos)) as [n1|] eqn:E1.
    + destruct (resolve c self merge (right_pin pos)) as [n2|] eqn:E2.
      * destruct (decide (n1 = n2)) as [->|Hne].
        -- injection H as <-. left. exists comp, pos. split_and!; [by left | done|].
           left. by exists n2.
        -- apply IH in H as [(comp' & pos' & ? & ? & ?)|(? & pos' & ?)].
           ++ left. exists comp', pos'. split_and!; [by right | done..].
           ++ right. split; [done|]. exists pos'. by right.
      * injection H as <-. left. exists comp, pos. split_and!; [by left | done|]. auto.
    + injection H as <-. left. exists comp, pos. split_and!; [by left | done|]. auto.
  - destruct (decide (comp = other)) as [->|Hno].
    { rewrite serialize_tag in H. injection H as <-. right. split; [done|].
      exists pos. by left. }
    rewrite serialize_other in H by done.
    apply IH in H as [(comp' & pos' & ? & ? & ?)|(? & pos' & ?)].
    + left. exists comp', pos'. split_and!; [by right | done..].
    + right. split; [done|]. exists pos'. by right.
Qed.

(** X13. Every call of [generate_netlist] ends in one of four ways: it
    returns a netlist; it raises the short-circuit [ValueError] of a
    component whose two pins have the same final node; it raises
    [KeyError] for node 0, which happens only when a pin of a resistor,
    battery, capacitor or inductor lies on a ground anchor while no wire
    ends on a ground anchor; or it raises [IndexError], which happens only
    when some entry is none of the seven kinds (it has no pins to index).
    A pin of a component of the seven kinds always has a raw node, and a
    raw node other than 0 always has a final node. *)
Theorem generate_netlist_outcomes (c : CircuitCanvas) (values : gmap string string)
    (self0 : NetlistGenerator) :
  let out := (generate_netlist c values self0).1 in
  (∃ s, out = Returned s)
  ∨ (∃ comp pos n, (comp, pos) ∈ components c ∧ is_electrical comp = true
       ∧ out = Raised (ValueError comp n)
       ∧ final_node c (left_pin pos) = Some n
       ∧ final_node c (right_pin pos) = Some n)
  ∨ (out = Raised (KeyError (Some 0))
     ∧ (¬ ∃ y, wired c (run c) 0 y)
     ∧ ∃ comp pos, (comp, pos) ∈ components c ∧ is_electrical comp = true
         ∧ (left_pin pos ∈ ground_anchors c ∨ right_pin pos ∈ ground_anchors c))
  ∨ (out = Raised IndexError ∧ ∃ pos, (other, pos) ∈ components c).
Proof.
  cbv zeta. rewrite generate_netlist_run. cbn [fst].
  destruct (serialize _ _ _ _ _ _ _) as [e|netlist] eqn:E; [|left; by eexists].
  right. apply serialize_raises in E as [(comp & pos & Hin & He & Hcase)|[-> ?]];
    [|by right; right].
  destruct (electrical_pins_candidates c comp pos Hin He) as [Hl Hr].
  destruct Hcase as [(n & -> & H1 & H2)|[[-> Hnone]|[-> Hnone]]].
  - left. by exists comp, pos, n.
  - right. left. destruct (final_node_candidate c _ Hl) as [[v Hv]|(Ha & Hraw & Hnw)].
    { unfold final_node, raw_node in Hv. unfold resolve in Hnone. congruence. }
    unfold raw_node in Hraw. rewrite Hraw. split_and!; [done..|].
    exists comp, pos. auto.
  - right. left. destruct (final_node_candidate c _ Hr) as [[v Hv]|(Ha & Hraw & Hnw)].
    { unfold final_node, raw_node in Hv. unfold resolve in Hnone. congruence. }
    unfold raw_node in Hraw. rewrite Hraw. split_and!; [done..|].
    exists comp, pos. auto.
Qed.

(** X10. On a canvas whose entries are anchored on the grid, as the canvas
    places and drags them, [generate_netlist] never fails on a lookup in
    [merge]: it returns a netlist, or raises the short-circuit error of a
    component whose two pins have the same final node, or raises
    [IndexError] because some entry is none of the seven kinds. *)
Theorem grid_canvas_outcomes (c : CircuitCanvas) (values : gmap string string)
    (self0 : NetlistGenerator) :
  on_grid c →
  (∃ s, (generate_netlist c values self0).1 = Returned s)
  ∨ (∃ comp pos n, (comp, pos) ∈ components c
      ∧ (generate_netlist c values self0).1 = Raised (ValueError comp n)
      ∧ final_node c (left_pin pos) = Some n
      ∧ final_node c (right_pin pos) = Some n)
  ∨ ((generate_netlist c values self0).1 = Raised IndexError
     ∧ ∃ pos, (other, pos) ∈ components c).
Proof. apply on_grid_outcomes. Qed.

Lemma on_grid_battery_loop : on_grid battery_loop.
Proof.
  intros comp pos Hin. unfold battery_loop in Hin. simpl in Hin.
  repeat (apply elem_of_cons in Hin as [[= -> ->]|Hin];
          [first [by exists 0 | by exists (-3) | by exists 5 | by exists 8]|]).
  by apply elem_of_nil in Hin.
Qed.

Lemma grid_canvas_outcomes_witness :
  (∃ s, (generate_netlist battery_loop ∅ init).1 = Returned s)
  ∨ (∃ comp pos n, (comp, pos) ∈ components battery_loop
      ∧ (generate_netlist battery_loop ∅ init).1 = Raised (ValueError comp n)
      ∧ final_node battery_loop (left_pin pos) = Some n
      ∧ final_node battery_loop (right_pin pos) = Some n)
  ∨ ((generate_netlist battery_loop ∅ init).1 = Raised IndexError
     ∧ ∃ pos, (other, pos) ∈ components battery_loop).
Proof. exact (grid_canvas_outcomes battery_loop ∅ init on_grid_battery_loop). Defined.

(** X12. Components of the seven kinds that no wire touches never stop the
    generation: on a canvas without wires whose components are on the grid
    and of the seven kinds, every call returns a netlist (each pin keeps a
    node of its own). *)
Theorem unwired_canvas_returns (c : CircuitCanvas) (values : gmap string string)
    (self0 : NetlistGenerator) :
  lines c = [] → on_grid c → seven_kinds (components c) →
  ∃ s, (generate_netlist c values self0).1 = Returned s.
Proof.
  intros Hlines Hgrid Hseven.
  destruct (on_grid_outcome c values self0 Hgrid Hseven)
    as [?|(comp & pos & n & Hin & Hout & H1 & H2)]; [done|]. exfalso.
  assert (is_electrical comp = true) as He.
  { rewrite generate_netlist_run in Hout. cbn [fst] in Hout.
    destruct (serialize _ _ _ _ _ _ _) as [e|?] eqn:E; [|done].
    apply serialize_raises in E as [(comp' & pos' & _ & He' & Hcase)|[-> _]];
      [|done].
    injection Hout as ->.
    by destruct Hcase as [(n' & [= <- _] & _)|[[[=] _]|[[=] _]]]. }
  unfold final_node in H1, H2.
  destruct (raw_node c (left_pin pos)) as [n1|] eqn:E1; [|done].
  destruct (raw_node c (right_pin pos)) as [n2|] eqn:E2; [|done].
  simpl in H1, H2.
  assert (n1 = n2) as ->.
  { pose proof (proj1 (merge_eq_iff_wired c n1 n2 n n H1 H2) eq_refl) as Hw.
    apply rtc_inv in Hw as [?|(y & (ab & Hab & _) & _)]; [done|].
    rewrite Hlines in Hab. by apply elem_of_nil in Hab. }
  destruct (pins_raw_nodes c comp pos Hin He) as [Ha _]; [congruence|].
  apply list_elem_of_fmap in Ha as ([comp' pos'] & Hp & [_ Hin']%list_elem_of_filter).
  destruct (Hgrid comp pos Hin) as [k Hk]. destruct (Hgrid comp' pos' Hin') as [k' Hk'].
  simpl in Hp. subst pos'. unfold left_pin, grid_size in *. simpl in *. lia.
Qed.

Lemma unwired_canvas_returns_witness :
  let c := {| components := [(resistor, (100, 100)); (ground, (200, 100))]; lines := [] |} in
  lines c = [] ∧ (generate_netlist c ∅ init).1 = Returned "R1 1 2 100"
  ∧ ∃ s, (generate_netlist c ∅ init).1 = Returned s.
Proof.
  cbv zeta. split; [reflexivity|]. split; [vm_compute; reflexivity|].
  apply (unwired_canvas_returns
           {| components := [(resistor, (100, 100)); (ground, (200, 100))]; lines := [] |}
           ∅ init eq_refl).
  - intros comp pos Hin. simpl in Hin.
    repeat (apply elem_of_cons in Hin as [[= -> ->]|Hin];
            [first [by exists 5 | by exists 10]|]).
    by apply elem_of_nil in Hin.
  - by repeat constructor.
Defined.

(** * The editor *)

Lemma to_grid_spec (p : QPoint) :
  (grid_size | (to_grid p).1) ∧ (grid_size | (to_grid p).2)
  ∧ (to_grid p).1 ≤ p.1 < (to_grid p).1 + grid_size
  ∧ (to_grid p).2 ≤ p.2 < (to_grid p).2 + grid_size.
Proof.
  unfold to_grid, grid_size. simpl. split_and!.
  - by exists (p.1 `div` 20).
  - by exists (p.2 `div` 20).
  - pose proof (Z.mul_div_le p.1 20). lia.
  - pose proof (Z.mod_pos_bound p.1 20). pose proof (Z.div_mod p.1 20). lia.
  - pose proof (Z.mul_div_le p.2 20). lia.
  - pose proof (Z.mod_pos_bound p.2 20). pose proof (Z.div_mod p.2 20). lia.
Qed.

(** The index [last_hit] returns: the greatest one whose square holds the
    point. *)
Lemma last_hit_Some half comps p i tp :
  last_hit half comps p = Some (i, tp) ↔
  comps !! i = Some tp ∧ hit half p tp
  ∧ ∀ j tp', (i < j)%nat → comps !! j = Some tp' → ¬ hit half p tp'.
Proof.
  unfold last_hit, hit. unfold QPoint in *. split.
  - intros ([i' tp'] & (Hi & Hhit & Hfirst)%list_find_Some & Heq)%fmap_Some.
    unfold prod_map in Heq. simpl in Heq. injection Heq as -> ->. cbn [fst snd] in *. pose proof (lookup_lt_Some _ _ _ Hi) as Hlt. rewrite length_reverse in Hlt.
    rewrite reverse_lookup in Hi by done.
    split_and!; [etrans; [|exact Hi]; f_equal; lia | done |]. intros j tp'' Hj Hlook.
    pose proof (lookup_lt_Some _ _ _ Hlook) as Hjlt.
    apply (Hfirst (length comps - 1 - j)%nat tp''); [|lia].
    rewrite reverse_lookup by lia. etrans; [|exact Hlook]. f_equal. lia.
  - intros (Hi & Hhit & Hlast). pose proof (lookup_lt_Some _ _ _ Hi) as Hlt.
    apply fmap_Some. exists ((length comps - 1 - i)%nat, tp). split.
    + apply list_find_Some. split_and!.
      * rewrite reverse_lookup by lia. etrans; [|exact Hi]. f_equal. lia.
      * done.
      * intros j tp' Hj Hjlt. pose proof (lookup_lt_Some _ _ _ Hj) as Hjl.
        rewrite length_reverse in Hjl. rewrite reverse_lookup in Hj by done.
        apply (Hlast (length comps - S j)%nat tp'); [lia | done].
    + simpl. f_equal. f_equal. lia.
Qed.

Lemma last_hit_None half comps p :
  last_hit half comps p = None ↔ Forall (λ tp, ¬ hit half p tp) comps.
Proof.
  unfold last_hit, hit. rewrite fmap_None, list_find_None, Forall_reverse. done.
Qed.

(** Removing the first line that passes a test is deleting at the index
    where the scan found it. *)
Lemma list_remove_first_find {A} `{EqDecision A} (P : A → Prop) `{∀ x, Decision (P x)}
    (l : list A) i x :
  list_find P l = Some (i, x) → list_remove_first x l = delete i l.
Proof.
  revert i. induction l as [|y l IH]; intros i Hfind; [done|].
  apply list_find_Some in Hfind as (Hi & HP & Hfirst). simpl.
  destruct (decide (y = x)) as [->|Hne].
  - destruct i as [|i]; [done|]. by destruct (Hfirst 0%nat x eq_refl ltac:(lia)).
  - destruct i as [|i]; [simpl in Hi; congruence|]. simpl. f_equal. apply IH.
    apply list_find_Some. split_and!; [done..|].
    intros j z Hj Hlt. apply (Hfirst (S j) z); [done | lia].
Qed.

Section editor_props.
Context (near_line : QPoint → QPoint → QPoint → bool).

(** X19. [delete_at_point] removes at most one item, components first: if
    the point is within the 100-pixel square of some component, the last
    such component in the list is removed and the wires are untouched;
    otherwise the first wire that passes the distance test is removed;
    otherwise nothing changes. No other field is touched. *)
Theorem delete_at_point_removes_one (st : CanvasState) (p : QPoint) :
  let st' := delete_at_point near_line st p in
  ((∃ i tp, st_components st !! i = Some tp ∧ hit 50 p tp
      ∧ (∀ j tp', (i < j)%nat → st_components st !! j = Some tp' → ¬ hit 50 p tp')
      ∧ st' = set_components (delete i (st_components st)) st)
   ∨ (Forall (λ tp, ¬ hit 50 p tp) (st_components st)
      ∧ ∃ i ab, st_lines st !! i = Some ab ∧ near_line p ab.1 ab.2 = true
          ∧ (∀ j ab', (j < i)%nat → st_lines st !! j = Some ab' →
               near_line p ab'.1 ab'.2 ≠ true)
          ∧ st' = set_lines (delete i (st_lines st)) st)
   ∨ (Forall (λ tp, ¬ hit 50 p tp) (st_components st)
      ∧ Forall (λ ab, near_line p ab.1 ab.2 ≠ true) (st_lines st)
      ∧ st' = st))
  ∧ (length (st_components st) + length (st_lines st)
     ≤ S (length (st_components st') + length (st_lines st')))%nat.
Proof.
  cbv zeta. unfold delete_at_point.
  destruct (last_hit 50 (st_components st) p) as [[i tp]|] eqn:E.
  - apply last_hit_Some in E as (Hi & Hhit & Hlast). split.
    + left. by exists i, tp.
    + simpl. rewrite length_delete by by eexists. apply lookup_lt_Some in Hi. lia.
  - apply last_hit_None in E.
    destruct (list_find _ (st_lines st)) as [[i ab]|] eqn:F.
    + rewrite (list_remove_first_find _ _ _ _ F).
      apply list_find_Some in F as (Hi & Hnear & Hfirst). split.
      * right; left. split; [done|]. exists i, ab. split_and!; [done..| |done].
        intros j ab' Hj Hlook. by apply (Hfirst j ab').
      * simpl. rewrite length_delete by by eexists. apply lookup_lt_Some in Hi. lia.
    + apply list_find_None in F. split; [|lia]. right; right. done.
Qed.

(** X22. A double click grabs the component on top: when the point is
    within the 50-pixel square of some component, the last such component
    of the list becomes the dragged one, with its own index and the offset
    of the click from its anchor, and the pending press position is
    dropped; otherwise nothing changes. The two lists never change. *)
Theorem double_click_grabs_topmost (st : CanvasState) (pos : QPoint) :
  let adjusted_pos := qsub pos (offset st) in
  let st' := mouseDoubleClickEvent st pos in
  st_components st' = st_components st ∧ st_lines st' = st_lines st
  ∧ ((∃ i comp p, st_components st !! i = Some (comp, p)
        ∧ hit 25 adjusted_pos (comp, p)
        ∧ (∀ j tp', (i < j)%nat → st_components st !! j = Some tp' →
             ¬ hit 25 adjusted_pos tp')
        ∧ dragging_component st' = Some (comp, p, i)
        ∧ drag_offset st' = qsub adjusted_pos p
        ∧ start_point st' = None)
     ∨ (Forall (λ tp, ¬ hit 25 adjusted_pos tp) (st_components st) ∧ st' = st)).
Proof.
  cbv zeta. unfold mouseDoubleClickEvent.
  destruct (last_hit 25 _ _) as [[i [comp p]]|] eqn:E.
  - apply last_hit_Some in E as (Hi & Hhit & Hlast).
    split_and!; [done..|]. left. by exists i, comp, p.
  - apply last_hit_None in E. split_and!; [done..|]. by right.
Qed.

(** X20. While a component is dragged, a mouse move changes only that
    component: it keeps its kind and its place in the list and goes to the
    grid point under the pointer (less the grab offset); every other entry
    and every wire stay as they are. If the list no longer has that index,
    the move raises [IndexError]. *)
Theorem drag_moves_only_the_dragged (st : CanvasState) (middle : bool) (pos : QPoint)
    (comp : tool) (old_pos : QPoint) (idx : nat) :
  dragging_component st = Some (comp, old_pos, idx) →
  let new_pos := to_grid (qsub (qsub pos (offset st)) (drag_offset st)) in
  ((idx < length (st_components st))%nat →
     ∃ st', mouseMoveEvent st middle pos = inr st'
       ∧ length (st_components st') = length (st_components st)
       ∧ st_components st' !! idx = Some (comp, new_pos)
       ∧ (∀ j, j ≠ idx → st_components st' !! j = st_components st !! j)
       ∧ st_lines st' = st_lines st
       ∧ dragging_component st' = Some (comp, new_pos, idx)
       ∧ (grid_size | new_pos.1) ∧ (grid_size | new_pos.2))
  ∧ ((length (st_components st) ≤ idx)%nat →
     mouseMoveEvent st middle pos = inl IndexError).
Proof.
  intros Hdrag. cbv zeta. unfold mouseMoveEvent. rewrite Hdrag. split.
  - intros Hlt. rewrite decide_True by done. eexists. split; [done|].
    pose proof (to_grid_spec (qsub (qsub pos (offset st)) (drag_offset st)))
      as (Hg1 & Hg2 & _).
    cbn [st_components st_lines dragging_component set_dragging set_components].
    split_and!; [apply length_insert | by apply list_lookup_insert_eq | | done..].
    intros j Hne. by apply list_lookup_insert_ne.
  - intros Hge. rewrite decide_False by lia. done.
Qed.

(** X21. Clearing the canvas while a component is being dragged leaves the
    drag pending on an empty list: the next mouse move raises
    [IndexError]. *)
Theorem move_after_clear_raises (st : CanvasState) (middle : bool) (pos : QPoint) :
  is_Some (dragging_component st) →
  st_components (clear_canvas st) = [] ∧ st_lines (clear_canvas st) = []
  ∧ mouseMoveEvent (clear_canvas st) middle pos = inl IndexError.
Proof.
  intros [[[comp p] idx] Hdrag]. split_and!; [done..|].
  unfold mouseMoveEvent, clear_canvas. simpl. rewrite Hdrag. simpl. done.
Qed.

(** X17. A button release places the selected tool at the pending press
    position, rounded down to the grid: for any button but the middle one
    (and not the left one ending a drag), with a press position other than
    the origin pending and any tool but the wire selected (the delete tool
    included), one entry with that tool is appended at the grid point at
    most 19 pixels left of and above the press position; the release
    position plays no part, the wires stay, and the press position is
    consumed. *)
Theorem release_places_selected_tool (st : CanvasState) (b : button) (pos sp : QPoint)
    (t : tool) :
  b ≠ MiddleButton →
  ¬ (b = LeftButton ∧ is_Some (dragging_component st)) →
  start_point st = Some sp → sp ≠ (0, 0) →
  selected_component st = Some t → t ≠ Wire →
  let st' := mouseReleaseEvent st b pos in
  st_components st' = st_components st ++ [(t, to_grid sp)]
  ∧ st_lines st' = st_lines st
  ∧ start_point st' = None
  ∧ (grid_size | (to_grid sp).1) ∧ (grid_size | (to_grid sp).2)
  ∧ (to_grid sp).1 ≤ sp.1 < (to_grid sp).1 + grid_size
  ∧ (to_grid sp).2 ≤ sp.2 < (to_grid sp).2 + grid_size.
Proof using Type.
  clear near_line. intros Hb Hdrag Hsp Hnull Hsel Ht. cbv zeta.
  assert (mouseReleaseEvent st b pos
          = set_start_point None
              (set_components (st_components st ++ [(t, to_grid sp)]) st)) as ->.
  { unfold mouseReleaseEvent. 
    assert (bool_decide (b = LeftButton) && bool_decide (is_Some (dragging_component st))
            = false) as Hd.
    { apply andb_false_iff. destruct (decide (b = LeftButton)) as [->|Hne].
      - right. apply bool_decide_eq_false. tauto.
      - left. by apply bool_decide_eq_false. }
    rewrite Hd, Hsp, Hsel.
    assert (isNull sp = false) as ->.
    { unfold isNull. destruct sp as [x y]. simpl.
      apply andb_false_iff. destruct (decide (x = 0)) as [->|];
        [right | left]; apply bool_decide_eq_false; congruence. }
    rewrite (bool_decide_eq_false_2 _ Ht). simpl. by destruct b. }
  pose proof (to_grid_spec sp). simpl. tauto.
Qed.

(** X18. A button release never adds a wire that is not snapped or has no
    length: the list of wires is unchanged, or exactly one wire is appended
    whose two ends are different points, each a component pin or an
    endpoint of an existing wire, and whose first end is within the snap
    tolerance of where the wire was started; this happens only with the
    wire tool, and the components stay as they are. *)
Theorem release_appends_only_snapped_wires (st : CanvasState) (b : button) (pos : QPoint) :
  let st' := mouseReleaseEvent st b pos in
  st_lines st' = st_lines st
  ∨ ∃ a e rs, st_lines st' = st_lines st ++ [(a, e)]
      ∧ a ≠ e
      ∧ a ∈ Canvas.candidates (canvas_of st)
      ∧ e ∈ Canvas.candidates (canvas_of st)
      ∧ selected_component st = Some Wire
      ∧ _rubber_start st = Some rs
      ∧ dist a rs < snap_threshold
      ∧ st_components st' = st_components st.
Proof.
  cbv zeta. unfold mouseReleaseEvent. destruct b; [|by left|].
  all: destruct (bool_decide _ && bool_decide _); [by left|].
  all: destruct (start_point st) as [sp|], (selected_component st) as [t|] eqn:Hsel;
    try (destruct (negb (isNull sp) && negb (bool_decide (t = Wire))));
    try (by left).
  all: destruct (bool_decide (Some t = Some Wire)) eqn:Hw; simpl; [|by left].
  all: apply bool_decide_eq_true in Hw; injection Hw as ->.
  all: destruct (_rubber_start st) as [rs|] eqn:Hrs; simpl; [|by left].
  all: destruct (negb (isNull rs)); simpl; [|by left].
  all: pose proof (find_nearest_pin_spec (canvas_of st) rs) as Ha.
  all: destruct (Canvas.find_nearest_pin (canvas_of st) rs) as [a|]; [|by left].
  all: match goal with
       | |- context [Canvas.find_nearest_pin ?c' ?q] =>
           pose proof (find_nearest_pin_spec c' q) as He;
           destruct (Canvas.find_nearest_pin c' q) as [e|]; [|by left]
       end.
  all: destruct (decide (a = e)); [by left|].
  all: right; exists a, e, rs; simpl; destruct Ha as (? & ? & _), He as (? & _);
       split_and!; done.
Qed.

Lemma canvas_inv_same st st' :
  st_components st' = st_components st → st_lines st' = st_lines st →
  dragging_component st' = dragging_component st →
  canvas_inv st → canvas_inv st'.
Proof. unfold canvas_inv. by intros -> -> ->. Qed.

Lemma delete_at_point_inv st p : canvas_inv st → canvas_inv (delete_at_point near_line st p).
Proof.
  intros (Hc & Hl & Hd). unfold delete_at_point.
  destruct (last_hit 50 _ _) as [[i tp]|].
  - split_and!; [|done..]. simpl. by apply Forall_delete.
  - destruct (list_find _ (st_lines st)) as [[i ab]|] eqn:F; [|done].
    rewrite (list_remove_first_find _ _ _ _ F).
    split_and!; [done | | done]. simpl. by apply Forall_delete.
Qed.

Lemma mousePressEvent_inv st b pos :
  canvas_inv st → canvas_inv (mousePressEvent near_line st b pos).
Proof.
  intros Hinv. unfold mousePressEvent. destruct b; [|done..].
  destruct (dragging_component st) eqn:Hd; [done|]. cbn [selected_component set_start_point].
  destruct (selected_component st) as [[comp| |]|]; try done.
  eapply (canvas_inv_same (delete_at_point near_line (set_start_point _ st) _));
    [done.. |]. apply delete_at_point_inv. done.
Qed.

Lemma mouseDoubleClickEvent_inv st pos :
  canvas_inv st → canvas_inv (mouseDoubleClickEvent st pos).
Proof.
  intros (Hc & Hl & Hd). unfold mouseDoubleClickEvent.
  destruct (last_hit 25 _ _) as [[i [comp p]]|] eqn:E; [|done].
  apply last_hit_Some in E as (Hi%list_elem_of_lookup_2 & _).
  split_and!; [done..|]. simpl. intros comp' p' i' [= <- <- <-].
  rewrite Forall_forall in Hc. by destruct (Hc _ Hi) as (_ & _ & ?).
Qed.

Lemma mouseMoveEvent_inv st middle pos st' :
  canvas_inv st → mouseMoveEvent st middle pos = inr st' → canvas_inv st'.
Proof.
  intros Hinv. pose proof Hinv as (Hc & Hl & Hd). unfold mouseMoveEvent.
  destruct (dragging_component st) as [[[comp old_pos] idx]|] eqn:Hdrag.
  - destruct (decide _); [|done]. intros [= <-].
    pose proof (to_grid_spec (qsub (qsub pos (offset st)) (drag_offset st)))
      as (Hg1 & Hg2 & _).
    split_and!; simpl.
    + apply Forall_insert; [done|]. split_and!; [done..|]. by eapply Hd.
    + done.
    + intros comp' p' i' [= <- <- <-]. by eapply Hd.
  - destruct (middle && truthy _);
      [intros [= <-]; by apply (canvas_inv_same st)|].
    destruct (bool_decide _ && truthy _).
    + destruct (truthy _); intros [= <-]; by apply (canvas_inv_same st).
    + intros [= <-]. by apply (canvas_inv_same st).
Qed.

Lemma mouseReleaseEvent_inv st b pos :
  canvas_inv st → canvas_inv (mouseReleaseEvent st b pos).
Proof.
  intros Hinv. pose proof Hinv as (Hc & Hl & Hd).
  assert (∀ t sp, t ≠ Wire →
            canvas_inv (set_start_point None
                          (set_components (st_components st ++ [(t, to_grid sp)]) st)))
    as Hplace.
  { intros t sp Ht. pose proof (to_grid_spec sp) as (Hg1 & Hg2 & _).
    split_and!; [|done..]. simpl. apply Forall_app. split; [done|].
    by repeat constructor. }
  assert (∀ a e, a ≠ e →
            canvas_inv (reset_wire (set_lines (st_lines st ++ [(a, e)]) st))) as Hwire.
  { intros a e Hne. split_and!; [done | | done]. simpl. apply Forall_app.
    split; [done|]. by repeat constructor. }
  unfold mouseReleaseEvent. destruct b; [|by apply (canvas_inv_same st)|].
  all: destruct (bool_decide _ && bool_decide _); [by split_and!|].
  all: destruct (start_point st) as [sp|], (selected_component st) as [t|];
    try (destruct (negb (isNull sp) && negb (bool_decide (t = Wire))) eqn:Hp);
    try (apply andb_true_iff in Hp as [_ Ht%negb_true_iff%bool_decide_eq_false];
         by apply Hplace); cbv zeta.
  all: destruct (bool_decide _ && truthy _); [|done].
  all: destruct (Canvas.find_nearest_pin _ _) as [a|];
    [|by apply (canvas_inv_same st)].
  all: destruct (Canvas.find_nearest_pin _ _) as [e|];
    [|by apply (canvas_inv_same st)].
  all: destruct (decide (a = e)); [by apply (canvas_inv_same st) | by apply Hwire].
Qed.

Lemma handle_inv st ev st' :
  canvas_inv st → handle near_line st ev = inr st' → canvas_inv st'.
Proof.
  intros Hinv. destruct ev; simpl.
  - intros [= <-]. by apply mousePressEvent_inv.
  - intros [= <-]. by apply mouseDoubleClickEvent_inv.
  - by apply mouseMoveEvent_inv.
  - intros [= <-]. by apply mouseReleaseEvent_inv.
  - intros [= <-]. by destruct Hinv as (? & ? & ?).
  - intros [= <-]. destruct Hinv as (? & ? & ?). by split_and!.
Qed.

Lemma handle_all_inv evs : ∀ st st',
  canvas_inv st → handle_all near_line st evs = inr st' → canvas_inv st'.
Proof.
  induction evs as [|ev evs IH]; intros st st' Hinv; simpl; [by intros [= <-]|].
  destruct (handle near_line st ev) as [e|st1] eqn:E; [done|].
  apply IH. by eapply handle_inv.
Qed.

Lemma canvas0_inv : canvas_inv canvas0.
Proof. split_and!; [constructor..|done]. Qed.

Lemma canvas_inv_on_grid st : canvas_inv st → on_grid (canvas_of st).
Proof.
  intros (Hc & _) comp pos Hin. unfold canvas_of in Hin. cbn [components] in Hin.
  apply list_elem_of_fmap in Hin as ([t p] & [= -> ->] & Hin).
  rewrite Forall_forall in Hc. by destruct (Hc _ Hin) as (? & _).
Qed.

Lemma canvas_of_seven_kinds st :
  Forall (λ tp, tag tp.1 ≠ other) (st_components st) →
  seven_kinds (components (canvas_of st)).
Proof.
  intros H. unfold seven_kinds, canvas_of. cbn [components].
  rewrite Forall_fmap. eapply Forall_impl; [exact H|]. by intros [t p].
Qed.

(** X15. Whatever the user does, starting from the empty canvas: every
    component sits on the grid (both coordinates are multiples of 20), no
    entry of [components] carries the wire tool, and no wire joins a point
    to itself. *)
Theorem editor_keeps_canvas_tidy (evs : list event) (st : CanvasState) :
  handle_all near_line canvas0 evs = inr st →
  Forall (λ tp, (grid_size | tp.2.1) ∧ (grid_size | tp.2.2) ∧ tp.1 ≠ Wire)
         (st_components st)
  ∧ Forall (λ ab, ab.1 ≠ ab.2) (st_lines st).
Proof.
  intros H. destruct (handle_all_inv evs canvas0 st canvas0_inv H) as (? & ? & _). done.
Qed.

(** X16. A canvas drawn through the handlers never makes the generator fail
    on a lookup in [merge]: after any sequence of events from the empty
    canvas, if every entry carries one of the seven kinds (none was placed
    with the delete tool), [generate_netlist] returns a netlist or raises
    the short-circuit error of a component with equal final nodes. (An
    entry placed with the delete tool has no pins: on it the serializing
    loop raises [IndexError].) *)
Theorem drawn_canvas_outcomes (evs : list event) (st : CanvasState)
    (values : gmap string string) (self0 : NetlistGenerator) :
  handle_all near_line canvas0 evs = inr st →
  Forall (λ tp, tag tp.1 ≠ other) (st_components st) →
  (∃ s, (generate_netlist (canvas_of st) values self0).1 = Returned s)
  ∨ ∃ comp pos n, (Place comp, pos) ∈ st_components st
      ∧ (generate_netlist (canvas_of st) values self0).1 = Raised (ValueError comp n)
      ∧ final_node (canvas_of st) (left_pin pos) = Some n
      ∧ final_node (canvas_of st) (right_pin pos) = Some n.
Proof.
  intros H Hnd. pose proof (handle_all_inv evs canvas0 st canvas0_inv H) as Hinv.
  destruct (on_grid_outcome (canvas_of st) values self0 (canvas_inv_on_grid st Hinv)
              (canvas_of_seven_kinds st Hnd))
    as [?|(comp & pos & n & Hin & ? & ? & ?)]; [by left|]. right.
  exists comp, pos, n. split_and!; [|done..].
  unfold canvas_of in Hin. cbn [components] in Hin.
  apply list_elem_of_fmap in Hin as ([t p] & [= -> ->] & Hin).
  rewrite Forall_forall in Hnd. pose proof (Hnd _ Hin) as Hd. simpl in *.
  by destruct t.
Qed.

End editor_props.

Example pending_delete_reached :
  handle_all (λ _ _ _, false) canvas0
    [MousePress LeftButton (45, 45); MouseRelease LeftButton (45, 45);
     SetComponent Delete]
  = inr pending_delete.
Proof. reflexivity. Qed.

Example dragged_resistor_reached :
  handle_all (λ _ _ _, false) canvas0 (place_resistor ++ [MouseDoubleClick (110, 50)])
  = inr dragged_resistor.
Proof. vm_compute. reflexivity. Qed.

Lemma release_places_selected_tool_witness :
  start_point pending_delete = Some (45, 45)
  ∧ selected_component pending_delete = Some Delete
  ∧ st_components (mouseReleaseEvent pending_delete OtherButton (300, 300))
    = st_components pending_delete ++ [(Delete, to_grid (45, 45))]
  ∧ st_lines (mouseReleaseEvent pending_delete OtherButton (300, 300))
    = st_lines pending_delete
  ∧ start_point (mouseReleaseEvent pending_delete OtherButton (300, 300)) = None
  ∧ (grid_size | (to_grid (45, 45)).1) ∧ (grid_size | (to_grid (45, 45)).2)
  ∧ (to_grid (45, 45)).1 ≤ 45 < (to_grid (45, 45)).1 + grid_size
  ∧ (to_grid (45, 45)).2 ≤ 45 < (to_grid (45, 45)).2 + grid_size.
Proof.
  split; [reflexivity|]. split; [reflexivity|].
  apply (release_places_selected_tool pending_delete OtherButton (300, 300) (45, 45) Delete);
    try done.
  by intros [? _].
Defined.

Lemma drag_moves_only_the_dragged_witness :
  dragging_component dragged_resistor = Some (Place resistor, (100, 40), 0%nat)
  ∧ to_grid (qsub (qsub (200, 95) (offset dragged_resistor)) (drag_offset dragged_resistor))
    = (180, 80)
  ∧ ((0 < length (st_components dragged_resistor))%nat →
       ∃ st', mouseMoveEvent dragged_resistor false (200, 95) = inr st'
         ∧ length (st_components st') = length (st_components dragged_resistor)
         ∧ st_components st' !! 0%nat
           = Some (Place resistor,
                   to_grid (qsub (qsub (200, 95) (offset dragged_resistor))
                                 (drag_offset dragged_resistor)))
         ∧ (∀ j, j ≠ 0%nat →
              st_components st' !! j = st_components dragged_resistor !! j)
         ∧ st_lines st' = st_lines dragged_resistor
         ∧ dragging_component st'
           = Some (Place resistor,
                   to_grid (qsub (qsub (200, 95) (offset dragged_resistor))
                                 (drag_offset dragged_resistor)), 0%nat)
         ∧ (grid_size | (to_grid (qsub (qsub (200, 95) (offset dragged_resistor))
                                       (drag_offset dragged_resistor))).1)
         ∧ (grid_size | (to_grid (qsub (qsub (200, 95) (offset dragged_resistor))
                                       (drag_offset dragged_resistor))).2))
  ∧ ((length (st_components dragged_resistor) ≤ 0)%nat →
       mouseMoveEvent dragged_resistor false (200, 95) = inl IndexError).
Proof.
  split; [reflexivity|]. split; [reflexivity|].
  exact (drag_moves_only_the_dragged dragged_resistor false (200, 95)
           (Place resistor) (100, 40) 0%nat eq_refl).
Defined.

Lemma move_after_clear_raises_witness :
  is_Some (dragging_component dragged_resistor)
  ∧ st_components (clear_canvas dragged_resistor) = []
  ∧ st_lines (clear_canvas dragged_resistor) = []
  ∧ mouseMoveEvent (clear_canvas dragged_resistor) false (200, 95) = inl IndexError.
Proof.
  assert (is_Some (dragging_component dragged_resistor)) as H by by eexists.
  split; [exact H|]. exact (move_after_clear_raises dragged_resistor false (200, 95) H).
Defined.

Lemma editor_keeps_canvas_tidy_witness :
  ∃ st, handle_all (λ _ _ _, false) canvas0 place_resistor = inr st
    ∧ st_components st = [(Place resistor, (100, 40))]
    ∧ Forall (λ tp, (grid_size | tp.2.1) ∧ (grid_size | tp.2.2) ∧ tp.1 ≠ Wire)
             (st_components st)
    ∧ Forall (λ ab, ab.1 ≠ ab.2) (st_lines st).
Proof.
  eexists. split; [vm_compute; reflexivity|]. split; [reflexivity|].
  apply (editor_keeps_canvas_tidy (λ _ _ _, false) place_resistor).
  vm_compute. reflexivity.
Defined.

Lemma drawn_canvas_outcomes_witness :
  ∃ st, handle_all (λ _ _ _, false) canvas0 place_resistor = inr st
    ∧ Forall (λ tp, tag tp.1 ≠ other) (st_components st)
    ∧ (generate_netlist (canvas_of st) ∅ init).1 = Returned "R1 1 2 100"
    ∧ ((∃ s, (generate_netlist (canvas_of st) ∅ init).1 = Returned s)
       ∨ ∃ comp pos n, (Place comp, pos) ∈ st_components st
           ∧ (generate_netlist (canvas_of st) ∅ init).1 = Raised (ValueError comp n)
           ∧ final_node (canvas_of st) (left_pin pos) = Some n
           ∧ final_node (canvas_of st) (right_pin pos) = Some n).
Proof.
  eexists. split; [vm_compute; reflexivity|].
  split; [by repeat constructor|]. split; [vm_compute; reflexivity|].
  apply (drawn_canvas_outcomes (λ _ _ _, false) place_resistor).
  - vm_compute. reflexivity.
  - by repeat constructor.
Defined.

(** * The caller *)

Lemma concat_nonempty (sep : string) (a : Ascii.ascii) (r : string) (xs : list string) :
  String.concat sep (String a r :: xs) ≠ "".
Proof. by destruct xs. Qed.

(** X23. The values handed to the generator come from the four input
    fields: the text of the field as typed, or 100, 1e-3, 1e-6, 5 when the
    field is empty; all four prefixes are always present, so the value of
    a netlist line is the field text or that default. *)
Theorem field_values (R_input L_input C_input V_input : string) :
  dom (component_values R_input L_input C_input V_input)
    = ({["R"; "L"; "C"; "V"]} : gset string)
  ∧ value_of (component_values R_input L_input C_input V_input)
      <$> [resistor; inductor; capacitor; battery]
    = [if decide (R_input = "") then "100" else R_input;
       if decide (L_input = "") then "1e-3" else L_input;
       if decide (C_input = "") then "1e-6" else C_input;
       if decide (V_input = "") then "5" else V_input].
Proof.
  unfold component_values. split.
  - rewrite !dom_insert_L, dom_empty_L. set_solver.
  - unfold value_of, text_or. simpl. by simplify_map_eq.
Qed.

(** X24. The netlist step of [run_simulation] always settles, and it shows
    the warning that there is nothing to simulate exactly when every entry
    of the canvas is a voltmeter, an ammeter or a ground (in particular when
    the canvas is empty); a netlist handed on is never empty. *)
Theorem nothing_to_simulate (c : CircuitCanvas) (self : NetlistGenerator)
    (R_input L_input C_input V_input : string) :
  is_Some (make_netlist c self R_input L_input C_input V_input)
  ∧ (make_netlist c self R_input L_input C_input V_input = Some NoComponents
     ↔ Forall (λ cp, cp.1 ∈ [voltmeter; ammeter; ground]) (components c))
  ∧ make_netlist c self R_input L_input C_input V_input ≠ Some (Simulate "").
Proof.
  assert (Forall (λ cp, cp.1 ∈ [voltmeter; ammeter; ground]) (components c)
          ↔ Forall (λ cp : kind * QPoint, is_skipped cp.1 = true) (components c)) as ->.
  { apply Forall_proper; [|done]. intros [comp pos]. cbn [fst].
    destruct comp; simpl; split; try done; set_solver. }
  unfold make_netlist. rewrite generate_netlist_run. cbn [fst].
  destruct (serialize _ _ _ _ _ _ _) as [e|out] eqn:E; simpl.
  - split_and!; [by eexists | | done]. split; [done|].
    intros Hnone. by rewrite serialize_none in E.
  - destruct (decide (String.concat _ out = "")) as [Hempty|Hne].
    + split_and!; [by eexists | | done]. split; [|done]. intros _.
      apply (serialize_all_skipped _ _ _ _ _ _ _ _ E).
      apply serialize_lines in E as (lines & -> & Hlen & Hlines). simpl in Hempty.
      destruct (electrical (components c)) as [|[comp pos] rest] eqn:Hel; [done|].
      exfalso. destruct (Hlines 0%nat comp pos eq_refl) as (n1 & n2 & _ & _ & _ & Hl).
      destruct lines as [|l lines]; [done|]. simpl in Hl. injection Hl as ->.
      assert (is_electrical comp = true) as He.
      { assert ((comp, pos) ∈ electrical (components c)) as Hin by (rewrite Hel; left).
        by apply list_elem_of_filter in Hin as [? _]. }
      revert Hempty. unfold format_line.
      destruct comp; try done; simpl; apply concat_nonempty.
    + split_and!; [by eexists | | congruence]. split; [done|].
      intros Hnone. rewrite serialize_none in E by done. injection E as <-. done.
Qed.
